(** * QSchematic: wire geometry, nets and the wire manager

    A shallow embedding of the connectivity core of QSchematic
    ([qschematic/items/wire.cpp], [qschematic/wire_system/wiresystem.cpp])
    and the properties its specification states about it.

    Conventions of the embedding.
    - Scene coordinates are integers ([Z]): wire points are snapped to the
      grid, and the properties below are about exact coincidence.
    - A C++ [int] index is a [Z]; it may be negative.
    - [QVector::at], [first] and [last] outside the range, and the use of a
      null pointer, are faults of the program; they are modelled by [None],
      and every operation that can reach one returns an [option].
    - Objects held through [std::shared_ptr] live in stores indexed by an
      identifier; a null pointer is [None] of an [option] identifier.
    - Signal emissions that only drive repainting are left out. *)

From stdpp Require Import gmap strings list fin_maps relations.
From Stdlib Require Import ZArith Lia Ascii.
From stdpp Require Import sorting.

Local Open Scope Z_scope.
Set Warnings "-clear-no-such-hyp".

(** ** Control structure *)

(** A range-based [for] over a snapshot of a container, whose body can
    fault. *)
Fixpoint for_each {A S : Type} (l : list A) (body : A → S → option S) (s : S)
  : option S :=
  match l with
  | [] => Some s
  | a :: l => s ← body a s; for_each l body s
  end.

(** ** Qt containers *)

Module QVector.

Definition count {A} (l : list A) : Z := Z.of_nat (length l).

(** [at(i)]: the element at index [i]; out of range is a fault. *)
Definition at_ {A} (l : list A) (i : Z) : option A :=
  if decide (0 ≤ i) then l !! Z.to_nat i else None.

Definition first {A} (l : list A) : option A := at_ l 0.
Definition last {A} (l : list A) : option A := at_ l (count l - 1).

(** [insert(i, x)]: [x] ends up at index [i]. *)
Definition insert {A} (i : Z) (x : A) (l : list A) : list A :=
  take (Z.to_nat i) l ++ x :: drop (Z.to_nat i) l.

(** [removeAt(i)], [remove(i)], [erase(begin + i)]. *)
Definition removeAt {A} (i : Z) (l : list A) : list A :=
  delete (Z.to_nat i) l.

(** [removeAll(x)] *)
Definition removeAll `{EqDecision A} (x : A) (l : list A) : list A :=
  filter (λ y, y ≠ x) l.

(** [contains(x)] *)
Definition contains `{EqDecision A} (l : list A) (x : A) : bool :=
  bool_decide (x ∈ l).

(** [removeFirst()] and [removeLast()]; the callers make sure the vector is
    not empty. *)
Definition removeFirst {A} (l : list A) : list A := drop 1 l.
Definition removeLast {A} (l : list A) : list A := take (length l - 1) l.

End QVector.

(** [std::sort(begin, end, less)]: an arrangement of the elements in which
    no element comes after one it is less than. It is computed by insertion
    here; where [less] is a strict total order on the elements there is one
    such arrangement only. *)
Fixpoint sort_insert {A} (less : A → A → bool) (a : A) (l : list A) : list A :=
  match l with
  | [] => [a]
  | b :: l' => if less b a then b :: sort_insert less a l' else a :: b :: l'
  end.

Definition std_sort {A} (less : A → A → bool) (l : list A) : list A :=
  foldr (sort_insert less) [] l.

(** The comparison of two elements by an integer key. *)
Definition by_key {A} (key : A → Z) (a b : A) : bool :=
  bool_decide (key a < key b).

(** ** Points and lines *)

Record QPointF := mkPoint { px : Z; py : Z }.

#[global] Instance QPointF_eq_dec : EqDecision QPointF.
Proof. solve_decision. Defined.

Definition QPointF_sub (a b : QPointF) : QPointF :=
  mkPoint (px a - px b) (py a - py b).

(** A wire point: a coordinate and the junction flag. *)
Record WirePoint := mkWirePoint { x : Z; y : Z; isJunction : bool }.

#[global] Instance WirePoint_eq_dec : EqDecision WirePoint.
Proof. solve_decision. Defined.

Module point.

(** Modelled from the spec: the point class ([wire_system/point.h]) is
    missing; a point is "2D coordinate + junction flag", and a point made
    from a coordinate is not a junction. *)
Definition of_QPointF (p : QPointF) : WirePoint :=
  mkWirePoint (px p) (py p) false.

Definition toPointF (p : WirePoint) : QPointF := mkPoint (x p) (y p).

Definition setIsJunction (b : bool) (p : WirePoint) : WirePoint :=
  mkWirePoint (x p) (y p) b.

(** Modelled from the spec: [operator==] of the point class
    ([wire_system/point.cpp]) is missing; "equality is coordinate equality",
    the junction flag is not compared. *)
Definition eqb (a b : WirePoint) : bool :=
  bool_decide (x a = x b) && bool_decide (y a = y b).

End point.

Record Line := mkLine { p1 : QPointF; p2 : QPointF }.

Module line.

Definition dot (a b : QPointF) : Z := px a * px b + py a * py b.
Definition cross (a b : QPointF) : Z := px a * py b - py a * px b.

(** Modelled from the spec: [Line::containsPoint(point, tolerance)]
    ([line.cpp]) is missing; it is the "containment test with tolerance" of
    a line segment: the point is at distance at most [tolerance] from the
    segment. With tolerance [0] the point lies exactly on the segment. The
    comparison is made on squared lengths. *)
Definition containsPoint (l : Line) (p : QPointF) (tolerance : Z) : bool :=
  let d := QPointF_sub (p2 l) (p1 l) in
  let v := QPointF_sub p (p1 l) in
  let u := QPointF_sub p (p2 l) in
  let t := dot v d in
  let len2 := dot d d in
  if bool_decide (t ≤ 0) then bool_decide (dot v v ≤ tolerance * tolerance)
  else if bool_decide (len2 ≤ t) then bool_decide (dot u u ≤ tolerance * tolerance)
  else bool_decide (cross d v * cross d v ≤ tolerance * tolerance * len2).

(** Modelled from the spec: [Utils::pointIsOnLine(QLineF, QPointF)]
    ([utils.cpp]) is missing; it is the "line containment test" used to
    prune collinear points. *)
Definition pointIsOnLine (l : Line) (p : QPointF) : bool :=
  containsPoint l p 0.

End line.

(** A rectangle, as the constructor [QRectF(topLeft, bottomRight)] takes
    it. *)
Record QRectF := mkRect { topLeft : QPointF; bottomRight : QPointF }.

(** ** The data model *)

Abbreviation WireId := nat.
Abbreviation NetId := nat.
Abbreviation ConnectorId := nat.

(** A wire: its points, the wires it has been asked to hold a connection to
    ([_connectedWires], raw pointers in the source), the back reference to
    its net and its item position. *)
Record wire := mkWire {
  _points : list WirePoint;
  _connectedWires : list WireId;
  _net : option NetId;
  pos : QPointF
}.

(** A net: a name and the wires it holds. *)
Record net := mkNet {
  _name : string;
  _wires : list WireId
}.

#[global] Instance wire_inhabited : Inhabited wire :=
  populate (mkWire [] [] None (mkPoint 0 0)).
#[global] Instance net_inhabited : Inhabited net :=
  populate (mkNet "" []).
#[global] Instance wire_eq_dec : EqDecision wire.
Proof. solve_decision. Defined.
#[global] Instance net_eq_dec : EqDecision net.
Proof. solve_decision. Defined.

Definition set_points (pts : list WirePoint) (w : wire) : wire :=
  mkWire pts (_connectedWires w) (_net w) (pos w).
Definition set_connectedWires (c : list WireId) (w : wire) : wire :=
  mkWire (_points w) c (_net w) (pos w).
Definition setNet (n : option NetId) (w : wire) : wire :=
  mkWire (_points w) (_connectedWires w) n (pos w).
Definition set_wires (ws : list WireId) (n : net) : net :=
  mkNet (_name n) ws.

(** The scene: the wire and net objects, and the members of the wire
    manager. [_nets] never holds a null pointer ([addWireNet] refuses one).
    [_wire_slots] are the wires whose [pointRemoved] and [destroyed] signals
    have been connected to the manager, [_connector_slots] the connectors
    whose [movedInScene] signal has been. *)
Record scene := mkScene {
  wire_store : gmap nat wire;
  net_store : gmap nat net;
  _nets : list NetId;
  _connections : gmap nat (WireId * Z);
  _wire_slots : list WireId;
  _connector_slots : list ConnectorId
}.

Definition empty_scene : scene := mkScene ∅ ∅ [] ∅ [] [].

(** Dereferencing a (non-null) shared pointer. *)
Definition wire_of (s : scene) (w : WireId) : wire := wire_store s !!! w.
Definition net_of (s : scene) (n : NetId) : net := net_store s !!! n.

Definition update_wire (w : WireId) (f : wire → wire) (s : scene) : scene :=
  mkScene (<[w := f (wire_of s w)]> (wire_store s)) (net_store s) (_nets s)
          (_connections s) (_wire_slots s) (_connector_slots s).
Definition update_net (n : NetId) (f : net → net) (s : scene) : scene :=
  mkScene (wire_store s) (<[n := f (net_of s n)]> (net_store s)) (_nets s)
          (_connections s) (_wire_slots s) (_connector_slots s).
Definition set_nets (l : list NetId) (s : scene) : scene :=
  mkScene (wire_store s) (net_store s) l
          (_connections s) (_wire_slots s) (_connector_slots s).
Definition set_connections (c : gmap nat (WireId * Z)) (s : scene) : scene :=
  mkScene (wire_store s) (net_store s) (_nets s)
          c (_wire_slots s) (_connector_slots s).
Definition set_wire_slots (l : list WireId) (s : scene) : scene :=
  mkScene (wire_store s) (net_store s) (_nets s)
          (_connections s) l (_connector_slots s).

(** [std::make_shared<Wire>()] followed by the points the caller gives it. *)
Definition make_wire (pts : list QPointF) (s : scene) : WireId * scene :=
  let w := fresh (dom (wire_store s)) in
  (w, mkScene (<[w := mkWire (point.of_QPointF <$> pts) [] None (mkPoint 0 0)]>
                 (wire_store s))
              (net_store s) (_nets s) (_connections s)
              (_wire_slots s) (_connector_slots s)).

(** [std::make_shared<WireNet>()]: a new net, without name or wires. *)
Definition make_net (s : scene) : NetId * scene :=
  let n := fresh (dom (net_store s)) in
  (n, mkScene (wire_store s) (<[n := mkNet "" []]> (net_store s)) (_nets s)
              (_connections s) (_wire_slots s) (_connector_slots s)).

(** ** Wire ([items/wire.cpp]) *)

Module Wire.

Definition points_count (w : wire) : Z := QVector.count (_points w).

Definition wirePointsRelative (w : wire) : list WirePoint :=
  (λ p, mkWirePoint (x p - px (pos w)) (y p - py (pos w)) (isJunction p))
    <$> _points w.

Definition pointsAbsolute (w : wire) : list QPointF :=
  point.toPointF <$> _points w.

(** Modelled from the spec: [line_segments()] of the wire base class
    ([wire_system/wire.cpp]) is missing; "N-1 segments from N points". *)
Fixpoint segments_of (pts : list QPointF) : list Line :=
  match pts with
  | a :: (b :: _) as tl => mkLine a b :: segments_of tl
  | _ => []
  end.
Definition line_segments (w : wire) : list Line :=
  segments_of (pointsAbsolute w).

Definition setPointIsJunction (index : Z) (isJ : bool) (w : wire) : wire :=
  if bool_decide (index < 0 ∨ index > points_count w - 1) then w
  else set_points
         (alter (point.setIsJunction isJ) (Z.to_nat index) (_points w)) w.

Definition prependPoint (p : QPointF) (w : wire) : option wire :=
  let w := set_points (point.of_QPointF p :: _points w) w in
  (* Update junction *)
  if bool_decide (points_count w >= 2) then
    q ← QVector.at_ (_points w) 1;
    let w := setPointIsJunction 0 (isJunction q) w in
    Some (setPointIsJunction 1 false w)
  else Some w.

Definition appendPoint (p : QPointF) (w : wire) : option wire :=
  let w := set_points (_points w ++ [point.of_QPointF p]) w in
  (* Update junction *)
  if bool_decide (points_count w > 2) then
    q ← QVector.at_ (_points w) (points_count w - 2);
    let w := setPointIsJunction (points_count w - 1) (isJunction q) w in
    Some (setPointIsJunction (points_count w - 2) false w)
  else Some w.

Definition connectWire (other : WireId) (w : wire) : bool * wire :=
  if QVector.contains (_connectedWires w) other then (false, w)
  else (true, set_connectedWires (_connectedWires w ++ [other]) w).

Definition disconnectWire (other : WireId) (w : wire) : wire :=
  set_connectedWires (QVector.removeAll other (_connectedWires w)) w.

Section geometry.
(** The geometric helpers are parameters of the wire operations; the
    scenarios instantiate them with [line.containsPoint] and
    [line.pointIsOnLine]. [default_tolerance] is the default argument of
    [Line::containsPoint], [move_junctions_to_new_segment] the relocation of
    the junctions of other wires, which acts on the scene. *)
Variable containsPoint : Line → QPointF → Z → bool.
Variable pointIsOnLine : Line → QPointF → bool.
Variable default_tolerance : Z.
Variable snapToGrid : QPointF → QPointF.
Variable pointOnLineClosestToPoint : QPointF → QPointF → QPointF → QPointF.
Variable move_junctions_to_new_segment : WireId → Line → Line → scene → scene.

Definition pointIsOnWire (w : wire) (p : QPointF) : bool :=
  existsb (λ lineSegment, containsPoint lineSegment p 0) (line_segments w).

Definition insertPoint (this : WireId) (index : Z) (p : QPointF) (s : scene)
  : option scene :=
  (* Boundary check *)
  if bool_decide (index < 0 ∨ index >= points_count (wire_of s this))
  then Some s
  else
    segment ← QVector.at_ (line_segments (wire_of s this)) (index - 1);
    (* If the point is not on the segment, move the junctions *)
    let s :=
      if negb (containsPoint segment p default_tolerance) then
        let closestPoint :=
          pointOnLineClosestToPoint (p1 segment) (p2 segment) p in
        let seg1 := mkLine (p1 segment) closestPoint in
        let seg2 := mkLine closestPoint (p2 segment) in
        let seg1new := mkLine (p1 segment) p in
        let seg2new := mkLine p (p2 segment) in
        let s := move_junctions_to_new_segment this seg1 seg1new s in
        move_junctions_to_new_segment this seg2 seg2new s
      else s in
    Some (update_wire this
            (λ w, set_points
                    (QVector.insert index (point.of_QPointF (snapToGrid p))
                       (_points w)) w) s).

(** [removeDuplicatePoints]: the [while] loop, with the number of iterations
    left as fuel. *)
Fixpoint removeDuplicatePoints_loop (fuel : nat) (i : Z) (w : wire)
  : option wire :=
  if bool_decide (i < points_count w - 1 ∧ points_count w > 2) then
    match fuel with
    | O => None
    | S fuel =>
      a ← QVector.at_ (wirePointsRelative w) i;
      b ← QVector.at_ (wirePointsRelative w) (i + 1);
      (* Check if p2 is the same as p1 *)
      if point.eqb a b then
        (* If p1 is not a junction itself then inherit from p2 *)
        let w := if negb (isJunction a)
                 then setPointIsJunction i (isJunction b) w else w in
        removeDuplicatePoints_loop fuel i
          (set_points (QVector.removeAt (i + 1) (_points w)) w)
      else removeDuplicatePoints_loop fuel (i + 1) w
    end
  else Some w.

Definition removeDuplicatePoints (w : wire) : option wire :=
  removeDuplicatePoints_loop (length (_points w)) 0 w.

(** [removeObsoletePoints]: the iterator [it] is the index [it]; after
    [it = _points.erase(it-1)] the iterator is at index [it - 1], and [it++]
    follows in both branches. *)
Fixpoint removeObsoletePoints_loop (fuel : nat) (it : Z) (w : wire)
  : option wire :=
  if bool_decide (it ≠ points_count w) then
    match fuel with
    | O => None
    | S fuel =>
      a ← QVector.at_ (_points w) (it - 2);
      b ← QVector.at_ (_points w) (it - 1);
      c ← QVector.at_ (_points w) it;
      if pointIsOnLine (mkLine (point.toPointF a) (point.toPointF b))
                       (point.toPointF c)
      then removeObsoletePoints_loop fuel (it - 1 + 1)
             (set_points (QVector.removeAt (it - 1) (_points w)) w)
      else removeObsoletePoints_loop fuel (it + 1) w
    end
  else Some w.

Definition removeObsoletePoints (w : wire) : option wire :=
  if bool_decide (points_count w < 3) then Some w
  else removeObsoletePoints_loop (length (_points w)) 2 w.

Definition simplify (w : wire) : option wire :=
  w ← removeDuplicatePoints w;
  removeObsoletePoints w.

End geometry.

Definition pointsRelative (w : wire) : list QPointF :=
  (λ p, QPointF_sub (point.toPointF p) (pos w)) <$> _points w.

Definition intMaxValue : Z := 2147483647.
Definition intMinValue : Z := -2147483648.

(** [calculateBoundingRect]: the rectangle it stores in [_rect]. The call of
    [updatePosition] at its end has no effect, the body of that function is
    commented out. *)
Definition calculateBoundingRect (w : wire) : QRectF :=
  (* Find top-left most point *)
  let topLeft :=
    foldl (λ topLeft p,
             let topLeft := if bool_decide (x p < px topLeft)
                            then mkPoint (x p) (py topLeft) else topLeft in
             if bool_decide (y p < py topLeft)
             then mkPoint (px topLeft) (y p) else topLeft)
          (mkPoint intMaxValue intMaxValue) (wirePointsRelative w) in
  (* Find bottom-right most point *)
  let bottomRight :=
    foldl (λ bottomRight p,
             let bottomRight := if bool_decide (x p > px bottomRight)
                                then mkPoint (x p) (py bottomRight)
                                else bottomRight in
             if bool_decide (y p > py bottomRight)
             then mkPoint (px bottomRight) (y p) else bottomRight)
          (mkPoint intMinValue intMinValue) (wirePointsRelative w) in
  (* Create the rectangle *)
  mkRect topLeft bottomRight.

Definition removeFirstPoint (w : wire) : wire :=
  if bool_decide (points_count w <= 0) then w
  else set_points (QVector.removeFirst (_points w)) w.

Definition removeLastPoint (w : wire) : wire :=
  if bool_decide (points_count w <= 0) then w
  else set_points (QVector.removeLast (_points w)) w.

(** Modelled from the spec: [junctions()] of the wire base class
    ([wire_system/wire.cpp]) is missing; "indices of points flagged as
    junctions". *)
Definition junctions (w : wire) : list Z :=
  filter (λ i, isJunction <$> QVector.at_ (_points w) i = Some true)
         (seqZ 0 (points_count w)).

(** The container of one point: the attribute "index" and the values "x"
    and "y", each of which can be missing in a container that is read. *)
Record point_container := mkPointContainer {
  index_attribute : option Z;
  x_value : option Z;
  y_value : option Z
}.

(** The comparison [from_container] sorts the points with. *)
Definition index_less (a b : point_container) : bool :=
  match index_attribute a, index_attribute b with
  | Some index1, Some index2 => bool_decide (index1 < index2)
  | _, _ => false                                 (* Point has no index. *)
  end.

Section container.
(** The part of the container that the base class writes and reads
    ([Item::to_container], [Item::from_container]) is a parameter. *)
Variable ItemContainer : Type.
Variable Item_to_container : wire → ItemContainer.
Variable Item_from_container : ItemContainer → wire → wire.

(** The root container: the values "item" and "points". The type id that
    [addItemTypeIdToContainer] adds is not read by [from_container] and is
    left out. *)
Record wire_container := mkWireContainer {
  item_value : option ItemContainer;
  points_value : option (list point_container)
}.

Definition to_container (w : wire) : wire_container :=
  (* Points *)
  let pointsContainer :=
    imap (λ i p, mkPointContainer (Some (Z.of_nat i)) (Some (x p)) (Some (y p)))
         (_points w) in
  (* Root *)
  mkWireContainer (Some (Item_to_container w)) (Some pointsContainer).

(** [from_container]: the value "item" has to be there ([value()] of an
    empty optional throws); the points are appended to the points the wire
    has. *)
Definition from_container (container : wire_container) (w : wire)
  : option wire :=
  (* Root *)
  item ← item_value container;
  let w := Item_from_container item w in
  (* Points *)
  match points_value container with
  | Some points =>
    (* Sort points by index *)
    let points := std_sort index_less points in
    Some (set_points
            (_points w
             ++ ((λ pointContainer,
                    mkWirePoint (default 0 (x_value pointContainer))
                                (default 0 (y_value pointContainer)) false)
                   <$> points))
            w)
  | None => Some w
  end.

End container.

End Wire.

(** ** Net *)

Module WireNet.

(** Modelled from the spec: [addWire] and [removeWire] of the net
    ([wire_system/net.cpp], [items/wirenet.cpp]) are missing; they
    "attach/detach a Wire" and "must update the Wire's back-reference to its
    owning Net". [addWire] stores the wire and points its back reference at
    this net. *)
Definition addWire (n : NetId) (w : WireId) (s : scene) : scene :=
  update_wire w (setNet (Some n))
    (update_net n (λ N, set_wires (_wires N ++ [w]) N) s).

(** Modelled from the spec: [removeWire] takes the wire out of the net. The
    manager always calls it on the old net right after [addWire] on the new
    one, so the back reference already points at the new net and stays. *)
Definition removeWire (n : NetId) (w : WireId) (s : scene) : scene :=
  update_net n (λ N, set_wires (QVector.removeAll w (_wires N)) N) s.

Definition wires (s : scene) (n : NetId) : list WireId := _wires (net_of s n).

(** Modelled from the spec: [contains] of the net ([wire_system/net.cpp]) is
    missing; "contains(wire) -> bool" tells whether the net holds the
    wire. *)
Definition contains (s : scene) (n : NetId) (w : WireId) : bool :=
  QVector.contains (_wires (net_of s n)) w.
Definition name (s : scene) (n : NetId) : string := _name (net_of s n).

End WireNet.

(** ** QString *)

Module QString.

Definition toLower (c : ascii) : ascii :=
  let n := nat_of_ascii c in
  if ((65 <=? n) && (n <=? 90))%nat then ascii_of_nat (n + 32) else c.

Fixpoint toCaseFolded (s : string) : string :=
  match s with
  | EmptyString => EmptyString
  | String c s => String (toLower c) (toCaseFolded s)
  end.

Definition isEmpty (s : string) : bool := bool_decide (s = "").

(** [QString::compare(a, b, Qt::CaseInsensitive)], for names made of ASCII
    characters: the sign of the comparison of the case-folded strings. *)
Definition compare_CaseInsensitive (a b : string) : Z :=
  match String.compare (toCaseFolded a) (toCaseFolded b) with
  | Eq => 0
  | Lt => -1
  | Gt => 1
  end.

End QString.

(** ** The wire manager ([wire_system/wiresystem.cpp]) *)

Module wire_manager.

Definition addWireNet (wireNet : option NetId) (s : scene) : scene :=
  match wireNet with
  | None => s                                     (* Sanity check *)
  | Some n => set_nets (_nets s ++ [n]) s         (* Keep track of stuff *)
  end.

(** Returns a list of all the nets *)
Definition nets (s : scene) : list NetId := _nets s.

(** Returns a list of all the wires *)
Definition wires (s : scene) : list WireId :=
  concat ((λ wireNet, WireNet.wires s wireNet) <$> _nets s).

Definition removeWireNet (net : option NetId) (s : scene) : scene :=
  match net with
  | None => s
  | Some n => set_nets (QVector.removeAll n (_nets s)) s
  end.

(** Merges two wirenets into one; the loop runs over the copy of the wires
    of [otherNet] that [wires()] returns. *)
Definition mergeNets (net otherNet : option NetId) (s : scene)
  : option (bool * scene) :=
  (* Ignore if it's the same net *)
  if decide (net = otherNet) then Some (false, s)
  else
    o ← otherNet;
    s ← for_each (WireNet.wires s o)
          (λ wire s, n ← net;
                     Some (WireNet.removeWire o wire (WireNet.addWire n wire s)))
          s;
    Some (true, s).

(** Connect a wire to another wire while taking care of merging the nets. *)
Definition connectWire (wire rawWire : WireId) (s : scene) : option scene :=
  let '(connected, w) := Wire.connectWire rawWire (wire_of s wire) in
  if negb connected then Some s
  else
    let s := update_wire wire (λ _, w) s in
    let net := _net (wire_of s wire) in
    let otherNet := _net (wire_of s rawWire) in
    '(merged, s) ← mergeNets net otherNet s;
    if (merged : bool) then Some (removeWireNet otherNet s) else Some s.

(** One round of the [do ... while] loop of [wiresConnectedTo]: the wires of
    the net that are not in the list yet and are connected, in either
    storage direction, to one of the wires in the list. *)
Definition connected_to_one_of (s : scene) (connectedWires : list WireId)
    (otherWire : WireId) : bool :=
  existsb
    (λ wire2,
       QVector.contains (_connectedWires (wire_of s wire2)) otherWire
       || QVector.contains (_connectedWires (wire_of s otherWire)) wire2)
    connectedWires.

Definition wiresConnectedTo_round (s : scene) (netWires : list WireId)
    (connectedWires : list WireId) : list WireId :=
  filter (λ otherWire,
            negb (QVector.contains connectedWires otherWire)
            && connected_to_one_of s connectedWires otherWire)
         netWires.

Fixpoint wiresConnectedTo_loop (s : scene) (fuel : nat)
    (netWires connectedWires : list WireId) : option (list WireId) :=
  match fuel with
  | O => None
  | S fuel =>
    let newList := wiresConnectedTo_round s netWires connectedWires in
    let connectedWires := connectedWires ++ newList in
    if bool_decide (newList ≠ [])
    then wiresConnectedTo_loop s fuel netWires connectedWires
    else Some connectedWires
  end.

(** Generates a list of all the wires connected to a certain wire including
    the wire itself. *)
Definition wiresConnectedTo (wire : WireId) (s : scene)
  : option (list WireId) :=
  n ← _net (wire_of s wire);
  wiresConnectedTo_loop s (S (length (WireNet.wires s n)))
    (WireNet.wires s n) [wire].

(** Disconnects the a wire from another and takes care of updating the
    wirenets. *)
Definition disconnectWire (wire otherWire : WireId) (s : scene)
  : option scene :=
  let s := update_wire wire (Wire.disconnectWire otherWire) s in
  let net := _net (wire_of s otherWire) in
  (* Create a list of wires that will stay in the old net *)
  oldWires ← wiresConnectedTo wire s;
  n ← net;
  (* If there are wires that are not in the list create a new net *)
  if bool_decide (QVector.count (WireNet.wires s n) ≠ QVector.count oldWires)
  then
    let '(newNet, s) := make_net s in
    let s := addWireNet (Some newNet) s in
    for_each (WireNet.wires s n)
      (λ wireToMove s,
         if QVector.contains oldWires wireToMove then Some s
         else Some (WireNet.removeWire n wireToMove
                      (WireNet.addWire newNet wireToMove s)))
      s
  else Some s.

Definition addWire (wire : option WireId) (s : scene) : bool * scene :=
  match wire with
  | None => (false, s)                            (* Sanity check *)
  | Some w =>
    let '(newNet, s) := make_net s in
    let s := WireNet.addWire newNet w s in
    (true, addWireNet (Some newNet) s)
  end.

Section junctions.
Variable containsPoint : Line → QPointF → Z → bool.

(** The body of the inner loop of [generateJunctions]. The source calls
    [set_point_is_junction] of the wire base class, the new name of
    [Wire::setPointIsJunction]. *)
Definition generateJunctions_pair (wire otherWire : WireId) (s : scene)
  : option scene :=
  if decide (wire = otherWire) then Some s
  else
    f ← QVector.first (_points (wire_of s otherWire));
    s ← (if Wire.pointIsOnWire containsPoint (wire_of s wire) (point.toPointF f)
         then s ← connectWire wire otherWire s;
              Some (update_wire otherWire (Wire.setPointIsJunction 0 true) s)
         else Some s);
    l ← QVector.last (_points (wire_of s otherWire));
    if Wire.pointIsOnWire containsPoint (wire_of s wire) (point.toPointF l)
    then s ← connectWire wire otherWire s;
         Some (update_wire otherWire
                 (λ w, Wire.setPointIsJunction (Wire.points_count w - 1) true w)
                 s)
    else Some s.

Definition generateJunctions (s : scene) : option scene :=
  for_each (wires s)
    (λ wire s,
       for_each (wires s) (λ otherWire s, generateJunctions_pair wire otherWire s) s)
    s.

End junctions.

(** Returns a list of all the nets that are in the same global net as the
    given net *)
Definition nets_of_loop (s : scene) (wireNet : option NetId)
  : list NetId → list NetId → option (list NetId) :=
  fix go (todo result : list NetId) : option (list NetId) :=
    match todo with
    | [] => Some result
    | net :: todo =>
      if QString.isEmpty (WireNet.name s net) then go todo result
      else
        w ← wireNet;
        if bool_decide
             (QString.compare_CaseInsensitive
                (WireNet.name s net) (WireNet.name s w) = 0)
        then go todo (result ++ [net])
        else go todo result
    end.

Definition nets_of (wireNet : option NetId) (s : scene)
  : option (list NetId) :=
  nets_of_loop s wireNet (_nets s) [].

(** The keys of [_connections] *)
Definition keys (s : scene) : list ConnectorId :=
  (map_to_list (_connections s)).*1.

Definition connectorsAttachedToWire (wire : WireId) (s : scene)
  : list ConnectorId :=
  filter (λ connector, fst <$> _connections s !! connector = Some wire)
         (keys s).

Definition attachWireToConnector (wire : option WireId) (index : Z)
    (connector : option ConnectorId) (s : scene) : scene :=
  match wire, connector with
  | Some w, Some c =>
    if bool_decide (index < -1 ∨ Wire.points_count (wire_of s w) < index)
    then s
    (* Ignore if there is already one attached *)
    else if bool_decide (is_Some (_connections s !! c)) then s
    else
      (* Update index when points are inserted/removed *)
      let wire_slots :=
        if bool_decide (connectorsAttachedToWire w s = [])
        then _wire_slots s ++ [w] else _wire_slots s in
      mkScene (wire_store s) (net_store s) (_nets s)
              (<[c := (w, index)]> (_connections s))
              wire_slots
              (* Move the wire when the connector or its parent node moves *)
              (_connector_slots s ++ [c])
  | _, _ => s
  end.

(** Connects a wire to a connector and finds out with end should be
    connected. [scenePos] is the position of the connector in the scene, the
    pointers are not null. *)
Definition attachWireToConnector_at_end (scenePos : ConnectorId → QPointF)
    (wire : WireId) (connector : ConnectorId) (s : scene) : option scene :=
  f ← QVector.first (_points (wire_of s wire));
  (* Check if it's the first point *)
  if decide (point.toPointF f = scenePos connector)
  then Some (attachWireToConnector (Some wire) 0 (Some connector) s)
  else
    l ← QVector.last (_points (wire_of s wire));
    (* Check if it's the last point *)
    if decide (point.toPointF l = scenePos connector)
    then Some (attachWireToConnector (Some wire)
                 (Wire.points_count (wire_of s wire) - 1) (Some connector) s)
    else Some s.

Definition point_inserted (wire : WireId) (index : Z) (s : scene) : scene :=
  foldl
    (λ s connector,
       match _connections s !! connector with
       | None => s
       | Some wirePoint =>
         (* Skip if it's not the connected to the wire *)
         if bool_decide (wirePoint.1 ≠ wire) then s
         (* Do nothing if the connected point is the first *)
         else if bool_decide (wirePoint.2 = 0) then s
         else
           (* Inserted point comes before the connected point or the last
              point is connected *)
           let wirePoint :=
             if bool_decide
                  (wirePoint.2 >= index
                   ∨ wirePoint.2 = Wire.points_count (wire_of s wire) - 2)
             then (wirePoint.1, wirePoint.2 + 1) else wirePoint in
           (* Update the connection *)
           set_connections (<[connector := wirePoint]> (_connections s)) s
       end)
    s (keys s).

Definition pointRemoved (wire : WireId) (index : Z) (s : scene) : scene :=
  foldl
    (λ s connector,
       match _connections s !! connector with
       | None => s
       | Some wirePoint =>
         (* Skip if it's not the connected to the wire *)
         if bool_decide (wirePoint.1 ≠ wire) then s
         else
           let wirePoint :=
             if bool_decide (wirePoint.2 >= index)
             then (wirePoint.1, wirePoint.2 - 1) else wirePoint in
           (* Update the connection *)
           set_connections (<[connector := wirePoint]> (_connections s)) s
       end)
    s (keys s).

Definition attachedWire (connector : ConnectorId) (s : scene)
  : option WireId :=
  fst <$> _connections s !! connector.

Definition attachedWirepoint (connector : ConnectorId) (s : scene) : Z :=
  match _connections s !! connector with
  | None => -1
  | Some wirePoint => wirePoint.2
  end.

Definition clear (s : scene) : scene := set_nets [] s.

(** [detachWire]: for a connector that is not attached,
    [_connections.value(connector)] is a default value, whose wire is null;
    no connector is attached to a null wire, and [disconnect] with a null
    sender does nothing. [disconnect(wire, nullptr, this, nullptr)] takes
    away every connection from the wire to the manager. *)
Definition detachWire (connector : ConnectorId) (s : scene) : scene :=
  let wire := fst <$> _connections s !! connector in
  let s := set_connections (delete connector (_connections s)) s in
  (* Disconnect if the wire is not connected to any other connector *)
  match wire with
  | Some w =>
    if bool_decide (connectorsAttachedToWire w s = [])
    then set_wire_slots (QVector.removeAll w (_wire_slots s)) s
    else s
  | None => s
  end.


Definition detachWireFromAll (wire : WireId) (s : scene) : scene :=
  foldl
    (λ s connector,
       match _connections s !! connector with
       | None => s
       | Some wirePoint =>
         (* Skip if it's not the connected to the wire *)
         if bool_decide (wirePoint.1 ≠ wire) then s
         else
           set_connections (delete connector (_connections s))
             (set_wire_slots (QVector.removeAll wire (_wire_slots s)) s)
       end)
    s (keys s).

(** Returns whether the wire's point is attached to a connector *)
Definition wire_point_is_attached (wire : WireId) (index : Z) (s : scene)
  : bool :=
  existsb
    (λ wire_point : WireId * Z,
       bool_decide (wire_point.1 = wire) && bool_decide (wire_point.2 = index))
    (map_to_list (_connections s)).*2.

Section removal.
Variable containsPoint : Line → QPointF → Z → bool.

(** The loop of [removeWire] over the points of [otherWire]; its bound is
    read again in every round. *)
Fixpoint removeWire_junctions (fuel : nat) (index : Z)
    (wire otherWire : WireId) (s : scene) : option scene :=
  if bool_decide
       (index < QVector.count (Wire.pointsAbsolute (wire_of s otherWire)))
  then
    match fuel with
    | O => None
    | S fuel =>
      p ← QVector.at_ (_points (wire_of s otherWire)) index;
      let s :=
        if negb (isJunction p) then s
        else if Wire.pointIsOnWire containsPoint (wire_of s wire)
                  (point.toPointF p)
             then update_wire otherWire
                    (Wire.setPointIsJunction index false) s
             else s in
      removeWire_junctions fuel (index + 1) wire otherWire s
    end
  else Some s.

Definition removeWire (wire : WireId) (s : scene) : option (bool * scene) :=
  (* Disconnect from connected wires *)
  connected ← wiresConnectedTo wire s;
  s ← for_each connected
        (λ otherWire s,
           if decide (otherWire ≠ wire) then
             s ← disconnectWire otherWire wire s;
             (* Update the junction on the other wire *)
             removeWire_junctions (length (_points (wire_of s otherWire))) 0
               wire otherWire s
           else Some s)
        s;
  (* Remove the wire from the list *)
  let '(netsToDelete, s) :=
    foldl
      (λ '(netsToDelete, s) net,
         let s := if WireNet.contains s net wire
                  then WireNet.removeWire net wire s else s in
         if bool_decide (QVector.count (WireNet.wires s net) < 1)
         then (netsToDelete ++ [net], s) else (netsToDelete, s))
      ([], s) (_nets s) in
  (* Delete the net if this was the nets last wire *)
  Some (true, foldl (λ s net, removeWireNet (Some net) s) s netsToDelete).

End removal.

Section user_moves.
Variable containsPoint : Line → QPointF → Z → bool.

(** The search of [wirePointMovedByUser] for a junction of [rawWire], other
    than the point that moved, that lies on [wire]; [true] when there is
    one (the wires stay connected). *)
Fixpoint other_junction_on (wire rawWire : wire) (index : Z) (js : list Z)
  : option bool :=
  match js with
  | [] => Some false
  | jIndex :: js =>
    junction ← QVector.at_ (_points rawWire) jIndex;
    (* Ignore the point that moved *)
    if decide (jIndex = index) then other_junction_on wire rawWire index js
    (* If the point is on the line stay connected *)
    else if Wire.pointIsOnWire containsPoint wire (point.toPointF junction)
         then Some true
         else other_junction_on wire rawWire index js
  end.

(** The body of the first loop of [wirePointMovedByUser]. *)
Definition detach_moved_point (rawWire : WireId) (index : Z) (wire : WireId)
    (s : scene) : option scene :=
  (* Skip current wire *)
  if decide (wire = rawWire) then Some s
  (* If is connected *)
  else if QVector.contains (_connectedWires (wire_of s wire)) rawWire then
    (* Keep the wires connected if there is another junction *)
    stay ← other_junction_on (wire_of s wire) (wire_of s rawWire) index
              (Wire.junctions (wire_of s rawWire));
    s ← (if negb stay then disconnectWire wire rawWire s else Some s);
    Some (update_wire rawWire (Wire.setPointIsJunction index false) s)
  else Some s.

(** The body of the second loop of [wirePointMovedByUser]. *)
Definition attach_moved_point (rawWire : WireId) (index : Z) (wire : WireId)
    (s : scene) : option scene :=
  (* Skip current wire *)
  if decide (wire = rawWire) then Some s
  else
    q ← QVector.at_ (_points (wire_of s rawWire)) index;
    if Wire.pointIsOnWire containsPoint (wire_of s wire) (point.toPointF q)
    then
      if negb (QVector.contains (_connectedWires (wire_of s rawWire)) wire)
      then
        let s := update_wire rawWire (Wire.setPointIsJunction index true) s in
        connectWire wire rawWire s
      else Some s
    else Some s.

Definition wirePointMovedByUser (rawWire : WireId) (index : Z) (s : scene)
  : option scene :=
  p ← QVector.at_ (Wire.wirePointsRelative (wire_of s rawWire)) index;
  (* Detach wires *)
  s ← (if bool_decide
            (index = 0
             ∨ index = QVector.count (Wire.pointsAbsolute (wire_of s rawWire))
                       - 1)
          && isJunction p
       then for_each (wires s) (detach_moved_point rawWire index) s
       else Some s);
  (* Attach point to wire if needed *)
  if bool_decide
       (index = 0 ∨ index = Wire.points_count (wire_of s rawWire) - 1)
  then for_each (wires s) (attach_moved_point rawWire index) s
  else Some s.

End user_moves.

End wire_manager.

(** ** Sequences of calls on the manager *)

Inductive call :=
| connect_wire (a b : WireId)
| disconnect_wire (a b : WireId).

Definition run_call (c : call) (s : scene) : option scene :=
  match c with
  | connect_wire a b => wire_manager.connectWire a b s
  | disconnect_wire a b => wire_manager.disconnectWire a b s
  end.

Definition run_calls (cs : list call) (s : scene) : option scene :=
  for_each cs run_call s.

(** The calls that change the attachment table. *)
Inductive attachment_call :=
| attach_wire (wire : WireId) (index : Z) (connector : ConnectorId)
| detach_wire (connector : ConnectorId)
| detach_wire_from_all (wire : WireId)
| notify_inserted (wire : WireId) (index : Z)
| notify_removed (wire : WireId) (index : Z).

Definition run_attachment_call (s : scene) (c : attachment_call) : scene :=
  match c with
  | attach_wire wire index connector =>
    wire_manager.attachWireToConnector (Some wire) index (Some connector) s
  | detach_wire connector => wire_manager.detachWire connector s
  | detach_wire_from_all wire => wire_manager.detachWireFromAll wire s
  | notify_inserted wire index => wire_manager.point_inserted wire index s
  | notify_removed wire index => wire_manager.pointRemoved wire index s
  end.

Definition run_attachment_calls (cs : list attachment_call) (s : scene)
  : scene :=
  foldl run_attachment_call s cs.

(** ** The direct connection relation and its components *)

(** [a] and [b] are directly connected: one of them holds the other in its
    list of connected wires. *)
Definition linked (s : scene) (a b : WireId) : Prop :=
  b ∈ _connectedWires (wire_of s a) ∨ a ∈ _connectedWires (wire_of s b).

(** The connected component of a wire: everything reachable over direct
    connections. *)
Definition reachable (s : scene) : WireId → WireId → Prop := rtc (linked s).

(** The least set that holds [w] and every wire among [candidates] that is
    directly connected to a wire of the set. *)
Inductive closure_within (s : scene) (candidates : list WireId) (w : WireId)
  : WireId → Prop :=
| closure_start : closure_within s candidates w w
| closure_step a b :
    closure_within s candidates w a →
    b ∈ candidates →
    linked s a b →
    closure_within s candidates w b.

(** ** Reading the scene *)

(** The points of a wire of the scene. *)
Definition points_of (s : scene) (w : WireId) : list WirePoint :=
  _points (wire_of s w).

(** The list of connected wires a wire holds. *)
Definition connected_wires (s : scene) (w : WireId) : list WireId :=
  _connectedWires (wire_of s w).

(** The coordinates of the points of a wire of the scene. *)
Definition coords_of (s : scene) (w : WireId) : list QPointF :=
  Wire.pointsAbsolute (wire_of s w).

(** The junction flag of the point at index [i] of a wire ([false] where
    there is no such point). *)
Definition junction_at (s : scene) (w : WireId) (i : Z) : bool :=
  match QVector.at_ (points_of s w) i with
  | Some p => isJunction p
  | None => false
  end.

(** ** Steps of the loops of the manager *)

(** One step of the loops of [mergeNets] and [disconnectWire] that move a
    wire from the net [src] to the net [dst], unless it is to be kept. *)
Definition move_wire (dst src : NetId) (keep : WireId → bool) (w : WireId)
    (s : scene) : option scene :=
  if keep w then Some s
  else Some (WireNet.removeWire src w (WireNet.addWire dst w s)).

(** The scene after a successful [Wire::connectWire(b)] on [a]. *)
Definition link_added (a b : WireId) (s : scene) : scene :=
  update_wire a
    (λ _, set_connectedWires (connected_wires s a ++ [b]) (wire_of s a)) s.

(** The scene after [Wire::disconnectWire(b)] on [a]. *)
Definition link_removed (a b : WireId) (s : scene) : scene :=
  update_wire a (Wire.disconnectWire b) s.

(** One "connect and flag" of [generateJunctions]. *)
Definition connect_and_flag (hit : bool) (A B : WireId) (i : Z) (s : scene)
  : option scene :=
  if hit
  then s ← wire_manager.connectWire A B s;
       Some (update_wire B (Wire.setPointIsJunction i true) s)
  else Some s.

(** The "connect and flag" of [generateJunctions] for the last point, whose
    index is read from the wire when the flag is set. *)
Definition connect_and_flag_last (hit : bool) (A B : WireId) (s : scene)
  : option scene :=
  if hit
  then s ← wire_manager.connectWire A B s;
       Some (update_wire B
               (λ w, Wire.setPointIsJunction (Wire.points_count w - 1) true w)
               s)
  else Some s.

(** ** Simplification *)

(** No two consecutive points of the list coincide. *)
Definition no_consecutive_duplicates (l : list QPointF) : Prop :=
  ∀ (j : nat) a b, l !! j = Some a → l !! S j = Some b → a ≠ b.

(** A point of the wire as [wirePointsRelative] gives it. *)
Definition relative_of (w : wire) (p : WirePoint) : WirePoint :=
  mkWirePoint (x p - px (pos w)) (y p - py (pos w)) (isJunction p).

(** The state the duplicate scan has reached at index [i]: no two
    consecutive points before [i] coincide. *)
Definition scanned (i : Z) (w : wire) : Prop :=
  ∀ (j : nat) a b, Z.of_nat j < i →
    Wire.pointsAbsolute w !! j = Some a →
    Wire.pointsAbsolute w !! S j = Some b → a ≠ b.

(** Nothing is left for the duplicate scan to do. *)
Definition settled (w : wire) : Prop :=
  Wire.points_count w ≤ 2 ∨ no_consecutive_duplicates (Wire.pointsAbsolute w).

(** The coordinate [c] carries a junction flag on the wire. *)
Definition junction_on (w : wire) (c : QPointF) : Prop :=
  ∃ p, p ∈ _points w ∧ point.toPointF p = c ∧ isJunction p = true.

(** [l'] is [l] with elements taken out, the first and the last not among
    them. *)
Definition thinned {A} (l l' : list A) : Prop :=
  l' `sublist_of` l ∧ head l' = head l ∧ last l' = last l.

(** The wires differ in their points only. *)
Definition same_but_points (w w' : wire) : Prop :=
  _connectedWires w' = _connectedWires w ∧ _net w' = _net w ∧ pos w' = pos w.

(** ** Global nets and attachments *)

(** Two nets are shown as one global net: the name of [n] is not empty and
    equals the name of [N] up to the case of the letters. *)
Definition same_global_net (s : scene) (N n : NetId) : Prop :=
  WireNet.name s n ≠ ""
  ∧ QString.toCaseFolded (WireNet.name s n)
    = QString.toCaseFolded (WireNet.name s N).

#[global] Instance same_global_net_dec s N n : Decision (same_global_net s N n).
Proof. unfold same_global_net. apply _. Defined.

(** What [point_inserted] does to one entry of the attachment table;
    [count] is the number of points of the wire after the insertion. *)
Definition shift_inserted (wire : WireId) (index count : Z)
    (wirePoint : WireId * Z) : WireId * Z :=
  if bool_decide (wirePoint.1 ≠ wire) then wirePoint
  else if bool_decide (wirePoint.2 = 0) then wirePoint
  else if bool_decide (wirePoint.2 >= index ∨ wirePoint.2 = count - 2)
       then (wirePoint.1, wirePoint.2 + 1) else wirePoint.

(** What [pointRemoved] does to one entry of the attachment table. *)
Definition shift_removed (wire : WireId) (index : Z)
    (wirePoint : WireId * Z) : WireId * Z :=
  if bool_decide (wirePoint.1 ≠ wire) then wirePoint
  else if bool_decide (wirePoint.2 >= index)
       then (wirePoint.1, wirePoint.2 - 1) else wirePoint.



(** The signals of a wire are connected to the manager once, and exactly
    while a connector is attached to the wire. *)
Definition slots_match (s : scene) : Prop :=
  NoDup (_wire_slots s)
  ∧ ∀ w, w ∈ _wire_slots s
         ↔ wire_manager.connectorsAttachedToWire w s ≠ [].

(** ** The state of the manager between two calls *)

(** The nets registered with the manager are distinct objects that exist;
    the wires of a net are distinct and point back at it; and all that is
    reachable from a wire of a net over direct connections is in the net,
    and the other way round. A net without wires satisfies this. *)
Record consistent (s : scene) : Prop := {
  nets_nodup : NoDup (_nets s);
  nets_alloc : ∀ n, n ∈ _nets s → n ∈ dom (net_store s);
  net_wires_nodup : ∀ n, n ∈ _nets s → NoDup (WireNet.wires s n);
  wire_net : ∀ n w,
    n ∈ _nets s → w ∈ WireNet.wires s n → _net (wire_of s w) = Some n;
  nets_components : ∀ n w x,
    n ∈ _nets s → w ∈ WireNet.wires s n →
    (reachable s w x ↔ x ∈ WireNet.wires s n)
}.



(** No net of the manager is without wires. *)
Definition no_empty_net (s : scene) : Prop :=
  ∀ n, n ∈ _nets s → WireNet.wires s n ≠ [].



(** ** Junctions *)

Section touching.
Variable containsPoint : Line → QPointF → Z → bool.

(** The first (the last) point of [B] lies on one of the segments of [A]. *)
Definition first_on (s : scene) (A B : WireId) : bool :=
  match QVector.first (coords_of s B) with
  | Some p => Wire.pointIsOnWire containsPoint (wire_of s A) p
  | None => false
  end.

Definition last_on (s : scene) (A B : WireId) : bool :=
  match QVector.last (coords_of s B) with
  | Some p => Wire.pointIsOnWire containsPoint (wire_of s A) p
  | None => false
  end.

(** The state [generateJunctions] has reached once the ordered pairs of
    wires in [D] have been looked at, from the scene [s0]. *)
Record junctions_generated (s0 : scene) (D : WireId → WireId → Prop)
    (s : scene) : Prop := {
  jg_consistent : consistent s;
  jg_coords : ∀ w, coords_of s w = coords_of s0 w;
  jg_wires : ∀ w, w ∈ wire_manager.wires s ↔ w ∈ wire_manager.wires s0;
  jg_connected : ∀ A B,
    B ∈ connected_wires s A
    ↔ B ∈ connected_wires s0 A
      ∨ (D A B ∧ A ≠ B ∧ (first_on s0 A B = true ∨ last_on s0 A B = true));
  jg_flags : ∀ B i,
    junction_at s B i = true
    ↔ junction_at s0 B i = true
      ∨ ∃ A, D A B ∧ A ≠ B
             ∧ ((i = 0 ∧ first_on s0 A B = true)
                ∨ (i = QVector.count (coords_of s0 B) - 1
                   ∧ last_on s0 A B = true))
}.

(** The point at index [j] of the wire [B] lies on one of the segments of
    [A]. *)
Definition point_on (s : scene) (A B : WireId) (j : Z) : bool :=
  match QVector.at_ (coords_of s B) j with
  | Some p => Wire.pointIsOnWire containsPoint (wire_of s A) p
  | None => false
  end.

(** A junction of [B] other than the point at [index] lies on [A]. *)
Definition other_junction_touches (s : scene) (A B : WireId) (index : Z)
  : bool :=
  existsb (λ j, bool_decide (j ≠ index) && point_on s A B j)
          (Wire.junctions (wire_of s B)).

(** The move of the point at [index] of [rawWire] detaches [rawWire] from
    the managed wire [W]: the point was a junction, and no other junction of
    [rawWire] lies on [W]. *)
Definition moved_point_detaches (s : scene) (rawWire : WireId) (index : Z)
    (W : WireId) : Prop :=
  W ∈ wire_manager.wires s ∧ W ≠ rawWire
  ∧ junction_at s rawWire index = true
  ∧ other_junction_touches s W rawWire index = false.

(** The move of the point at [index] of [rawWire] attaches [rawWire] to the
    managed wire [W]: the point lies on [W], and [rawWire] does not hold
    [W]. *)
Definition moved_point_attaches (s : scene) (rawWire : WireId) (index : Z)
    (W : WireId) : Prop :=
  W ∈ wire_manager.wires s ∧ W ≠ rawWire
  ∧ point_on s W rawWire index = true
  ∧ W ∉ connected_wires s rawWire.

End touching.

(** The scenes differ in junction flags only. *)
Definition same_but_flags (s s' : scene) : Prop :=
  (∀ w, coords_of s' w = coords_of s w)
  ∧ (∀ w, connected_wires s' w = connected_wires s w)
  ∧ (∀ w, _net (wire_of s' w) = _net (wire_of s w))
  ∧ net_store s' = net_store s
  ∧ _nets s' = _nets s
  ∧ _connections s' = _connections s.

(** ** Scenes of the scenarios *)


(** The wires W1 = (0,0), (100,0) and W2 = (50,0), (50,100), each handed to
    the manager with [addWire]. W1 is wire 0 and W2 is wire 1. *)
Definition two_wire_scene : scene :=
  let '(w1, s) := make_wire [mkPoint 0 0; mkPoint 100 0] empty_scene in
  let '(w2, s) := make_wire [mkPoint 50 0; mkPoint 50 100] s in
  let s := (wire_manager.addWire (Some w1) s).2 in
  (wire_manager.addWire (Some w2) s).2.

(** [two_wire_scene] after a call of [Wire::connectWire] on W1 that the
    manager has not followed with a merge of the nets. *)
Definition linked_across_nets : scene :=
  update_wire 0%nat (λ w, (Wire.connectWire 1%nat w).2) two_wire_scene.

(** [two_wire_scene] after [generateJunctions]. *)
Definition junction_scene : scene :=
  default two_wire_scene
    (wire_manager.generateJunctions line.containsPoint two_wire_scene).

(** Three wires, each handed to the manager with [addWire]; no two of them
    touch. They are the wires 0, 1 and 2. *)
Definition three_wire_scene : scene :=
  let '(w1, s) := make_wire [mkPoint 0 0; mkPoint 100 0] empty_scene in
  let '(w2, s) := make_wire [mkPoint 0 50; mkPoint 100 50] s in
  let '(w3, s) := make_wire [mkPoint 0 90; mkPoint 100 90] s in
  let s := (wire_manager.addWire (Some w1) s).2 in
  let s := (wire_manager.addWire (Some w2) s).2 in
  (wire_manager.addWire (Some w3) s).2.

(** A wire (0,0), (100,0) and a wire that has no points yet, each handed to
    the manager with [addWire]. They are the wires 0 and 1. *)
Definition unfinished_wire_scene : scene :=
  let '(w1, s) := make_wire [mkPoint 0 0; mkPoint 100 0] empty_scene in
  let '(w2, s) := make_wire [] s in
  let s := (wire_manager.addWire (Some w1) s).2 in
  (wire_manager.addWire (Some w2) s).2.

(** * Properties *)

(** ** Containers *)

Lemma at_Some {A} (l : list A) i a :
  QVector.at_ l i = Some a → 0 ≤ i < QVector.count l.
Proof.
  unfold QVector.at_, QVector.count. case_decide; [|done].
  intros Hl%lookup_lt_Some. lia.
Qed.

Lemma at_is_Some {A} (l : list A) i :
  0 ≤ i < QVector.count l → is_Some (QVector.at_ l i).
Proof.
  unfold QVector.at_, QVector.count. intros [??].
  rewrite decide_True by done. apply lookup_lt_is_Some. lia.
Qed.

Lemma at_nat {A} (l : list A) (n : nat) :
  QVector.at_ l (Z.of_nat n) = l !! n.
Proof. unfold QVector.at_. rewrite decide_True by lia. by rewrite Nat2Z.id. Qed.

Lemma at_lookup {A} (l : list A) i :
  0 ≤ i → QVector.at_ l i = l !! Z.to_nat i.
Proof. intros. unfold QVector.at_. by rewrite decide_True. Qed.

Lemma at_neg {A} (l : list A) i : i < 0 → QVector.at_ l i = None.
Proof. unfold QVector.at_. intros. by rewrite decide_False by lia. Qed.


Lemma elem_of_removeAll `{EqDecision A} (a b : A) l :
  b ∈ QVector.removeAll a l ↔ b ∈ l ∧ b ≠ a.
Proof. unfold QVector.removeAll. rewrite list_elem_of_filter. tauto. Qed.

Lemma removeAll_notin `{EqDecision A} (a : A) l :
  a ∉ l → QVector.removeAll a l = l.
Proof.
  unfold QVector.removeAll. induction l as [|b l IH]; [done|].
  intros [Hne Hl]%not_elem_of_cons.
  rewrite filter_cons_True by done. by rewrite IH.
Qed.

Lemma NoDup_removeAll `{EqDecision A} (a : A) l :
  NoDup l → NoDup (QVector.removeAll a l).
Proof. apply NoDup_filter. Qed.

Lemma contains_true `{EqDecision A} (l : list A) a :
  QVector.contains l a = true ↔ a ∈ l.
Proof. unfold QVector.contains. apply bool_decide_eq_true. Qed.

Lemma contains_false `{EqDecision A} (l : list A) a :
  QVector.contains l a = false ↔ a ∉ l.
Proof. unfold QVector.contains. apply bool_decide_eq_false. Qed.

(** ** Points *)

Lemma point_eqb_true a b :
  point.eqb a b = true ↔ point.toPointF a = point.toPointF b.
Proof.
  unfold point.eqb, point.toPointF.
  rewrite andb_true_iff, !bool_decide_eq_true.
  split; [intros [-> ->]; done | intros [= -> ->]; done].
Qed.

(** ** Prepending and appending a point *)

Lemma points_count_set_points pts w :
  Wire.points_count (set_points pts w) = QVector.count pts.
Proof. done. Qed.

Lemma setPointIsJunction_in index b w :
  0 ≤ index < Wire.points_count w →
  Wire.setPointIsJunction index b w =
    set_points (alter (point.setIsJunction b) (Z.to_nat index) (_points w)) w.
Proof.
  intros. unfold Wire.setPointIsJunction.
  by rewrite bool_decide_eq_false_2 by lia.
Qed.

Lemma setPointIsJunction_out index b w :
  index < 0 ∨ Wire.points_count w ≤ index →
  Wire.setPointIsJunction index b w = w.
Proof.
  intros. unfold Wire.setPointIsJunction.
  by rewrite bool_decide_eq_true_2 by lia.
Qed.

Lemma points_count_setPointIsJunction index b w :
  Wire.points_count (Wire.setPointIsJunction index b w) = Wire.points_count w.
Proof.
  unfold Wire.setPointIsJunction. case_bool_decide; [done|].
  unfold Wire.points_count, QVector.count; simpl. by rewrite length_alter.
Qed.

(** [prependPoint] on a wire that has at least one point: the new first
    point takes the junction flag of the old first point, which loses it. *)
Lemma prependPoint_transfer p q rest w :
  _points w = q :: rest →
  Wire.prependPoint p w =
    Some (set_points (mkWirePoint (px p) (py p) (isJunction q)
                      :: point.setIsJunction false q :: rest) w).
Proof.
  intros Hw. unfold Wire.prependPoint. rewrite Hw.
  set (w1 := set_points _ w).
  assert (Hc : Wire.points_count w1 = Z.of_nat (length rest) + 2).
  { unfold w1, Wire.points_count, QVector.count; simpl. lia. }
  rewrite bool_decide_eq_true_2 by lia. simpl.
  rewrite (setPointIsJunction_in 1)
    by (rewrite points_count_setPointIsJunction; lia).
  rewrite (setPointIsJunction_in 0) by lia.
  done.
Qed.

Lemma prependPoint_empty p w :
  _points w = [] →
  Wire.prependPoint p w = Some (set_points [point.of_QPointF p] w).
Proof. intros Hw. unfold Wire.prependPoint. by rewrite Hw. Qed.

(** [appendPoint] on a wire that has at least two points: the new last point
    takes the junction flag of the old last point, which loses it. *)
Lemma appendPoint_transfer p q init w :
  _points w = init ++ [q] → init ≠ [] →
  Wire.appendPoint p w =
    Some (set_points (init ++ [point.setIsJunction false q;
                               mkWirePoint (px p) (py p) (isJunction q)]) w).
Proof.
  intros Hw Hinit. unfold Wire.appendPoint. rewrite Hw.
  assert (Hlen : (0 < length init)%nat) by (destruct init; [done | simpl; lia]).
  cbv zeta. rewrite <- !app_assoc. simpl app.
  assert (Hc : Wire.points_count
                 (set_points (init ++ [q; point.of_QPointF p]) w)
               = Z.of_nat (length init) + 2).
  { unfold Wire.points_count, QVector.count; simpl.
    rewrite length_app. simpl. lia. }
  rewrite bool_decide_eq_true_2 by lia. rewrite !Hc.
  replace (Z.of_nat (length init) + 2 - 2) with (Z.of_nat (length init)) by lia.
  rewrite at_nat. simpl _points.
  rewrite list_lookup_middle by done. simpl.
  rewrite points_count_setPointIsJunction, Hc.
  rewrite (setPointIsJunction_in (_ - 2))
    by (rewrite points_count_setPointIsJunction; lia).
  rewrite (setPointIsJunction_in (_ - 1)) by lia.
  unfold set_points; simpl. do 2 f_equal.
  replace (Z.to_nat (Z.of_nat (length init) + 2 - 1)) with (S (length init)) by lia.
  replace (Z.to_nat (Z.of_nat (length init) + 2 - 2)) with (length init) by lia.
  rewrite !alter_app_r_alt by lia.
  replace (S (length init) - length init)%nat with 1%nat by lia.
  rewrite Nat.sub_diag. done.
Qed.

(** [appendPoint] on a wire with fewer than two points transfers nothing. *)
Lemma appendPoint_short p w :
  (length (_points w) < 2)%nat →
  Wire.appendPoint p w = Some (set_points (_points w ++ [point.of_QPointF p]) w).
Proof.
  intros Hw. unfold Wire.appendPoint.
  rewrite bool_decide_eq_false_2; [done|].
  rewrite points_count_set_points. unfold QVector.count.
  rewrite length_app. simpl. lia.
Qed.

(** C8 (failing input): [prependPoint] on a wire with a single point moves
    the junction flag of that point to the new first point, where
    [appendPoint] and the specification transfer nothing below two points. *)
Theorem prependPoint_single_point_moves_flag p q conn n ps :
  Wire.prependPoint p (mkWire [q] conn n ps) =
    Some (mkWire [mkWirePoint (px p) (py p) (isJunction q);
                  point.setIsJunction false q] conn n ps)
  ∧ Wire.appendPoint p (mkWire [q] conn n ps) =
    Some (mkWire [q; point.of_QPointF p] conn n ps).
Proof.
  split.
  - by rewrite (prependPoint_transfer p q []).
  - by rewrite appendPoint_short by (simpl; lia).
Qed.

(** ** Inserting a point *)

Section insertPoint.
Variable containsPoint : Line → QPointF → Z → bool.
Variable default_tolerance : Z.
Variable snapToGrid : QPointF → QPointF.
Variable pointOnLineClosestToPoint : QPointF → QPointF → QPointF → QPointF.
Variable move_junctions_to_new_segment : WireId → Line → Line → scene → scene.

Let insertPoint :=
  Wire.insertPoint containsPoint default_tolerance snapToGrid
    pointOnLineClosestToPoint move_junctions_to_new_segment.

(** Below the first index and from the length on, [insertPoint] returns at
    its boundary check and leaves the scene as it is. *)
Lemma insertPoint_out_of_range this index p s :
  index < 0 ∨ Wire.points_count (wire_of s this) ≤ index →
  insertPoint this index p s = Some s.
Proof.
  intros H. unfold insertPoint, Wire.insertPoint.
  rewrite bool_decide_eq_true_2; [done | lia].
Qed.

(** C6 (failing input): index [0] passes the boundary check of [insertPoint]
    on every wire that has a point, and the segment at index [-1] is read:
    the call faults instead of returning without effect. *)
Theorem insertPoint_index_0_faults this p s :
  insertPoint this 0 p s =
    if bool_decide (Wire.points_count (wire_of s this) ≤ 0) then Some s
    else None.
Proof.
  unfold insertPoint, Wire.insertPoint. case_bool_decide as Hc.
  - rewrite bool_decide_eq_true_2; [done | lia].
  - rewrite bool_decide_eq_false_2 by lia.
    by rewrite at_neg by lia.
Qed.

End insertPoint.


(** ** Simplifying a wire *)

Lemma at_wirePointsRelative w i :
  QVector.at_ (Wire.wirePointsRelative w) i
  = relative_of w <$> QVector.at_ (_points w) i.
Proof.
  unfold QVector.at_, Wire.wirePointsRelative. case_decide; [|done].
  by rewrite list_lookup_fmap.
Qed.

Lemma eqb_relative_of w a b :
  point.eqb (relative_of w a) (relative_of w b) = point.eqb a b.
Proof.
  unfold point.eqb, relative_of; simpl.
  apply eq_true_iff_eq. rewrite !andb_true_iff, !bool_decide_eq_true. lia.
Qed.

Lemma points_count_removeAt i w :
  0 ≤ i < Wire.points_count w →
  Wire.points_count (set_points (QVector.removeAt i (_points w)) w)
  = Wire.points_count w - 1.
Proof.
  unfold Wire.points_count, QVector.count, QVector.removeAt; simpl. intros.
  rewrite length_delete by (apply lookup_lt_is_Some; lia). lia.
Qed.

Lemma pointsAbsolute_lookup w (j : nat) :
  Wire.pointsAbsolute w !! j = point.toPointF <$> _points w !! j.
Proof. unfold Wire.pointsAbsolute. by rewrite list_lookup_fmap. Qed.

Lemma toPointF_setPointIsJunction index b w :
  Wire.pointsAbsolute (Wire.setPointIsJunction index b w)
  = Wire.pointsAbsolute w.
Proof.
  unfold Wire.setPointIsJunction. case_bool_decide; [done|].
  unfold Wire.pointsAbsolute; simpl.
  apply list_eq. intros j. rewrite !list_lookup_fmap.
  destruct (decide (j = Z.to_nat index)) as [->|Hne].
  - rewrite list_lookup_alter_eq. by destruct (_ !! _).
  - by rewrite list_lookup_alter_ne.
Qed.

Section simplify.
Variable pointIsOnLine : Line → QPointF → bool.

Lemma removeDuplicatePoints_loop_unfold fuel i w :
  Wire.removeDuplicatePoints_loop fuel i w =
  if bool_decide (i < Wire.points_count w - 1 ∧ Wire.points_count w > 2) then
    match fuel with
    | O => None
    | S fuel =>
      a ← QVector.at_ (Wire.wirePointsRelative w) i;
      b ← QVector.at_ (Wire.wirePointsRelative w) (i + 1);
      if point.eqb a b then
        let w := if negb (isJunction a)
                 then Wire.setPointIsJunction i (isJunction b) w else w in
        Wire.removeDuplicatePoints_loop fuel i
          (set_points (QVector.removeAt (i + 1) (_points w)) w)
      else Wire.removeDuplicatePoints_loop fuel (i + 1) w
    end
  else Some w.
Proof. by destruct fuel. Qed.

Lemma removeObsoletePoints_loop_unfold fuel it w :
  Wire.removeObsoletePoints_loop pointIsOnLine fuel it w =
  if bool_decide (it ≠ Wire.points_count w) then
    match fuel with
    | O => None
    | S fuel =>
      a ← QVector.at_ (_points w) (it - 2);
      b ← QVector.at_ (_points w) (it - 1);
      c ← QVector.at_ (_points w) it;
      if pointIsOnLine (mkLine (point.toPointF a) (point.toPointF b))
                       (point.toPointF c)
      then Wire.removeObsoletePoints_loop pointIsOnLine fuel (it - 1 + 1)
             (set_points (QVector.removeAt (it - 1) (_points w)) w)
      else Wire.removeObsoletePoints_loop pointIsOnLine fuel (it + 1) w
    end
  else Some w.
Proof. by destruct fuel. Qed.

Lemma removeDuplicatePoints_loop_spec fuel : ∀ i w,
  0 ≤ i → Wire.points_count w - i ≤ Z.of_nat fuel → scanned i w →
  ∃ w', Wire.removeDuplicatePoints_loop fuel i w = Some w'
        ∧ Wire.points_count w' ≤ Wire.points_count w
        ∧ (2 ≤ Wire.points_count w → 2 ≤ Wire.points_count w')
        ∧ settled w'.
Proof.
  induction fuel as [|fuel IH]; intros i w Hi Hfuel Hsc.
  - exists w. rewrite removeDuplicatePoints_loop_unfold.
    rewrite bool_decide_eq_false_2 by lia.
    repeat split; [lia|done|].
    destruct (decide (Wire.points_count w ≤ 2)); [by left|right].
    intros j p q Hp Hq. apply (Hsc j p q); [|done|done].
    apply lookup_lt_Some in Hq. unfold Wire.pointsAbsolute in Hq.
    rewrite length_fmap in Hq.
    unfold Wire.points_count, QVector.count in *. lia.
  - rewrite removeDuplicatePoints_loop_unfold. case_bool_decide as Hcond.
    + destruct Hcond as [Hlt Hgt].
      rewrite !at_wirePointsRelative.
      destruct (at_is_Some (_points w) i) as [a Ha];
        [unfold Wire.points_count in *; lia|].
      destruct (at_is_Some (_points w) (i + 1)) as [b Hb];
        [unfold Wire.points_count in *; lia|].
      rewrite Ha, Hb. simpl. rewrite eqb_relative_of.
      destruct (point.eqb a b) eqn:Heq.
      * set (w1 := if negb (isJunction a)
                   then Wire.setPointIsJunction i (isJunction b) w else w).
        assert (Hc1 : Wire.points_count w1 = Wire.points_count w).
        { unfold w1. destruct (negb _);
            [apply points_count_setPointIsJunction | done]. }
        assert (Ha1 : Wire.pointsAbsolute w1 = Wire.pointsAbsolute w).
        { unfold w1. destruct (negb _);
            [apply toPointF_setPointIsJunction | done]. }
        destruct (IH i (set_points (QVector.removeAt (i + 1) (_points w1)) w1))
          as (w' & Hw' & Hle & Hge & Hset).
        { done. }
        { rewrite points_count_removeAt by lia. lia. }
        { intros j p q Hj Hp Hq. apply (Hsc j p q Hj).
          - rewrite <- Ha1. revert Hp.
            unfold Wire.pointsAbsolute, QVector.removeAt; simpl.
            rewrite !list_lookup_fmap, list_lookup_delete_lt by lia. done.
          - rewrite <- Ha1. revert Hq.
            unfold Wire.pointsAbsolute, QVector.removeAt; simpl.
            rewrite !list_lookup_fmap, list_lookup_delete_lt by lia. done. }
        exists w'. rewrite points_count_removeAt in Hle, Hge by lia.
        repeat split; [done|lia| |done]. intros _. apply Hge. lia.
      * destruct (IH (i + 1) w) as (w' & Hw' & Hle & Hge & Hset);
          [lia|lia| |by exists w'].
        intros j p q Hj Hp Hq.
        destruct (decide (Z.of_nat j < i)) as [Hlt'|Hge']; [by eapply Hsc|].
        assert (j = Z.to_nat i) as -> by lia.
        rewrite pointsAbsolute_lookup in Hp, Hq.
        rewrite at_lookup in Ha, Hb by lia.
        replace (Z.to_nat (i + 1)) with (S (Z.to_nat i)) in Hb by lia.
        rewrite Ha in Hp. rewrite Hb in Hq. simplify_eq/=.
        intros Habs. apply point_eqb_true in Habs. congruence.
    + exists w. repeat split; [lia|done|].
      destruct (decide (Wire.points_count w ≤ 2)); [by left|right].
      intros j p q Hp Hq. apply (Hsc j p q); [|done|done].
      apply lookup_lt_Some in Hq. unfold Wire.pointsAbsolute in Hq.
      rewrite length_fmap in Hq.
      unfold Wire.points_count, QVector.count in *. lia.
Qed.

Lemma removeDuplicatePoints_loop_settled fuel : ∀ i w,
  0 ≤ i → Wire.points_count w - i ≤ Z.of_nat fuel → settled w →
  Wire.removeDuplicatePoints_loop fuel i w = Some w.
Proof.
  induction fuel as [|fuel IH]; intros i w Hi Hfuel Hset.
  - rewrite removeDuplicatePoints_loop_unfold.
    by rewrite bool_decide_eq_false_2 by lia.
  - rewrite removeDuplicatePoints_loop_unfold.
    case_bool_decide as Hcond; [|done].
    destruct Hcond as [Hlt Hgt].
    destruct Hset as [?|Hnd]; [lia|].
    rewrite !at_wirePointsRelative.
    destruct (at_is_Some (_points w) i) as [a Ha];
      [unfold Wire.points_count in *; lia|].
    destruct (at_is_Some (_points w) (i + 1)) as [b Hb];
      [unfold Wire.points_count in *; lia|].
    rewrite Ha, Hb. simpl. rewrite eqb_relative_of.
    destruct (point.eqb a b) eqn:Heq.
    + exfalso. apply point_eqb_true in Heq.
      rewrite at_lookup in Ha, Hb by lia.
      replace (Z.to_nat (i + 1)) with (S (Z.to_nat i)) in Hb by lia.
      apply (Hnd (Z.to_nat i) (point.toPointF a) (point.toPointF b));
        [| |done]; rewrite pointsAbsolute_lookup.
      * by rewrite Ha.
      * by rewrite Hb.
    + apply IH; [lia|lia|by right].
Qed.

Lemma removeDuplicatePoints_spec w :
  ∃ w', Wire.removeDuplicatePoints w = Some w'
        ∧ Wire.points_count w' ≤ Wire.points_count w
        ∧ (2 ≤ Wire.points_count w → 2 ≤ Wire.points_count w')
        ∧ settled w'.
Proof.
  apply removeDuplicatePoints_loop_spec; [done| |].
  - unfold Wire.points_count, QVector.count. lia.
  - intros j a b Hj. lia.
Qed.

(** A second run of [removeDuplicatePoints] changes nothing. *)
Lemma removeDuplicatePoints_idempotent w w' :
  Wire.removeDuplicatePoints w = Some w' →
  Wire.removeDuplicatePoints w' = Some w'.
Proof.
  intros Hw. destruct (removeDuplicatePoints_spec w) as (w1 & Hw1 & _ & _ & Hs).
  rewrite Hw in Hw1. injection Hw1 as <-.
  apply removeDuplicatePoints_loop_settled; [done| |done].
  unfold Wire.points_count, QVector.count. lia.
Qed.

Lemma removeObsoletePoints_loop_spec fuel : ∀ it w,
  2 ≤ it ≤ Wire.points_count w →
  Wire.points_count w - it ≤ Z.of_nat fuel →
  ∃ w', Wire.removeObsoletePoints_loop pointIsOnLine fuel it w = Some w'
        ∧ 2 ≤ Wire.points_count w' ≤ Wire.points_count w.
Proof.
  induction fuel as [|fuel IH]; intros it w Hit Hfuel.
  - exists w. rewrite removeObsoletePoints_loop_unfold.
    rewrite bool_decide_eq_false_2 by lia. split; [done|lia].
  - rewrite removeObsoletePoints_loop_unfold.
    case_bool_decide as Hcond; [|exists w; split; [done|lia]].
    destruct (at_is_Some (_points w) (it - 2)) as [a Ha];
      [unfold Wire.points_count in *; lia|].
    destruct (at_is_Some (_points w) (it - 1)) as [b Hb];
      [unfold Wire.points_count in *; lia|].
    destruct (at_is_Some (_points w) it) as [c Hc];
      [unfold Wire.points_count in *; lia|].
    rewrite Ha, Hb, Hc. simpl.
    destruct (pointIsOnLine _ _).
    + destruct (IH (it - 1 + 1)
                  (set_points (QVector.removeAt (it - 1) (_points w)) w))
        as (w' & Hw' & Hb1 & Hb2).
      { rewrite points_count_removeAt by lia. lia. }
      { rewrite points_count_removeAt by lia. lia. }
      exists w'. rewrite points_count_removeAt in Hb2 by lia.
      split; [done|lia].
    + destruct (IH (it + 1) w) as (w' & Hw' & Hb1 & Hb2); [lia|lia|].
      exists w'. split; [done|lia].
Qed.

Lemma removeObsoletePoints_spec w :
  ∃ w', Wire.removeObsoletePoints pointIsOnLine w = Some w'
        ∧ Wire.points_count w' ≤ Wire.points_count w
        ∧ (2 ≤ Wire.points_count w → 2 ≤ Wire.points_count w').
Proof.
  unfold Wire.removeObsoletePoints. case_bool_decide as Hc.
  - exists w. split; [done|]. split; [lia|done].
  - destruct (removeObsoletePoints_loop_spec (length (_points w)) 2 w)
      as (w' & Hw' & Hb1 & Hb2); [lia| |].
    + unfold Wire.points_count, QVector.count. lia.
    + exists w'. split; [done|]. split; [lia|]. intros _. lia.
Qed.

(** C5 (amended): [simplify] always returns, never adds a point and never
    takes a wire that has two points or more below two points; and when its
    pass over collinear points removes nothing (the result is the result of
    [removeDuplicatePoints]), a second [simplify] changes nothing. *)
Theorem simplify_keeps_two_points w :
  ∃ w', Wire.simplify pointIsOnLine w = Some w'
        ∧ Wire.points_count w' ≤ Wire.points_count w
        ∧ (2 ≤ Wire.points_count w → 2 ≤ Wire.points_count w')
        ∧ (Wire.removeDuplicatePoints w = Some w' →
           Wire.simplify pointIsOnLine w' = Some w').
Proof.
  unfold Wire.simplify.
  destruct (removeDuplicatePoints_spec w) as (w1 & Hw1 & Hle1 & Hge1 & Hs1).
  destruct (removeObsoletePoints_spec w1) as (w2 & Hw2 & Hle2 & Hge2).
  exists w2. rewrite Hw1. simpl. split; [done|]. split; [lia|].
  split; [intros; apply Hge2, Hge1; done|].
  intros [= ->].
  rewrite (removeDuplicatePoints_idempotent w w2 Hw1). simpl. done.
Qed.

End simplify.

(** C5 (counterexample): on the wire (0,10), (0,0), (10,0), (0,0) the first
    [simplify] removes the spike (10,0) and leaves (0,0) twice in a row; the
    second [simplify] removes one of the two. *)
Lemma simplify_not_idempotent :
  ¬ (∀ w w', Wire.simplify line.pointIsOnLine w = Some w' →
             Wire.simplify line.pointIsOnLine w' = Some w').
Proof.
  intros H.
  specialize (H (mkWire [mkWirePoint 0 10 false; mkWirePoint 0 0 false;
                         mkWirePoint 10 0 false; mkWirePoint 0 0 false]
                   [] None (mkPoint 0 0))
                (mkWire [mkWirePoint 0 10 false; mkWirePoint 0 0 false;
                         mkWirePoint 0 0 false]
                   [] None (mkPoint 0 0))).
  specialize (H eq_refl). vm_compute in H. discriminate H.
Qed.


(** ** The global net of a net *)

Lemma string_compare_refl (a : string) : String.compare a a = Eq.
Proof.
  induction a as [|c a IH]; simpl; [done|].
  unfold Ascii.compare. by rewrite N.compare_refl.
Qed.

Lemma compare_CaseInsensitive_0 a b :
  QString.compare_CaseInsensitive a b = 0
  ↔ QString.toCaseFolded a = QString.toCaseFolded b.
Proof.
  unfold QString.compare_CaseInsensitive. split.
  - destruct (String.compare _ _) eqn:Hc; [|done|done].
    intros _. by apply String.compare_eq_iff.
  - intros ->. by rewrite string_compare_refl.
Qed.

Lemma isEmpty_true a : QString.isEmpty a = true ↔ a = "".
Proof. unfold QString.isEmpty. apply bool_decide_eq_true. Qed.

Lemma nets_of_loop_filter s N todo : ∀ result,
  wire_manager.nets_of_loop s (Some N) todo result
  = Some (result ++ filter (same_global_net s N) todo).
Proof.
  induction todo as [|n todo IH]; intros result; simpl.
  - by rewrite app_nil_r.
  - destruct (QString.isEmpty (WireNet.name s n)) eqn:He.
    + apply isEmpty_true in He.
      rewrite filter_cons_False by (intros [? _]; done). apply IH.
    + assert (WireNet.name s n ≠ "") as Hne.
      { intros Habs. apply isEmpty_true in Habs. congruence. }
      simpl. case_bool_decide as Hc.
      * apply compare_CaseInsensitive_0 in Hc.
        rewrite filter_cons_True by done.
        rewrite IH. by rewrite <- app_assoc.
      * rewrite filter_cons_False; [apply IH|].
        intros [_ Hf]. by apply Hc, compare_CaseInsensitive_0.
Qed.

(** C10: [nets(N)] returns, in the order of the manager's list, exactly the
    managed nets whose name is not empty and equals the name of [N] up to
    case; a net without a name is never returned, not even for itself or
    for another net without a name. *)
Theorem nets_of_is_the_global_net s N :
  wire_manager.nets_of (Some N) s
  = Some (filter (same_global_net s N) (_nets s))
  ∧ ∀ l n, wire_manager.nets_of (Some N) s = Some l →
      (n ∈ l ↔ n ∈ _nets s
               ∧ WireNet.name s n ≠ ""
               ∧ QString.toCaseFolded (WireNet.name s n)
                 = QString.toCaseFolded (WireNet.name s N))
      ∧ (WireNet.name s n = "" → n ∉ l).
Proof.
  assert (Hn : wire_manager.nets_of (Some N) s
               = Some (filter (same_global_net s N) (_nets s))).
  { unfold wire_manager.nets_of. by rewrite nets_of_loop_filter. }
  split; [done|]. intros l n. rewrite Hn. intros [= <-].
  rewrite list_elem_of_filter. unfold same_global_net. split; [tauto|].
  intros He [[Hne _] _]. done.
Qed.

(** ** The attachment table *)

(** C9: once a connector has an attachment, a call of
    [attachWireToConnector] with it, whatever the wire and the index and
    through either overload, returns the scene it was given: the table and
    the signal connections are as before. *)
Theorem attachWireToConnector_attached_noop s c :
  is_Some (_connections s !! c) →
  (∀ wire index,
     wire_manager.attachWireToConnector wire index (Some c) s = s)
  ∧ (∀ scenePos w s',
       wire_manager.attachWireToConnector_at_end scenePos w c s = Some s' →
       s' = s).
Proof.
  intros Hc.
  assert (H3 : ∀ wire index,
             wire_manager.attachWireToConnector wire index (Some c) s = s).
  { intros [w|] index; simpl; [|done].
    case_bool_decide; [done|]. by rewrite bool_decide_eq_true_2. }
  split; [done|].
  intros scenePos w s'. unfold wire_manager.attachWireToConnector_at_end.
  rewrite !H3.
  destruct (QVector.first _); simpl; [|done].
  case_decide; [congruence|].
  destruct (QVector.last _); simpl; [|done].
  case_decide; congruence.
Qed.

Lemma attachWireToConnector_attached_noop_witness :
  let s := wire_manager.attachWireToConnector (Some 0%nat) 1 (Some 7%nat)
             (make_wire [mkPoint 0 0; mkPoint 10 0] empty_scene).2 in
  is_Some (_connections s !! 7%nat)
  ∧ wire_manager.attachWireToConnector (Some 0%nat) 0 (Some 7%nat) s = s.
Proof.
  intros s.
  assert (Hc : is_Some (_connections s !! 7%nat)) by (vm_compute; eauto).
  split; [exact Hc|].
  exact (proj1 (attachWireToConnector_attached_noop s 7%nat Hc) (Some 0%nat) 0).
Defined.


(** ** Attachment indices under insertion and removal of points *)

Lemma set_connections_id s : set_connections (_connections s) s = s.
Proof. by destruct s. Qed.

Lemma set_connections_twice m m' s :
  set_connections m (set_connections m' s) = set_connections m s.
Proof. done. Qed.

Lemma foldl_alter_lookup {V} (g : V → V) (ks : list nat) : ∀ (m : gmap nat V) k,
  NoDup ks →
  foldl (λ m k, alter g k m) m ks !! k
  = if decide (k ∈ ks) then g <$> m !! k else m !! k.
Proof.
  induction ks as [|k0 ks IH]; intros m k Hnd.
  - case_decide as Hk; [by apply elem_of_nil in Hk | done].
  - apply NoDup_cons in Hnd as [Hk0 Hnd]. cbn [foldl]. rewrite IH by done.
    destruct (decide (k = k0)) as [->|Hne].
    + rewrite (decide_False _ _ Hk0).
      case_decide as Hk; [|exfalso; apply Hk; left].
      by rewrite lookup_alter_eq.
    + rewrite lookup_alter_ne by done.
      destruct (decide (k ∈ ks)) as [Hin|Hnin].
      * case_decide as Hk; [done|]. exfalso. apply Hk. by right.
      * case_decide as Hk; [|done].
        apply elem_of_cons in Hk as [?|?]; done.
Qed.

Lemma foldl_alter_keys {V} (g : V → V) (m : gmap nat V) :
  foldl (λ m k, alter g k m) m (map_to_list m).*1 = g <$> m.
Proof.
  apply map_eq. intros k.
  rewrite foldl_alter_lookup by apply NoDup_fst_map_to_list.
  rewrite lookup_fmap. case_decide as Hk; [done|].
  destruct (m !! k) as [v|] eqn:Hm; [|done].
  exfalso. apply Hk. apply list_elem_of_fmap. exists (k, v).
  split; [done|]. by apply elem_of_map_to_list.
Qed.

Lemma foldl_scene_connections (step : scene → nat → scene) (g : WireId * Z → WireId * Z)
    (ks : list nat) : ∀ s,
  (∀ m k, step (set_connections m s) k
          = set_connections (alter g k m) s) →
  foldl step s ks
  = set_connections (foldl (λ m k, alter g k m) (_connections s) ks) s.
Proof.
  intros s Hstep. rewrite <- (set_connections_id s) at 1.
  generalize (_connections s) as m.
  induction ks as [|k ks IH]; intros m; simpl; [done|].
  rewrite Hstep. apply IH.
Qed.

Lemma alter_as_insert {V} (g : V → V) (m : gmap nat V) k v :
  m !! k = Some v → <[k := g v]> m = alter g k m.
Proof.
  intros Hm. apply map_eq. intros j.
  destruct (decide (j = k)) as [->|Hne].
  - by rewrite lookup_insert_eq, lookup_alter_eq, Hm.
  - by rewrite lookup_insert_ne, lookup_alter_ne.
Qed.

Lemma shift_inserted_other wire index count v :
  v.1 ≠ wire → shift_inserted wire index count v = v.
Proof. intros. unfold shift_inserted. by rewrite bool_decide_eq_true_2. Qed.

Lemma shift_inserted_first wire index count v :
  v.2 = 0 → shift_inserted wire index count v = v.
Proof.
  intros. unfold shift_inserted. case_bool_decide; [done|].
  by rewrite bool_decide_eq_true_2.
Qed.

Lemma shift_inserted_this wire index count v :
  v.1 = wire → v.2 ≠ 0 →
  shift_inserted wire index count v
  = if bool_decide (v.2 >= index ∨ v.2 = count - 2)
    then (v.1, v.2 + 1) else v.
Proof.
  intros ? ?. unfold shift_inserted.
  rewrite bool_decide_eq_false_2 by (intros Hn; by apply Hn).
  by rewrite bool_decide_eq_false_2.
Qed.

(** [point_inserted] applies [shift_inserted] to every entry of the table. *)
Lemma point_inserted_fmap wire index s :
  wire_manager.point_inserted wire index s
  = set_connections
      (shift_inserted wire index (Wire.points_count (wire_of s wire))
         <$> _connections s) s.
Proof.
  unfold wire_manager.point_inserted, wire_manager.keys.
  rewrite <- foldl_alter_keys.
  apply foldl_scene_connections. intros m k. simpl.
  destruct (m !! k) as [v|] eqn:Hm.
  - unfold wire_of; simpl. fold (wire_of s wire).
    case_bool_decide as H1.
    { rewrite alter_id; [done|]. intros v' Hv'. simplify_eq.
      by apply shift_inserted_other. }
    case_bool_decide as H2.
    { rewrite alter_id; [done|]. intros v' Hv'. simplify_eq.
      by apply shift_inserted_first. }
    rewrite set_connections_twice. f_equal.
    rewrite <- (alter_as_insert _ _ _ v Hm). f_equal.
    rewrite shift_inserted_this; [done| |done].
    by destruct (decide (v.1 = wire)).
  - by rewrite alter_id' by done.
Qed.

Lemma shift_removed_other wire index v :
  v.1 ≠ wire → shift_removed wire index v = v.
Proof. intros. unfold shift_removed. by rewrite bool_decide_eq_true_2. Qed.

Lemma shift_removed_this wire index v :
  v.1 = wire →
  shift_removed wire index v
  = if bool_decide (v.2 >= index) then (v.1, v.2 - 1) else v.
Proof.
  intros ?. unfold shift_removed.
  by rewrite bool_decide_eq_false_2 by (intros Hn; by apply Hn).
Qed.

(** [pointRemoved] applies [shift_removed] to every entry of the table. *)
Lemma pointRemoved_fmap wire index s :
  wire_manager.pointRemoved wire index s
  = set_connections (shift_removed wire index <$> _connections s) s.
Proof.
  unfold wire_manager.pointRemoved, wire_manager.keys.
  rewrite <- foldl_alter_keys.
  apply foldl_scene_connections. intros m k. simpl.
  destruct (m !! k) as [v|] eqn:Hm.
  - case_bool_decide as H1.
    { rewrite alter_id; [done|]. intros v' Hv'. simplify_eq.
      by apply shift_removed_other. }
    rewrite set_connections_twice. f_equal.
    rewrite <- (alter_as_insert _ _ _ v Hm). f_equal.
    rewrite shift_removed_this; [done|].
    by destruct (decide (v.1 = wire)).
  - by rewrite alter_id' by done.
Qed.

Lemma wire_of_update_wire_eq w f s :
  wire_of (update_wire w f s) w = f (wire_of s w).
Proof. unfold wire_of, update_wire; simpl. by rewrite lookup_total_insert_eq. Qed.

Lemma wire_of_update_wire_ne w w' f s :
  w ≠ w' → wire_of (update_wire w f s) w' = wire_of s w'.
Proof.
  intros. unfold wire_of, update_wire; simpl.
  by rewrite lookup_total_insert_ne.
Qed.







(** ** Reading the scene after an update *)

Lemma wire_of_update_wire w f s w' :
  wire_of (update_wire w f s) w'
  = if decide (w = w') then f (wire_of s w) else wire_of s w'.
Proof.
  case_decide as H; [subst; apply wire_of_update_wire_eq|].
  by apply wire_of_update_wire_ne.
Qed.

Lemma net_of_update_wire w f s n : net_of (update_wire w f s) n = net_of s n.
Proof. done. Qed.

Lemma net_of_update_net n f s n' :
  net_of (update_net n f s) n'
  = if decide (n = n') then f (net_of s n) else net_of s n'.
Proof.
  unfold net_of, update_net; simpl. case_decide; [subst|].
  - by rewrite lookup_total_insert_eq.
  - by rewrite lookup_total_insert_ne.
Qed.

Lemma wire_of_update_net n f s w : wire_of (update_net n f s) w = wire_of s w.
Proof. done. Qed.

Lemma wire_of_addWire n w s w' :
  wire_of (WireNet.addWire n w s) w'
  = if decide (w = w') then setNet (Some n) (wire_of s w) else wire_of s w'.
Proof. unfold WireNet.addWire. by rewrite wire_of_update_wire. Qed.

Lemma net_of_addWire n w s n' :
  net_of (WireNet.addWire n w s) n'
  = if decide (n = n') then set_wires (_wires (net_of s n) ++ [w]) (net_of s n)
    else net_of s n'.
Proof.
  unfold WireNet.addWire. by rewrite net_of_update_wire, net_of_update_net.
Qed.

Lemma wire_of_removeWire n w s w' :
  wire_of (WireNet.removeWire n w s) w' = wire_of s w'.
Proof. done. Qed.

Lemma net_of_removeWire n w s n' :
  net_of (WireNet.removeWire n w s) n'
  = if decide (n = n')
    then set_wires (QVector.removeAll w (_wires (net_of s n))) (net_of s n)
    else net_of s n'.
Proof. unfold WireNet.removeWire. by rewrite net_of_update_net. Qed.

Lemma elem_of_concat {A} (x : A) (ls : list (list A)) :
  x ∈ concat ls ↔ ∃ l, l ∈ ls ∧ x ∈ l.
Proof.
  induction ls as [|l ls IH]; simpl.
  - split; [by intros ?%elem_of_nil | by intros (? & ?%elem_of_nil & _)].
  - rewrite elem_of_app, IH. split.
    + intros [H | (l' & Hl' & Hx)]; [exists l; split; [left|done] |].
      exists l'. split; [by right | done].
    + intros (l' & [->|Hl']%elem_of_cons & Hx); [by left|].
      right. by exists l'.
Qed.

Lemma elem_of_wires s w :
  w ∈ wire_manager.wires s ↔ ∃ n, n ∈ _nets s ∧ w ∈ WireNet.wires s n.
Proof.
  unfold wire_manager.wires. rewrite elem_of_concat. split.
  - intros (l & Hl & Hw). apply list_elem_of_fmap in Hl as (n & -> & Hn).
    by exists n.
  - intros (n & Hn & Hw). exists (WireNet.wires s n). split; [|done].
    apply list_elem_of_fmap. by exists n.
Qed.

(** ** Reachability over a relation that gains or loses one edge *)

Section edge.
Context {A : Type} (R R' : relation A) (a b : A).

Lemma rtc_split_edge :
  (∀ u v, R u v → R' u v ∨ (u = a ∧ v = b) ∨ (u = b ∧ v = a)) →
  ∀ u v, rtc R u v →
    rtc R' u v ∨ (rtc R' u a ∧ rtc R' b v) ∨ (rtc R' u b ∧ rtc R' a v).
Proof.
  intros HR u v Huv. induction Huv as [u | u w v Huw _ IH]; [by left|].
  destruct (HR _ _ Huw) as [Hs | [[-> ->] | [-> ->]]].
  - destruct IH as [IH | [[IH1 IH2] | [IH1 IH2]]].
    + left. by eapply rtc_l.
    + right; left. split; [by eapply rtc_l | done].
    + right; right. split; [by eapply rtc_l | done].
  - destruct IH as [IH | [[IH1 IH2] | [IH1 IH2]]].
    + right; left. by split.
    + right; left. by split.
    + left. done.
  - destruct IH as [IH | [[IH1 IH2] | [IH1 IH2]]].
    + right; right. by split.
    + left. done.
    + right; right. by split.
Qed.

Lemma rtc_sub : (∀ u v, R' u v → R u v) → ∀ u v, rtc R' u v → rtc R u v.
Proof.
  intros HR u v Huv. induction Huv as [|u w v Huw _ IH]; [done|].
  eapply rtc_l; [by apply HR | done].
Qed.

End edge.

Lemma rtc_symmetric {A} (R : relation A) :
  (∀ u v, R u v → R v u) → ∀ u v, rtc R u v → rtc R v u.
Proof.
  intros Hs u v Huv. induction Huv as [|u w v Huw _ IH]; [done|].
  eapply rtc_r; [done | by apply Hs].
Qed.

Lemma linked_sym s a b : linked s a b → linked s b a.
Proof. unfold linked. tauto. Qed.

Lemma reachable_sym s a b : reachable s a b → reachable s b a.
Proof. apply rtc_symmetric, linked_sym. Qed.

Lemma reachable_trans s a b c :
  reachable s a b → reachable s b c → reachable s a c.
Proof. intros. by etrans. Qed.

Lemma closure_within_reachable s cands w x :
  closure_within s cands w x → reachable s w x.
Proof.
  induction 1 as [|a b _ IH Hb Hl]; [done|]. by eapply rtc_r.
Qed.

(** Where every wire reachable from [w] is a candidate, the closure within
    the candidates is the whole component of [w]. *)
Lemma reachable_closure_within s cands w :
  (∀ x, reachable s w x → x ∈ cands) →
  ∀ x, reachable s w x → closure_within s cands w x.
Proof.
  intros Hc x Hx. unfold reachable in *. revert x Hx.
  apply (rtc_ind_r (λ x, closure_within s cands w x)).
  - constructor.
  - intros y z Hy Hyz IH.
    eapply closure_step; [exact IH | | exact Hyz].
    apply Hc. by eapply rtc_r.
Qed.

(** ** The wires connected to a wire *)

Lemma connected_to_one_of_spec s cw x :
  wire_manager.connected_to_one_of s cw x = true
  ↔ ∃ w2, w2 ∈ cw ∧ linked s w2 x.
Proof.
  unfold wire_manager.connected_to_one_of, linked.
  rewrite existsb_exists. split.
  - intros (w2 & Hin & H). exists w2. rewrite list_elem_of_In. split; [done|].
    apply orb_true_iff in H. by rewrite !contains_true in H.
  - intros (w2 & Hin & H). exists w2. rewrite <- list_elem_of_In. split; [done|].
    apply orb_true_iff. by rewrite !contains_true.
Qed.

Lemma elem_of_round s cands cw x :
  x ∈ wire_manager.wiresConnectedTo_round s cands cw
  ↔ x ∈ cands ∧ (x ∉ cw) ∧ (∃ w2, w2 ∈ cw ∧ linked s w2 x).
Proof.
  unfold wire_manager.wiresConnectedTo_round.
  rewrite list_elem_of_filter, andb_True, negb_True.
  rewrite !Is_true_true, contains_true, connected_to_one_of_spec. tauto.
Qed.

Lemma filter_length_lt {A} (P Q : A → Prop)
    `{!∀ x, Decision (P x)} `{!∀ x, Decision (Q x)} (l : list A) x0 :
  (∀ x, Q x → P x) → x0 ∈ l → P x0 → ¬ Q x0 →
  (length (filter Q l) < length (filter P l))%nat.
Proof.
  intros HQP. induction l as [|a l IH]; intros Hin HP HQ.
  - by apply elem_of_nil in Hin.
  - assert (Hle : (length (filter Q l) ≤ length (filter P l))%nat).
    { clear IH Hin. induction l as [|b l IH]; [done|].
      destruct (decide (Q b)) as [Hb|Hb].
      - rewrite !filter_cons_True by auto. simpl. lia.
      - rewrite (filter_cons_False Q) by done.
        destruct (decide (P b)).
        + rewrite filter_cons_True by done. simpl. lia.
        + by rewrite filter_cons_False. }
    apply elem_of_cons in Hin as [<-|Hin].
    + rewrite (filter_cons_True P), (filter_cons_False Q) by done. simpl. lia.
    + specialize (IH Hin HP HQ).
      destruct (decide (Q a)) as [Ha|Ha].
      * rewrite !filter_cons_True by auto. simpl. lia.
      * rewrite (filter_cons_False Q) by done.
        destruct (decide (P a)).
        -- rewrite filter_cons_True by done. simpl. lia.
        -- by rewrite filter_cons_False.
Qed.

Lemma wiresConnectedTo_loop_spec s cands w : ∀ fuel cw,
  w ∈ cw →
  (∀ x, x ∈ cw → closure_within s cands w x) →
  (length (filter (λ x, x ∉ cw) cands) < fuel)%nat →
  ∃ l, wire_manager.wiresConnectedTo_loop s fuel cands cw = Some l
       ∧ (∀ x, x ∈ l ↔ closure_within s cands w x)
       ∧ (NoDup cands → NoDup cw → NoDup l).
Proof.
  induction fuel as [|fuel IH]; intros cw Hw Hcw Hfuel; [lia|].
  simpl. set (newList := wire_manager.wiresConnectedTo_round s cands cw).
  assert (Hnew : ∀ x, x ∈ newList → closure_within s cands w x).
  { intros x (Hc & _ & w2 & Hw2 & Hl)%elem_of_round.
    eapply closure_step; [by apply Hcw | done | done]. }
  assert (Hnd : NoDup cands → NoDup cw → NoDup (cw ++ newList)).
  { intros Hc Hn. apply NoDup_app. split; [done|]. split.
    - intros x Hx (_ & Hnx & _)%elem_of_round. done.
    - by apply NoDup_filter. }
  case_bool_decide as Hne.
  - destruct (IH (cw ++ newList)) as (l & Hl & Hspec & Hndl).
    + apply elem_of_app. by left.
    + intros x [?|?]%elem_of_app; auto.
    + destruct newList as [|x0 rest] eqn:Heq; [done|].
      assert (Hx0 : x0 ∈ wire_manager.wiresConnectedTo_round s cands cw).
      { fold newList. rewrite Heq. by left. }
      apply elem_of_round in Hx0 as (Hc0 & Hn0 & _).
      assert ((length (filter (λ x, x ∉ cw ++ x0 :: rest) cands)
               < length (filter (λ x, x ∉ cw) cands))%nat); [|lia].
      apply (filter_length_lt _ _ _ x0); [|done|done|].
      * intros x Hx Hin. apply Hx, elem_of_app. by left.
      * intros Hx. apply Hx, elem_of_app. right. by left.
    + exists l. split; [done|]. split; [done|]. auto.
  - exists (cw ++ newList). split; [done|]. split; [|done].
    assert (newList = []) as Hnil by (by destruct (decide (newList = []))).
    intros x. split; [intros [?|?]%elem_of_app; auto|].
    intros Hx. apply elem_of_app. left.
    induction Hx as [|a b _ IHa Hb Hab]; [done|].
    destruct (decide (b ∈ cw)) as [|Hnb]; [done|]. exfalso.
    assert (b ∈ newList) as Hbn.
    { apply elem_of_round. split; [done|]. split; [done|]. by exists a. }
    rewrite Hnil in Hbn. by apply elem_of_nil in Hbn.
Qed.

Lemma wiresConnectedTo_spec s w n :
  _net (wire_of s w) = Some n →
  ∃ l, wire_manager.wiresConnectedTo w s = Some l
       ∧ (∀ x, x ∈ l ↔ closure_within s (WireNet.wires s n) w x)
       ∧ (NoDup (WireNet.wires s n) → NoDup l).
Proof.
  intros Hn. unfold wire_manager.wiresConnectedTo. rewrite Hn. simpl.
  destruct (wiresConnectedTo_loop_spec s (WireNet.wires s n) w
              (S (length (WireNet.wires s n))) [w]) as (l & Hl & Hs & Hnd).
  - by left.
  - intros x ->%list_elem_of_singleton. constructor.
  - pose proof (length_filter (λ x, x ∉ [w]) (WireNet.wires s n)). lia.
  - exists l. split; [done|]. split; [done|].
    intros Hc. apply Hnd; [done|]. apply NoDup_singleton.
Qed.

(** C7 (amended): [wiresConnectedTo(w)] returns, and its result holds
    exactly the least set that contains [w] and every wire of the net of [w]
    that is directly connected, in either storage direction, to a wire of
    the set. Where all wires reachable from [w] are in its net, that is the
    connected component of [w]. *)
Theorem wiresConnectedTo_closure_within_net s w n :
  _net (wire_of s w) = Some n →
  ∃ l, wire_manager.wiresConnectedTo w s = Some l
       ∧ (∀ x, x ∈ l ↔ closure_within s (WireNet.wires s n) w x)
       ∧ ((∀ x, reachable s w x → x ∈ WireNet.wires s n) →
          ∀ x, x ∈ l ↔ reachable s w x).
Proof.
  intros Hn. destruct (wiresConnectedTo_spec s w n Hn) as (l & Hl & Hs & _).
  exists l. split; [done|]. split; [done|].
  intros Hall x. rewrite Hs. split.
  - apply closure_within_reachable.
  - by apply reachable_closure_within.
Qed.

Lemma wiresConnectedTo_closure_within_net_witness :
  _net (wire_of linked_across_nets 0%nat) = Some 0%nat
  ∧ ∃ l, wire_manager.wiresConnectedTo 0%nat linked_across_nets = Some l
         ∧ ∀ x, x ∈ l
                ↔ closure_within linked_across_nets
                    (WireNet.wires linked_across_nets 0%nat) 0%nat x.
Proof.
  assert (H : _net (wire_of linked_across_nets 0%nat) = Some 0%nat)
    by (vm_compute; reflexivity).
  split; [exact H|].
  destruct (wiresConnectedTo_closure_within_net linked_across_nets 0%nat 0%nat H)
    as (l & Hl & Hs & _).
  exists l. split; [exact Hl | exact Hs].
Defined.

(** C7 (counterexample): W1 holds a connection to W2 while W2 is in another
    net; [wiresConnectedTo(W1)] is W1 alone, and W2 is reachable from W1. *)
Lemma wiresConnectedTo_misses_other_nets :
  wire_manager.wiresConnectedTo 0%nat linked_across_nets = Some [0%nat]
  ∧ 0%nat ∈ wire_manager.wires linked_across_nets
  ∧ 1%nat ∈ wire_manager.wires linked_across_nets
  ∧ reachable linked_across_nets 0%nat 1%nat
  ∧ 1%nat ∉ [0%nat].
Proof.
  split; [vm_compute; reflexivity|].
  split; [vm_compute; repeat constructor|].
  split; [vm_compute; repeat constructor|].
  split; [|apply not_elem_of_cons; split; [done | apply not_elem_of_nil]].
  apply rtc_once. left. vm_compute. repeat constructor.
Qed.


(** ** Moving wires from one net to another *)

Lemma for_each_ext {A S} (f g : A → S → option S) l :
  (∀ a s, f a s = g a s) → ∀ s, for_each l f s = for_each l g s.
Proof.
  intros Hfg. induction l as [|a l IH]; intros s; simpl; [done|].
  rewrite Hfg. destruct (g a s); simpl; [apply IH | done].
Qed.

Lemma for_each_cons {A S} (f : A → S → option S) a l s :
  for_each (a :: l) f s = f a s ≫= for_each l f.
Proof. done. Qed.

Lemma move_wire_keep dst src keep w s :
  keep w = true → move_wire dst src keep w s = Some s.
Proof. intros H. unfold move_wire. by rewrite H. Qed.

Lemma move_wire_move dst src keep w s :
  keep w = false →
  move_wire dst src keep w s
  = Some (WireNet.removeWire src w (WireNet.addWire dst w s)).
Proof. intros H. unfold move_wire. by rewrite H. Qed.

Lemma wires_addWire n w s n' :
  WireNet.wires (WireNet.addWire n w s) n'
  = if decide (n' = n) then WireNet.wires s n ++ [w] else WireNet.wires s n'.
Proof.
  unfold WireNet.wires. rewrite net_of_addWire.
  repeat case_decide; subst; done.
Qed.

Lemma wires_removeWire n w s n' :
  WireNet.wires (WireNet.removeWire n w s) n'
  = if decide (n' = n) then QVector.removeAll w (WireNet.wires s n)
    else WireNet.wires s n'.
Proof.
  unfold WireNet.wires. rewrite net_of_removeWire.
  repeat case_decide; subst; done.
Qed.

Lemma filter_removeAll (M : list nat) w l :
  filter (λ x, x ∉ M) (QVector.removeAll w l) = filter (λ x, x ∉ w :: M) l.
Proof.
  unfold QVector.removeAll. rewrite list_filter_filter.
  apply list_filter_iff. intros x. rewrite not_elem_of_cons. tauto.
Qed.

Lemma filter_notin_nil (l : list nat) : filter (λ x, x ∉ []) l = l.
Proof.
  induction l as [|a l IH]; [done|].
  rewrite filter_cons_True by apply not_elem_of_nil. by rewrite IH.
Qed.

(** The loop that moves the wires of [L] that are not kept from [src] to
    [dst]: the moved wires [M] are appended to [dst], leave [src] and point
    at [dst]; nothing else changes. *)
Lemma move_wires_spec dst src keep : dst ≠ src → ∀ L s,
  ∃ s', for_each L (move_wire dst src keep) s = Some s'
    ∧ (∀ w, _net (wire_of s' w)
            = if decide (w ∈ filter (λ w, keep w = false) L) then Some dst
              else _net (wire_of s w))
    ∧ (∀ w, points_of s' w = points_of s w)
    ∧ (∀ w, connected_wires s' w = connected_wires s w)
    ∧ (∀ n, WireNet.wires s' n
            = if decide (n = dst)
              then WireNet.wires s dst ++ filter (λ w, keep w = false) L
              else if decide (n = src)
              then filter (λ w, w ∉ filter (λ w, keep w = false) L)
                     (WireNet.wires s src)
              else WireNet.wires s n)
    ∧ (∀ n, WireNet.name s' n = WireNet.name s n)
    ∧ _nets s' = _nets s
    ∧ _connections s' = _connections s
    ∧ (∀ n, n ∈ dom (net_store s) → n ∈ dom (net_store s')).
Proof.
  intros Hne. induction L as [|w0 L IH]; intros s.
  - exists s. split; [done|]. rewrite filter_nil.
    split; [intros w; case_decide as Hw; [by apply elem_of_nil in Hw | done]|].
    split; [done|]. split; [done|].
    split; [|done].
    intros n. repeat case_decide; subst; [by rewrite app_nil_r | | done].
    by rewrite filter_notin_nil.
  - rewrite for_each_cons. destruct (keep w0) eqn:Hk.
    + rewrite move_wire_keep by done. simpl.
      destruct (IH s) as (s' & Hs' & H).
      exists s'. split; [done|].
      rewrite filter_cons_False by (by rewrite Hk). exact H.
    + rewrite move_wire_move by done. simpl.
      set (s1 := WireNet.removeWire src w0 (WireNet.addWire dst w0 s)).
      destruct (IH s1) as (s' & Hs' & Hnet & Hpts & Hconn & Hw & Hname & Hn & Hc & Hd).
      exists s'. split; [done|].
      rewrite filter_cons_True by done.
      set (M := filter (λ w, keep w = false) L) in *.
      split; [|split; [|split; [|split; [|split; [|split; [|split]]]]]].
      * intros w. rewrite Hnet. unfold s1.
        rewrite wire_of_removeWire, wire_of_addWire.
        destruct (decide (w = w0)) as [->|Hw0].
        -- rewrite (decide_True (P := w0 ∈ w0 :: M)) by left.
           rewrite (decide_True (P := w0 = w0)) by done.
           by case_decide.
        -- rewrite (decide_False (P := w0 = w)) by done.
           destruct (decide (w ∈ M)).
           ++ by rewrite decide_True by (by right).
           ++ rewrite decide_False; [done|].
              intros [?|?]%elem_of_cons; done.
      * intros w. rewrite Hpts. unfold s1, points_of.
        rewrite wire_of_removeWire, wire_of_addWire. by case_decide; subst.
      * intros w. rewrite Hconn. unfold s1, connected_wires.
        rewrite wire_of_removeWire, wire_of_addWire. by case_decide; subst.
      * intros n. rewrite Hw. unfold s1.
        rewrite !wires_removeWire, !wires_addWire.
        destruct (decide (n = dst)) as [->|Hnd].
        -- rewrite (decide_False (P := dst = src)) by done.
           rewrite decide_True by done. by rewrite <- app_assoc.
        -- destruct (decide (n = src)) as [->|Hns]; [|done].
           rewrite decide_True by done.
           rewrite (decide_False (P := src = dst)) by done.
           apply filter_removeAll.
      * intros n. rewrite Hname. unfold s1, WireNet.name.
        rewrite net_of_removeWire, !net_of_addWire.
        repeat case_decide; subst; done.
      * by rewrite Hn.
      * by rewrite Hc.
      * intros n Hin. apply Hd. unfold s1; simpl.
        rewrite !dom_insert. set_solver.
Qed.

(** ** Consequences of consistency *)

Lemma in_same_net s n w x :
  consistent s → n ∈ _nets s →
  w ∈ WireNet.wires s n → x ∈ WireNet.wires s n → reachable s w x.
Proof. intros Hc Hn Hw Hx. by apply (nets_components s Hc n w x). Qed.

Lemma reach_in_net s n w x :
  consistent s → n ∈ _nets s →
  w ∈ WireNet.wires s n → reachable s w x → x ∈ WireNet.wires s n.
Proof. intros Hc Hn Hw Hx. by apply (nets_components s Hc n w x). Qed.

Lemma nets_disjoint s n1 n2 w :
  consistent s → n1 ∈ _nets s → n2 ∈ _nets s →
  w ∈ WireNet.wires s n1 → w ∈ WireNet.wires s n2 → n1 = n2.
Proof.
  intros Hc H1 H2 Hw1 Hw2.
  pose proof (wire_net s Hc n1 w H1 Hw1) as E1.
  pose proof (wire_net s Hc n2 w H2 Hw2) as E2. congruence.
Qed.

Lemma managed_in_net s w :
  consistent s → w ∈ wire_manager.wires s →
  ∃ n, n ∈ _nets s ∧ w ∈ WireNet.wires s n ∧ _net (wire_of s w) = Some n.
Proof.
  intros Hc (n & Hn & Hw)%elem_of_wires. exists n.
  split; [done|]. split; [done|]. by apply (wire_net s Hc).
Qed.

(** A scene that shows the same nets and the same components is consistent
    as well. *)
Lemma consistent_same_nets s s' :
  consistent s →
  _nets s' = _nets s →
  (∀ n, WireNet.wires s' n = WireNet.wires s n) →
  (∀ w, _net (wire_of s' w) = _net (wire_of s w)) →
  (∀ n, n ∈ dom (net_store s) → n ∈ dom (net_store s')) →
  (∀ n w x, n ∈ _nets s → w ∈ WireNet.wires s n →
            (reachable s' w x ↔ reachable s w x)) →
  consistent s'.
Proof.
  intros Hc Hn Hw Hnet Hd Hr. split.
  - rewrite Hn. apply Hc.
  - intros n. rewrite Hn. intros H. by apply Hd, Hc.
  - intros n. rewrite Hn, Hw. apply Hc.
  - intros n w. rewrite Hn, Hw, Hnet. apply Hc.
  - intros n w x. rewrite Hn, !Hw. intros H1 H2.
    rewrite (Hr n w x H1 H2). by apply Hc.
Qed.

(** ** Connecting two wires *)

Lemma linked_iff s s' :
  (∀ w, connected_wires s' w = connected_wires s w) →
  ∀ u v, linked s' u v ↔ linked s u v.
Proof.
  intros H u v. unfold linked. fold (connected_wires s' u).
  fold (connected_wires s' v). fold (connected_wires s u).
  fold (connected_wires s v). by rewrite !H.
Qed.

Lemma reachable_iff s s' :
  (∀ w, connected_wires s' w = connected_wires s w) →
  ∀ u v, reachable s' u v ↔ reachable s u v.
Proof.
  intros H u v. split; apply rtc_sub; intros x y; by apply linked_iff.
Qed.

Lemma connected_wires_link_added a b s w :
  connected_wires (link_added a b s) w
  = if decide (w = a) then connected_wires s a ++ [b] else connected_wires s w.
Proof.
  unfold link_added, connected_wires. rewrite wire_of_update_wire.
  repeat case_decide; subst; done.
Qed.

Lemma linked_link_added a b s u v :
  linked (link_added a b s) u v
  ↔ linked s u v ∨ (u = a ∧ v = b) ∨ (u = b ∧ v = a).
Proof.
  unfold linked. fold (connected_wires (link_added a b s) u).
  fold (connected_wires (link_added a b s) v).
  fold (connected_wires s u). fold (connected_wires s v).
  rewrite !connected_wires_link_added.
  destruct (decide (u = a)) as [->|Hu], (decide (v = a)) as [->|Hv];
    rewrite ?elem_of_app, ?list_elem_of_singleton; intuition congruence.
Qed.

Lemma reachable_link_added a b s u v :
  reachable (link_added a b s) u v
  ↔ reachable s u v
    ∨ (reachable s u a ∧ reachable s b v)
    ∨ (reachable s u b ∧ reachable s a v).
Proof.
  split.
  - apply rtc_split_edge. intros x y. by rewrite linked_link_added.
  - assert (Hsub : ∀ x y, reachable s x y → reachable (link_added a b s) x y).
    { apply rtc_sub. intros x y H. apply linked_link_added. by left. }
    assert (Hab : reachable (link_added a b s) a b).
    { apply rtc_once, linked_link_added. right; left. done. }
    intros [H | [[H1 H2] | [H1 H2]]].
    + by apply Hsub.
    + apply (reachable_trans _ u a v); [by apply Hsub|].
      apply (reachable_trans _ a b v); [exact Hab | by apply Hsub].
    + apply (reachable_trans _ u b v); [by apply Hsub|].
      apply (reachable_trans _ b a v);
        [by apply reachable_sym | by apply Hsub].
Qed.

Lemma connectWire_unfold a b s :
  wire_manager.connectWire a b s =
  if QVector.contains (connected_wires s a) b then Some s
  else
    '(merged, s2) ← wire_manager.mergeNets
                      (_net (wire_of (link_added a b s) a))
                      (_net (wire_of (link_added a b s) b))
                      (link_added a b s);
    if (merged : bool)
    then Some (wire_manager.removeWireNet
                 (_net (wire_of (link_added a b s) b)) s2)
    else Some s2.
Proof.
  unfold wire_manager.connectWire, Wire.connectWire, connected_wires.
  by destruct (QVector.contains _ _).
Qed.

Lemma net_link_added a b s w :
  _net (wire_of (link_added a b s) w) = _net (wire_of s w).
Proof.
  unfold link_added. rewrite wire_of_update_wire. by case_decide; subst.
Qed.

Lemma points_link_added a b s w :
  points_of (link_added a b s) w = points_of s w.
Proof.
  unfold link_added, points_of. rewrite wire_of_update_wire.
  by case_decide; subst.
Qed.

Lemma mergeNets_distinct nA nB s :
  nA ≠ nB →
  wire_manager.mergeNets (Some nA) (Some nB) s
  = s' ← for_each (WireNet.wires s nB) (move_wire nA nB (λ _, false)) s;
    Some (true, s').
Proof.
  intros Hne. unfold wire_manager.mergeNets.
  rewrite decide_False by congruence. simpl.
  by rewrite (for_each_ext _ (move_wire nA nB (λ _, false))).
Qed.

Lemma filter_all_false (l : list nat) :
  filter (λ w, (λ _ : nat, false) w = false) l = l.
Proof.
  induction l as [|a l IH]; [done|].
  rewrite filter_cons_True by done. by rewrite IH.
Qed.

Lemma filter_none {A} (P : A → Prop) `{!∀ x, Decision (P x)} (l : list A) :
  (∀ x, x ∈ l → ¬ P x) → filter P l = [].
Proof.
  induction l as [|a l IH]; intros Hall; [done|].
  rewrite filter_cons_False by (apply Hall; left).
  apply IH. intros x Hx. apply Hall. by right.
Qed.

Lemma filter_all {A} (P : A → Prop) `{!∀ x, Decision (P x)} (l : list A) :
  (∀ x, x ∈ l → P x) → filter P l = l.
Proof.
  induction l as [|a l IH]; intros Hall; [done|].
  rewrite filter_cons_True by (apply Hall; left).
  rewrite IH; [done|]. intros x Hx. apply Hall. by right.
Qed.

Lemma filter_notin_self (l : list nat) : filter (λ w, w ∉ l) l = [].
Proof. apply filter_none. intros x Hx Hn. by apply Hn. Qed.

Lemma connectWire_spec s a b :
  consistent s → a ∈ wire_manager.wires s → b ∈ wire_manager.wires s →
  ∃ s', wire_manager.connectWire a b s = Some s'
    ∧ consistent s'
    ∧ (∀ w, points_of s' w = points_of s w)
    ∧ (∀ w, connected_wires s' w
            = if decide (w = a ∧ b ∉ connected_wires s a)
              then connected_wires s a ++ [b] else connected_wires s w)
    ∧ (∀ w, w ∈ wire_manager.wires s' ↔ w ∈ wire_manager.wires s)
    ∧ _net (wire_of s' a) = _net (wire_of s' b)
    ∧ _connections s' = _connections s
    ∧ (∀ n, n ∈ _nets s' → WireNet.wires s' n = [] →
            n ∈ _nets s ∧ WireNet.wires s n = []).
Proof.
  intros Hc Ha Hb.
  destruct (managed_in_net s a Hc Ha) as (nA & HnA & HaA & HnetA).
  destruct (managed_in_net s b Hc Hb) as (nB & HnB & HbB & HnetB).
  rewrite connectWire_unfold.
  destruct (QVector.contains (connected_wires s a) b) eqn:Hcont.
  { (* already connected *)
    apply contains_true in Hcont.
    exists s. split; [done|]. split; [done|]. split; [done|].
    split; [intros w; rewrite decide_False; [done | tauto]|].
    split; [done|]. split; [|by split].
    assert (reachable s a b) as Hr by (apply rtc_once; by left).
    apply (reach_in_net s nA a b Hc HnA HaA) in Hr.
    rewrite (nets_disjoint s nA nB b Hc HnA HnB Hr HbB) in HnetA. congruence. }
  apply contains_false in Hcont.
  rewrite !net_link_added, HnetA, HnetB.
  set (s1 := link_added a b s).
  assert (Hconn1 : ∀ w, connected_wires s1 w
            = if decide (w = a ∧ b ∉ connected_wires s a)
              then connected_wires s a ++ [b] else connected_wires s w).
  { intros w. unfold s1. rewrite connected_wires_link_added.
    destruct (decide (w = a)) as [->|Hwa].
    - by rewrite decide_True.
    - rewrite decide_False; [done | tauto]. }
  destruct (decide (nA = nB)) as [<-|Hne].
  { (* same net: nothing to merge *)
    unfold wire_manager.mergeNets. rewrite decide_True by done. simpl.
    exists s1. split; [done|].
    split; [|split; [apply points_link_added|split; [done|split; [done|split]]]].
    - apply (consistent_same_nets s); try done.
      + apply net_link_added.
      + intros n w x Hn Hw. unfold s1. rewrite reachable_link_added.
        assert (reachable s a b) as Hab by by apply (in_same_net s nA).
        split; [|by left].
        intros [H1 | [[H1 H2] | [H1 H2]]]; [done| |].
        * apply (reachable_trans s w a x H1).
          by apply (reachable_trans s a b x).
        * apply (reachable_trans s w b x H1).
          apply (reachable_trans s b a x); [by apply reachable_sym | done].
    - unfold s1. rewrite !net_link_added. congruence.
    - by split. }
  (* two nets: the net of [b] is merged into the net of [a] *)
  rewrite mergeNets_distinct by done.
  destruct (move_wires_spec nA nB (λ _, false) Hne (WireNet.wires s1 nB) s1)
    as (s2 & Hs2 & Hnet2 & Hpts2 & Hconn2 & Hw2 & _ & Hn2 & Hcs2 & Hd2).
  rewrite Hs2. simpl.
  rewrite filter_all_false in Hnet2, Hw2.
  change (WireNet.wires s1 nB) with (WireNet.wires s nB) in *.
  change (WireNet.wires s1 nA) with (WireNet.wires s nA) in *.
  set (A := WireNet.wires s nA) in *. set (B := WireNet.wires s nB) in *.
  set (s3 := set_nets (QVector.removeAll nB (_nets s2)) s2).
  assert (Hnets3 : ∀ n, n ∈ _nets s3 ↔ n ∈ _nets s ∧ n ≠ nB).
  { intros n. unfold s3; simpl. rewrite elem_of_removeAll, Hn2. done. }
  assert (Hw3 : ∀ n, n ≠ nB → WireNet.wires s3 n
                     = if decide (n = nA) then A ++ B else WireNet.wires s n).
  { intros n Hn. change (WireNet.wires s3 n) with (WireNet.wires s2 n).
    rewrite Hw2. destruct (decide (n = nA)); [done|].
    by rewrite decide_False by done. }
  assert (Hnet3 : ∀ w, _net (wire_of s3 w)
                       = if decide (w ∈ B) then Some nA else _net (wire_of s w)).
  { intros w. change (wire_of s3 w) with (wire_of s2 w). rewrite Hnet2.
    destruct (decide (w ∈ B)); [done|]. unfold s1. apply net_link_added. }
  assert (Hconn3 : ∀ w, connected_wires s3 w = connected_wires s1 w).
  { intros w. apply Hconn2. }
  assert (Hreach3 : ∀ u v, reachable s3 u v ↔ reachable s1 u v).
  { by apply reachable_iff. }
  assert (HAB : ∀ w, w ∈ A → w ∉ B).
  { intros w HwA HwB. apply Hne. by apply (nets_disjoint s nA nB w). }
  exists s3. split; [done|].
  split; [|split; [|split; [|split; [|split]]]].
  - split.
    + unfold s3; simpl. rewrite Hn2. apply NoDup_removeAll, Hc.
    + intros n [Hn _]%Hnets3. apply Hd2. unfold s1; simpl. by apply Hc.
    + intros n Hn. pose proof Hn as [Hn' Hnn]%Hnets3. rewrite Hw3 by done.
      destruct (decide (n = nA)); [|by apply Hc]. apply NoDup_app.
      split; [by apply Hc|]. split; [done | by apply Hc].
    + intros n w Hn. pose proof Hn as [Hn' Hnn]%Hnets3.
      rewrite Hw3, Hnet3 by done. intros Hw.
      destruct (decide (w ∈ B)) as [HwB|HwB].
      * destruct (decide (n = nA)) as [->|Hna]; [done|]. exfalso. apply Hnn.
        by apply (nets_disjoint s n nB w).
      * apply (wire_net s Hc); [done|].
        destruct (decide (n = nA)) as [->|Hna]; [|done].
        apply elem_of_app in Hw as [?|?]; done.
    + intros n w x Hn. pose proof Hn as [Hn' Hnn]%Hnets3.
      rewrite !Hw3 by done. intros Hw. rewrite Hreach3. unfold s1.
      rewrite reachable_link_added.
      destruct (decide (n = nA)) as [->|Hna].
      * assert (Hin : ∀ y, y ∈ A ++ B →
                  reachable s y a ∨ reachable s y b).
        { intros y [?|?]%elem_of_app.
          - left. by apply (in_same_net s nA).
          - right. by apply (in_same_net s nB). }
        split.
        -- intros [H1 | [[H1 H2] | [H1 H2]]].
           ++ apply elem_of_app in Hw as [Hw|Hw]; apply elem_of_app.
              ** left. by apply (reach_in_net s nA w).
              ** right. by apply (reach_in_net s nB w).
           ++ apply elem_of_app. right. by apply (reach_in_net s nB b).
           ++ apply elem_of_app. left. by apply (reach_in_net s nA a).
        -- intros Hx.
           destruct (Hin w Hw) as [Hwa|Hwb], (Hin x Hx) as [Hxa|Hxb].
           ++ left. apply (reachable_trans s w a x Hwa).
              by apply reachable_sym.
           ++ right; left. split; [done | by apply reachable_sym].
           ++ right; right. split; [done | by apply reachable_sym].
           ++ left. apply (reachable_trans s w b x Hwb).
              by apply reachable_sym.
      * split.
        -- intros [H1 | [[H1 H2] | [H1 H2]]].
           ++ by apply (reach_in_net s n w).
           ++ exfalso. apply Hna.
              apply (nets_disjoint s n nA a); try done.
              by apply (reach_in_net s n w).
           ++ exfalso. apply Hnn.
              apply (nets_disjoint s n nB b); try done.
              by apply (reach_in_net s n w).
        -- intros Hx. left. by apply (in_same_net s n).
  - intros w. change (points_of s3 w) with (points_of s2 w).
    rewrite Hpts2. apply points_link_added.
  - intros w. by rewrite Hconn3.
  - intros w. rewrite !elem_of_wires. split.
    + intros (n & Hn & Hw). pose proof Hn as [Hn' Hnn]%Hnets3.
      rewrite Hw3 in Hw by done.
      destruct (decide (n = nA)) as [->|Hna]; [|by exists n].
      apply elem_of_app in Hw as [?|?]; [by exists nA | by exists nB].
    + intros (n & Hn & Hw). destruct (decide (n = nB)) as [->|Hnn].
      * exists nA. split; [by apply Hnets3|].
        rewrite Hw3, decide_True by done. apply elem_of_app. by right.
      * exists n. split; [by apply Hnets3|]. rewrite Hw3 by done.
        destruct (decide (n = nA)) as [->|Hna]; [|done].
        apply elem_of_app; by left.
  - rewrite !Hnet3. rewrite (decide_True (P := b ∈ B)) by done.
    destruct (decide (a ∈ B)); [done | congruence].
  - split; [change (_connections s3) with (_connections s2); by rewrite Hcs2|].
    intros n Hn. pose proof Hn as [Hn' Hnn]%Hnets3. rewrite Hw3 by done.
    destruct (decide (n = nA)) as [->|Hna]; [|done].
    intros [HA0 _]%app_eq_nil. exfalso. revert HaA. rewrite HA0.
    apply not_elem_of_nil.
Qed.

(** ** Disconnecting two wires *)

Lemma connected_wires_link_removed a b s w :
  connected_wires (link_removed a b s) w
  = if decide (w = a) then QVector.removeAll b (connected_wires s a)
    else connected_wires s w.
Proof.
  unfold link_removed, connected_wires. rewrite wire_of_update_wire.
  destruct (decide (a = w)) as [->|?].
  - by rewrite decide_True.
  - by rewrite decide_False by done.
Qed.

Lemma net_link_removed a b s w :
  _net (wire_of (link_removed a b s) w) = _net (wire_of s w).
Proof.
  unfold link_removed. rewrite wire_of_update_wire.
  by destruct (decide (a = w)) as [->|?].
Qed.

Lemma points_link_removed a b s w :
  points_of (link_removed a b s) w = points_of s w.
Proof.
  unfold link_removed, points_of. rewrite wire_of_update_wire.
  by destruct (decide (a = w)) as [->|?].
Qed.

Lemma linked_link_removed_sub a b s u v :
  linked (link_removed a b s) u v → linked s u v.
Proof.
  unfold linked. fold (connected_wires (link_removed a b s) u).
  fold (connected_wires (link_removed a b s) v).
  fold (connected_wires s u). fold (connected_wires s v).
  rewrite !connected_wires_link_removed.
  destruct (decide (u = a)) as [->|Hu], (decide (v = a)) as [->|Hv];
    rewrite ?elem_of_removeAll; tauto.
Qed.

Lemma linked_link_removed_split a b s u v :
  linked s u v →
  linked (link_removed a b s) u v ∨ (u = a ∧ v = b) ∨ (u = b ∧ v = a).
Proof.
  unfold linked. fold (connected_wires (link_removed a b s) u).
  fold (connected_wires (link_removed a b s) v).
  fold (connected_wires s u). fold (connected_wires s v).
  rewrite !connected_wires_link_removed.
  destruct (decide (u = b)) as [Hub|Hub], (decide (v = b)) as [Hvb|Hvb],
    (decide (u = a)) as [Hu|Hu], (decide (v = a)) as [Hv|Hv];
    rewrite ?elem_of_removeAll; subst; tauto.
Qed.

Lemma reachable_link_removed_sub a b s u v :
  reachable (link_removed a b s) u v → reachable s u v.
Proof. apply rtc_sub. intros x y. apply linked_link_removed_sub. Qed.

Lemma reachable_link_removed_split a b s u v :
  reachable s u v →
  reachable (link_removed a b s) u v
  ∨ (reachable (link_removed a b s) u a ∧ reachable (link_removed a b s) b v)
  ∨ (reachable (link_removed a b s) u b ∧ reachable (link_removed a b s) a v).
Proof. apply rtc_split_edge. intros x y. apply linked_link_removed_split. Qed.

Lemma NoDup_same_length (l N : list nat) :
  NoDup l → (∀ x, x ∈ l → x ∈ N) → length N = length l →
  ∀ x, x ∈ N → x ∈ l.
Proof.
  intros Hnd Hsub Hlen x Hx.
  assert (l ≡ₚ N) as Hp.
  { apply submseteq_length_Permutation; [by apply NoDup_submseteq | lia]. }
  by rewrite Hp.
Qed.

Lemma filter_ext_in {A} (P Q : A → Prop)
    `{!∀ x, Decision (P x)} `{!∀ x, Decision (Q x)} (l : list A) :
  (∀ x, x ∈ l → (P x ↔ Q x)) → filter P l = filter Q l.
Proof.
  induction l as [|a l IH]; intros Hall; [done|].
  assert (filter P l = filter Q l) as Hl.
  { apply IH. intros x Hx. apply Hall. by right. }
  destruct (decide (P a)) as [Ha|Ha].
  - rewrite !filter_cons_True; [by rewrite Hl | by apply Hall; [left|] | done].
  - rewrite !filter_cons_False; [done | | done].
    intros Hq. apply Ha. apply Hall; [left | done].
Qed.

Lemma disconnectWire_unfold a b s :
  wire_manager.disconnectWire a b s =
  oldWires ← wire_manager.wiresConnectedTo a (link_removed a b s);
  n ← _net (wire_of (link_removed a b s) b);
  if bool_decide (QVector.count (WireNet.wires (link_removed a b s) n)
                  ≠ QVector.count oldWires)
  then
    for_each
      (WireNet.wires
         (wire_manager.addWireNet
            (Some (fresh (dom (net_store (link_removed a b s)))))
            (make_net (link_removed a b s)).2) n)
      (move_wire (fresh (dom (net_store (link_removed a b s)))) n
         (QVector.contains oldWires))
      (wire_manager.addWireNet
         (Some (fresh (dom (net_store (link_removed a b s)))))
         (make_net (link_removed a b s)).2)
  else Some (link_removed a b s).
Proof.
  unfold wire_manager.disconnectWire. fold (link_removed a b s).
  destruct (wire_manager.wiresConnectedTo a (link_removed a b s)) as [l|];
    [|done]. simpl.
  destruct (_net (wire_of (link_removed a b s) b)) as [n|]; [|done]. simpl.
  case_bool_decide; [|done]. reflexivity.
Qed.

Lemma disconnectWire_eq a b s l n :
  wire_manager.wiresConnectedTo a (link_removed a b s) = Some l →
  _net (wire_of (link_removed a b s) b) = Some n →
  wire_manager.disconnectWire a b s =
  if bool_decide (QVector.count (WireNet.wires (link_removed a b s) n)
                  ≠ QVector.count l)
  then
    for_each
      (WireNet.wires
         (wire_manager.addWireNet
            (Some (fresh (dom (net_store (link_removed a b s)))))
            (make_net (link_removed a b s)).2) n)
      (move_wire (fresh (dom (net_store (link_removed a b s)))) n
         (QVector.contains l))
      (wire_manager.addWireNet
         (Some (fresh (dom (net_store (link_removed a b s)))))
         (make_net (link_removed a b s)).2)
  else Some (link_removed a b s).
Proof. intros Hl Hn. rewrite disconnectWire_unfold, Hl. simpl. by rewrite Hn. Qed.

(** The scene in which the new net of [disconnectWire] has been made and
    registered. *)
Lemma make_net_registered s :
  let newNet := fresh (dom (net_store s)) in
  let s' := wire_manager.addWireNet (Some newNet) (make_net s).2 in
  (newNet ∉ dom (net_store s))
  ∧ _nets s' = _nets s ++ [newNet]
  ∧ (∀ w, wire_of s' w = wire_of s w)
  ∧ WireNet.wires s' newNet = []
  ∧ (∀ n, n ≠ newNet → WireNet.wires s' n = WireNet.wires s n)
  ∧ _connections s' = _connections s
  ∧ (∀ n, n ∈ dom (net_store s') ↔ n = newNet ∨ n ∈ dom (net_store s)).
Proof.
  intros newNet s'. split; [apply is_fresh|].
  split; [done|]. split; [done|].
  split; [|split; [|split; [done|]]].
  - unfold WireNet.wires, net_of, s'; simpl. fold newNet.
    by rewrite lookup_total_insert_eq.
  - intros n Hn. unfold WireNet.wires, net_of, s'; simpl. fold newNet.
    by rewrite lookup_total_insert_ne.
  - intros n. unfold s'; simpl. fold newNet.
    rewrite dom_insert, elem_of_union, elem_of_singleton. done.
Qed.

Lemma disconnectWire_spec s a b :
  consistent s → a ∈ wire_manager.wires s → b ∈ wire_manager.wires s →
  ∃ s' l, wire_manager.disconnectWire a b s = Some s'
    ∧ consistent s'
    ∧ (∀ w, points_of s' w = points_of s w)
    ∧ (∀ w, connected_wires s' w
            = if decide (w = a)
              then QVector.removeAll b (connected_wires s a)
              else connected_wires s w)
    ∧ (∀ w, w ∈ wire_manager.wires s' ↔ w ∈ wire_manager.wires s)
    ∧ _connections s' = _connections s
    ∧ NoDup l
    ∧ (∀ x, x ∈ l ↔ reachable s' a x)
    ∧ (∀ n, _net (wire_of s b) = Some n →
         (length (WireNet.wires s n) = length l
          ∧ _nets s' = _nets s
          ∧ (∀ n0, WireNet.wires s' n0 = WireNet.wires s n0)
          ∧ (∀ w, _net (wire_of s' w) = _net (wire_of s w)))
         ∨ (length (WireNet.wires s n) ≠ length l
            ∧ ∃ newNet,
                (newNet ∉ _nets s)
                ∧ _nets s' = _nets s ++ [newNet]
                ∧ WireNet.wires s' newNet
                  = filter (λ w, w ∉ l) (WireNet.wires s n)
                ∧ WireNet.wires s' n
                  = filter (λ w, w ∈ l) (WireNet.wires s n)
                ∧ (∀ n0, n0 ≠ n → n0 ≠ newNet →
                         WireNet.wires s' n0 = WireNet.wires s n0)
                ∧ (∀ w, _net (wire_of s' w)
                        = if decide (w ∈ WireNet.wires s n ∧ w ∉ l)
                          then Some newNet else _net (wire_of s w)))).
Proof.
  intros Hc Ha Hb.
  destruct (managed_in_net s a Hc Ha) as (nA & HnA & HaA & HnetA).
  destruct (managed_in_net s b Hc Hb) as (nB & HnB & HbB & HnetB).
  pose proof (connected_wires_link_removed a b s) as Hconn1.
  pose proof (net_link_removed a b s) as Hnet1.
  pose proof (points_link_removed a b s) as Hpts1.
  pose proof (reachable_link_removed_sub a b s) as Hsub.
  pose proof (reachable_link_removed_split a b s) as Hsplit.
  pose proof (disconnectWire_eq a b s) as Heq.
  set (s1 := link_removed a b s) in *.
  set (N := WireNet.wires s nB).
  (* the wires that stay: the component of [a] once the link is gone *)
  destruct (wiresConnectedTo_spec s1 a nA) as (l & Hl & Hclos & Hndl).
  { by rewrite Hnet1. }
  assert (Hl_reach : ∀ x, x ∈ l ↔ reachable s1 a x).
  { intros x. rewrite Hclos. split; [apply closure_within_reachable|].
    apply reachable_closure_within. intros y Hy.
    change (WireNet.wires s1 nA) with (WireNet.wires s nA).
    apply (reach_in_net s nA a y); auto. }
  assert (Hl_A : ∀ x, x ∈ l → x ∈ WireNet.wires s nA).
  { intros x Hx%Hl_reach. apply (reach_in_net s nA a x); auto. }
  assert (Hnd : NoDup l) by (apply Hndl; by apply Hc).
  assert (Hsym : ∀ u v, reachable s1 u v → reachable s1 v u)
    by apply reachable_sym.
  rewrite (Heq l nB Hl) by (by rewrite Hnet1). clear Heq.
  change (WireNet.wires s1 nB) with N.
  unfold QVector.count. case_bool_decide as Hcount.
  - (* the net of [b] is split *)
    assert (Hlen : length N ≠ length l) by lia. clear Hcount.
    destruct (make_net_registered s1)
      as (Hfresh & Hn3 & Hw3 & Hnew3 & Hwires3 & Hcs3 & Hdom3).
    set (newNet := fresh (dom (net_store s1))) in *.
    set (s3 := wire_manager.addWireNet (Some newNet) (make_net s1).2) in *.
    assert (Hnew_nets : newNet ∉ _nets s).
    { intros Hin. apply Hfresh. by apply (nets_alloc s Hc). }
    assert (HnBnew : nB ≠ newNet) by (intros ->; done).
    rewrite (Hwires3 nB HnBnew).
    change (WireNet.wires s1 nB) with N.
    destruct (move_wires_spec newNet nB (QVector.contains l)
                (not_eq_sym HnBnew) N s3)
      as (s' & Hs' & Hnet' & Hpts' & Hconn' & Hw' & _ & Hn' & Hcs' & Hd').
    assert (HM : filter (λ w, QVector.contains l w = false) N
                 = filter (λ w, w ∉ l) N).
    { apply list_filter_iff. intros x. apply contains_false. }
    rewrite HM in Hnet', Hw'. set (M := filter (λ w, w ∉ l) N) in *.
    assert (HK : filter (λ w, w ∉ M) N = filter (λ w, w ∈ l) N).
    { apply filter_ext_in. intros x Hx. unfold M.
      rewrite list_elem_of_filter. destruct (decide (x ∈ l)); tauto. }
    assert (HwM : WireNet.wires s' newNet = M).
    { rewrite Hw', decide_True by done. by rewrite Hnew3. }
    assert (HwK : WireNet.wires s' nB = filter (λ w, w ∈ l) N).
    { rewrite Hw', decide_False, decide_True by done.
      rewrite (Hwires3 nB HnBnew). exact HK. }
    assert (Hwo : ∀ n0, n0 ≠ nB → n0 ≠ newNet →
              WireNet.wires s' n0 = WireNet.wires s n0).
    { intros n0 H1 H2. rewrite Hw', !decide_False by done.
      by rewrite Hwires3. }
    assert (Hnets' : _nets s' = _nets s ++ [newNet]) by by rewrite Hn', Hn3.
    assert (Hnetw : ∀ w, _net (wire_of s' w)
              = if decide (w ∈ N ∧ w ∉ l) then Some newNet
                else _net (wire_of s w)).
    { intros w. rewrite Hnet'. unfold M.
      destruct (decide (w ∈ filter (λ w, w ∉ l) N)) as [Hin|Hin];
        rewrite list_elem_of_filter in Hin.
      - rewrite decide_True; [done | tauto].
      - rewrite decide_False by tauto. by rewrite Hw3, Hnet1. }
    assert (Hreach' : ∀ u v, reachable s' u v ↔ reachable s1 u v).
    { apply reachable_iff. intros w. rewrite Hconn'.
      unfold connected_wires. by rewrite Hw3. }
    assert (HinM : ∀ w, w ∈ M ↔ w ∈ N ∧ w ∉ l).
    { intros w. unfold M. rewrite list_elem_of_filter. tauto. }
    exists s', l. split; [done|].
    split; [|split; [|split; [|split; [|split; [|split; [done|split]]]]]].
    + split.
      * rewrite Hnets'. apply NoDup_app. split; [by apply Hc|].
        split; [|apply NoDup_singleton].
        intros n Hn ->%list_elem_of_singleton. done.
      * intros n. rewrite Hnets', elem_of_app, list_elem_of_singleton.
        intros [Hn | ->]; apply Hd', Hdom3; [right|by left].
        by apply (nets_alloc s Hc).
      * intros n. rewrite Hnets', elem_of_app, list_elem_of_singleton.
        intros [Hn | ->].
        -- destruct (decide (n = nB)) as [->|Hne].
           ++ rewrite HwK. apply NoDup_filter. by apply Hc.
           ++ rewrite Hwo; [by apply Hc | done | by intros ->].
        -- rewrite HwM. apply NoDup_filter. by apply Hc.
      * intros n w. rewrite Hnets', elem_of_app, list_elem_of_singleton.
        rewrite Hnetw. intros [Hn | ->].
        -- destruct (decide (n = nB)) as [->|Hne].
           ++ rewrite HwK, list_elem_of_filter. intros [Hwl HwN].
              rewrite decide_False by tauto. by apply (wire_net s Hc).
           ++ rewrite Hwo; [|done|by intros ->]. intros Hw.
              rewrite decide_False; [by apply (wire_net s Hc)|].
              intros [HwN _]. apply Hne. by apply (nets_disjoint s n nB w).
        -- rewrite HwM, HinM. intros Hw. by rewrite decide_True.
      * intros n w x. rewrite Hnets', elem_of_app, list_elem_of_singleton.
        rewrite Hreach'. intros [Hn | ->].
        -- destruct (decide (n = nB)) as [->|Hne].
           ++ rewrite !HwK, !list_elem_of_filter. intros [Hwl HwN].
              apply Hl_reach in Hwl. split.
              ** intros Hwx. split.
                 --- apply Hl_reach. by apply (reachable_trans s1 a w x).
                 --- apply (reach_in_net s nB w x); auto.
              ** intros [Hxl _]. apply Hl_reach in Hxl.
                 apply (reachable_trans s1 w a x); auto.
           ++ rewrite !Hwo; [|done|by intros ->].
              intros Hw. split.
              ** intros Hwx. apply (reach_in_net s n w x); auto.
              ** intros Hx.
                 destruct (Hsplit w x (in_same_net s n w x Hc Hn Hw Hx))
                   as [H1 | [[H1 H2] | [H1 H2]]]; [done| |]; exfalso.
                 --- apply Hne. apply (nets_disjoint s n nB x); auto.
                     apply (reach_in_net s nB b x); auto.
                 --- apply Hne. apply (nets_disjoint s n nB b); auto.
                     apply (reach_in_net s n w b); auto.
        -- rewrite !HwM, !HinM. intros [HwN Hwl]. split.
           ++ intros Hwx. split.
              ** apply (reach_in_net s nB w x); auto.
              ** intros Hxl%Hl_reach. apply Hwl, Hl_reach.
                 apply (reachable_trans s1 a x w); auto.
           ++ intros [HxN Hxl].
              destruct (Hsplit w x (in_same_net s nB w x Hc HnB HwN HxN))
                as [H1 | [[H1 H2] | [H1 H2]]]; [done| |]; exfalso.
              ** apply Hwl, Hl_reach. auto.
              ** by apply Hxl, Hl_reach.
    + intros w. rewrite Hpts'. unfold points_of at 1. rewrite Hw3.
      apply Hpts1.
    + intros w. rewrite Hconn'. unfold connected_wires at 1.
      rewrite Hw3. apply Hconn1.
    + intros w. rewrite !elem_of_wires. split.
      * intros (n & Hn & Hw). rewrite Hnets', elem_of_app,
          list_elem_of_singleton in Hn. destruct Hn as [Hn | ->].
        -- destruct (decide (n = nB)) as [->|Hne].
           ++ rewrite HwK, list_elem_of_filter in Hw. exists nB. tauto.
           ++ rewrite Hwo in Hw; [by exists n | done | by intros ->].
        -- rewrite HwM, HinM in Hw. exists nB. tauto.
      * intros (n & Hn & Hw). destruct (decide (n = nB)) as [->|Hne].
        -- destruct (decide (w ∈ l)) as [Hwl|Hwl].
           ++ exists nB. rewrite Hnets', elem_of_app, HwK, list_elem_of_filter.
              tauto.
           ++ exists newNet.
              rewrite Hnets', elem_of_app, list_elem_of_singleton, HwM, HinM.
              tauto.
        -- exists n. rewrite Hnets', elem_of_app.
           rewrite Hwo; [tauto | done | by intros ->].
    + by rewrite Hcs', Hcs3.
    + intros x. by rewrite Hreach'.
    + intros n Hn. rewrite HnetB in Hn. injection Hn as <-.
      right. split; [done|]. exists newNet.
      split; [done|]. split; [done|]. split; [done|]. split; [done|].
      split; [|done]. intros n0 ? ?. by apply Hwo.
  - (* the net of [b] stays as it is *)
    assert (Hlen : length N = length l) by lia. clear Hcount.
    exists s1, l. split; [done|].
    split; [|split; [done|split; [done|split; [done|split; [done|
      split; [done|split; [done|]]]]]]].
    + apply (consistent_same_nets s); try done.
      intros n w x Hn Hw. split; [apply Hsub|]. intros Hwx.
      assert (Hxn : x ∈ WireNet.wires s n)
        by (apply (reach_in_net s n w x); auto).
      assert (Hboth : a ∈ WireNet.wires s n → b ∈ WireNet.wires s n →
                      reachable s1 w x).
      { intros Han Hbn.
        assert (n = nA) as -> by by apply (nets_disjoint s n nA a).
        assert (nA = nB) as Heq by by apply (nets_disjoint s nA nB b).
        assert (Hall : ∀ y, y ∈ N → y ∈ l).
        { apply NoDup_same_length; [done| |done].
          intros y Hy. unfold N. rewrite <- Heq. by apply Hl_A. }
        unfold N in Hall. rewrite <- Heq in Hall.
        apply (reachable_trans s1 w a x).
        - apply Hsym, Hl_reach, Hall. done.
        - apply Hl_reach, Hall. done. }
      destruct (Hsplit w x Hwx) as [H1 | [[H1 H2] | [H1 H2]]]; [done| |].
      * apply Hboth.
        -- apply (reach_in_net s n w a); auto.
        -- apply (reach_in_net s n x b); auto.
      * apply Hboth.
        -- apply (reach_in_net s n x a); auto.
        -- apply (reach_in_net s n w b); auto.
    + intros n Hn. rewrite HnetB in Hn. injection Hn as <-. left. done.
Qed.

(** ** Sequences of calls *)





(** A scene without connections in which every net holds one wire, which
    points back at it, is consistent. *)
Lemma consistent_unconnected s :
  map_Forall (λ _ W, _connectedWires W = []) (wire_store s) →
  NoDup (_nets s) →
  Forall (λ n, n ∈ dom (net_store s)) (_nets s) →
  Forall (λ n, ∃ w, WireNet.wires s n = [w] ∧ _net (wire_of s w) = Some n)
         (_nets s) →
  consistent s.
Proof.
  intros Hconn Hnd Hdom Hnets.
  assert (Hno : ∀ u v, ¬ linked s u v).
  { assert (∀ u, _connectedWires (wire_of s u) = []) as He.
    { intros u. unfold wire_of. rewrite lookup_total_alt.
      destruct (wire_store s !! u) as [W|] eqn:HW; [|done].
      by apply (Hconn u W). }
    intros u v [H|H]; rewrite He in H; by apply elem_of_nil in H. }
  assert (Hreach : ∀ u v, reachable s u v ↔ u = v).
  { intros u v. split; [|by intros ->].
    intros H. destruct H as [|u w v Huw _]; [done|]. by apply Hno in Huw. }
  rewrite Forall_forall in Hdom. rewrite Forall_forall in Hnets.
  split; [done|done| | |].
  - intros n Hn. destruct (Hnets n Hn) as (w & -> & _). apply NoDup_singleton.
  - intros n w Hn. destruct (Hnets n Hn) as (w' & -> & Hw').
    by intros ->%list_elem_of_singleton.
  - intros n w x Hn. destruct (Hnets n Hn) as (w' & -> & Hw').
    intros ->%list_elem_of_singleton.
    rewrite Hreach, list_elem_of_singleton. split; congruence.
Qed.

Lemma consistent_three_wire_scene : consistent three_wire_scene.
Proof.
  apply consistent_unconnected.
  - compute_done.
  - compute_done.
  - compute_done.
  - vm_compute _nets. repeat constructor.
    + exists 0%nat. vm_compute. done.
    + exists 1%nat. vm_compute. done.
    + exists 2%nat. vm_compute. done.
Qed.








(** ** Generating the junctions *)

Lemma for_each_invariant {A S} (P : list A → S → Prop) (body : A → S → option S)
    (l : list A) (s : S) :
  P [] s →
  (∀ pre a s, P pre s → a ∈ l →
     ∃ s', body a s = Some s' ∧ P (pre ++ [a]) s') →
  ∃ s', for_each l body s = Some s' ∧ P l s'.
Proof.
  intros H0 Hstep.
  assert (∀ rest pre s, P pre s → (∀ a, a ∈ rest → a ∈ l) →
            ∃ s', for_each rest body s = Some s' ∧ P (pre ++ rest) s') as Hgen.
  { induction rest as [|a rest IH]; intros pre s1 Hp Hin.
    - exists s1. by rewrite app_nil_r.
    - destruct (Hstep pre a s1 Hp) as (s2 & Hs2 & Hp2); [apply Hin; by left|].
      destruct (IH (pre ++ [a]) s2 Hp2) as (s3 & Hs3 & Hp3).
      { intros x Hx. apply Hin. by right. }
      exists s3. rewrite for_each_cons, Hs2. simpl. split; [done|].
      by rewrite <- app_assoc in Hp3. }
  apply (Hgen l [] s H0). auto.
Qed.

Lemma coords_setPointIsJunction B i b s w :
  coords_of (update_wire B (Wire.setPointIsJunction i b) s) w = coords_of s w.
Proof.
  unfold coords_of. rewrite wire_of_update_wire.
  destruct (decide (B = w)) as [->|?]; [|done].
  apply toPointF_setPointIsJunction.
Qed.

Lemma connected_wires_setPointIsJunction B i b s w :
  connected_wires (update_wire B (Wire.setPointIsJunction i b) s) w
  = connected_wires s w.
Proof.
  unfold connected_wires. rewrite wire_of_update_wire.
  destruct (decide (B = w)) as [->|?]; [|done].
  unfold Wire.setPointIsJunction. by case_bool_decide.
Qed.

Lemma net_setPointIsJunction B i b s w :
  _net (wire_of (update_wire B (Wire.setPointIsJunction i b) s) w)
  = _net (wire_of s w).
Proof.
  rewrite wire_of_update_wire.
  destruct (decide (B = w)) as [->|?]; [|done].
  unfold Wire.setPointIsJunction. by case_bool_decide.
Qed.

Lemma consistent_setPointIsJunction B i b s :
  consistent s → consistent (update_wire B (Wire.setPointIsJunction i b) s).
Proof.
  intros Hc. apply (consistent_same_nets s); try done.
  - apply net_setPointIsJunction.
  - intros n w x _ _. apply reachable_iff.
    apply connected_wires_setPointIsJunction.
Qed.

Lemma count_coords s w :
  QVector.count (coords_of s w) = Wire.points_count (wire_of s w).
Proof.
  unfold coords_of, Wire.pointsAbsolute, Wire.points_count, QVector.count.
  by rewrite length_fmap.
Qed.

Lemma junction_at_setPointIsJunction B i s w j :
  junction_at (update_wire B (Wire.setPointIsJunction i true) s) w j = true
  ↔ junction_at s w j = true
    ∨ (w = B ∧ j = i ∧ 0 ≤ i < QVector.count (coords_of s B)).
Proof.
  unfold junction_at, points_of. rewrite wire_of_update_wire, count_coords.
  destruct (decide (B = w)) as [->|Hne]; [|naive_solver].
  unfold Wire.setPointIsJunction. case_bool_decide as Hr; [naive_solver lia|].
  simpl. destruct (decide (j = i)) as [->|Hji].
  - rewrite at_lookup by lia. rewrite list_lookup_alter_eq.
    destruct (lookup_lt_is_Some_2 (_points (wire_of s w)) (Z.to_nat i))
      as [p Hp]; [unfold Wire.points_count, QVector.count in *; lia|].
    rewrite Hp. simpl. split; [intros _; right; lia | done].
  - destruct (decide (0 ≤ j)) as [Hj|Hj].
    + rewrite !at_lookup by lia. rewrite list_lookup_alter_ne by lia.
      naive_solver.
    + rewrite !at_neg by lia. naive_solver.
Qed.

(** One "connect and flag": the wires are connected and the point is flagged
    exactly when the point was found on the wire. *)
Lemma connect_and_flag_spec hit A B i s :
  consistent s → A ∈ wire_manager.wires s → B ∈ wire_manager.wires s →
  0 ≤ i < QVector.count (coords_of s B) →
  ∃ s', connect_and_flag hit A B i s = Some s'
    ∧ consistent s'
    ∧ (∀ w, coords_of s' w = coords_of s w)
    ∧ (∀ w, w ∈ wire_manager.wires s' ↔ w ∈ wire_manager.wires s)
    ∧ (∀ X Y, Y ∈ connected_wires s' X
              ↔ Y ∈ connected_wires s X ∨ (X = A ∧ Y = B ∧ hit = true))
    ∧ (∀ w j, junction_at s' w j = true
              ↔ junction_at s w j = true ∨ (w = B ∧ j = i ∧ hit = true)).
Proof.
  intros Hc HA HB Hi. unfold connect_and_flag. destruct hit.
  - destruct (connectWire_spec s A B Hc HA HB)
      as (s1 & Hs1 & Hc1 & Hpts1 & Hconn1 & Hw1 & _ & _).
    rewrite Hs1. simpl. eexists. split; [done|].
    assert (Hco1 : ∀ w, coords_of s1 w = coords_of s w).
    { intros w. unfold coords_of, Wire.pointsAbsolute.
      fold (points_of s1 w). fold (points_of s w). by rewrite Hpts1. }
    split; [by apply consistent_setPointIsJunction|].
    split; [intros w; by rewrite coords_setPointIsJunction|].
    split; [done|]. split.
    + intros X Y. rewrite connected_wires_setPointIsJunction, Hconn1.
      destruct (decide (X = A ∧ B ∉ connected_wires s A)) as [[-> Hn]|Hn].
      * rewrite elem_of_app, list_elem_of_singleton. naive_solver.
      * split; [by left|]. intros [?|(-> & -> & _)]; [done|].
        destruct (decide (B ∈ connected_wires s A)); [done | tauto].
    + intros w j. rewrite junction_at_setPointIsJunction, Hco1.
      unfold junction_at. rewrite Hpts1. naive_solver.
  - exists s. split; [done|]. split; [done|]. split; [done|]. split; [done|].
    split; naive_solver.
Qed.

Lemma connect_and_flag_last_eq hit A B s :
  consistent s → A ∈ wire_manager.wires s → B ∈ wire_manager.wires s →
  connect_and_flag_last hit A B s
  = connect_and_flag hit A B (QVector.count (coords_of s B) - 1) s.
Proof.
  intros Hc HA HB. destruct hit; [|done].
  destruct (connectWire_spec s A B Hc HA HB) as (s1 & Hs1 & _ & Hpts & _).
  unfold connect_and_flag_last, connect_and_flag. rewrite Hs1. simpl.
  unfold update_wire. do 3 f_equal.
  rewrite count_coords. unfold Wire.points_count.
  fold (points_of s1 B). fold (points_of s B). by rewrite Hpts.
Qed.

Section junctions.
Variable containsPoint : Line → QPointF → Z → bool.

Lemma pointIsOnWire_coords s s' A p :
  coords_of s' A = coords_of s A →
  Wire.pointIsOnWire containsPoint (wire_of s' A) p
  = Wire.pointIsOnWire containsPoint (wire_of s A) p.
Proof.
  unfold Wire.pointIsOnWire, Wire.line_segments, coords_of. by intros ->.
Qed.

Lemma first_coords s B :
  QVector.first (coords_of s B)
  = point.toPointF <$> QVector.first (_points (wire_of s B)).
Proof.
  unfold QVector.first, coords_of, Wire.pointsAbsolute.
  rewrite !at_lookup by lia. by rewrite list_lookup_fmap.
Qed.

Lemma last_coords s B :
  QVector.last (coords_of s B)
  = point.toPointF <$> QVector.last (_points (wire_of s B)).
Proof.
  unfold QVector.last, coords_of, Wire.pointsAbsolute, QVector.count.
  rewrite length_fmap.
  destruct (decide (0 ≤ Z.of_nat (length (_points (wire_of s B))) - 1)).
  - rewrite !at_lookup by lia. by rewrite list_lookup_fmap.
  - by rewrite !at_neg by lia.
Qed.

Lemma first_on_coords s s' A B :
  (∀ w, coords_of s' w = coords_of s w) →
  first_on containsPoint s' A B = first_on containsPoint s A B.
Proof.
  intros H. unfold first_on. rewrite H. destruct (QVector.first _); [|done].
  by apply pointIsOnWire_coords.
Qed.

Lemma last_on_coords s s' A B :
  (∀ w, coords_of s' w = coords_of s w) →
  last_on containsPoint s' A B = last_on containsPoint s A B.
Proof.
  intros H. unfold last_on. rewrite H. destruct (QVector.last _); [|done].
  by apply pointIsOnWire_coords.
Qed.

Lemma generateJunctions_pair_unfold A B s :
  A ≠ B →
  wire_manager.generateJunctions_pair containsPoint A B s =
  f ← QVector.first (_points (wire_of s B));
  s1 ← connect_and_flag
         (Wire.pointIsOnWire containsPoint (wire_of s A) (point.toPointF f))
         A B 0 s;
  l ← QVector.last (_points (wire_of s1 B));
  connect_and_flag_last
    (Wire.pointIsOnWire containsPoint (wire_of s1 A) (point.toPointF l))
    A B s1.
Proof.
  intros Hne. unfold wire_manager.generateJunctions_pair.
  by rewrite decide_False by done.
Qed.

(** One pair of wires: [B] is connected to [A] and its end points are
    flagged exactly where they lie on [A]. *)
Lemma generateJunctions_pair_spec s A B :
  consistent s → A ∈ wire_manager.wires s → B ∈ wire_manager.wires s →
  A ≠ B → coords_of s B ≠ [] →
  ∃ s', wire_manager.generateJunctions_pair containsPoint A B s = Some s'
    ∧ consistent s'
    ∧ (∀ w, coords_of s' w = coords_of s w)
    ∧ (∀ w, w ∈ wire_manager.wires s' ↔ w ∈ wire_manager.wires s)
    ∧ (∀ X Y, Y ∈ connected_wires s' X
              ↔ Y ∈ connected_wires s X
                ∨ (X = A ∧ Y = B
                   ∧ (first_on containsPoint s A B = true
                      ∨ last_on containsPoint s A B = true)))
    ∧ (∀ w j, junction_at s' w j = true
              ↔ junction_at s w j = true
                ∨ (w = B
                   ∧ ((j = 0 ∧ first_on containsPoint s A B = true)
                      ∨ (j = QVector.count (coords_of s B) - 1
                         ∧ last_on containsPoint s A B = true)))).
Proof.
  intros Hc HA HB Hne Hpts.
  assert (Hcount : 0 < QVector.count (coords_of s B)).
  { unfold QVector.count. destruct (coords_of s B); [done | simpl; lia]. }
  rewrite generateJunctions_pair_unfold by done.
  destruct (at_is_Some (_points (wire_of s B)) 0) as [f Hf].
  { fold (Wire.points_count (wire_of s B)). rewrite <- count_coords. lia. }
  fold (QVector.first (_points (wire_of s B))) in Hf. rewrite Hf. simpl.
  assert (Hfirst : Wire.pointIsOnWire containsPoint (wire_of s A)
                     (point.toPointF f)
                   = first_on containsPoint s A B).
  { unfold first_on. by rewrite first_coords, Hf. }
  rewrite Hfirst.
  destruct (connect_and_flag_spec (first_on containsPoint s A B) A B 0 s
              Hc HA HB)
    as (s1 & Hs1 & Hc1 & Hco1 & Hw1 & Hconn1 & Hfl1); [lia|].
  rewrite Hs1. simpl.
  destruct (at_is_Some (_points (wire_of s1 B))
              (QVector.count (_points (wire_of s1 B)) - 1)) as [l Hl].
  { fold (Wire.points_count (wire_of s1 B)).
    rewrite <- count_coords, Hco1. lia. }
  fold (QVector.last (_points (wire_of s1 B))) in Hl. rewrite Hl. simpl.
  assert (Hlast : Wire.pointIsOnWire containsPoint (wire_of s1 A)
                    (point.toPointF l)
                  = last_on containsPoint s A B).
  { rewrite <- (last_on_coords s s1 A B Hco1).
    unfold last_on. by rewrite last_coords, Hl. }
  rewrite Hlast.
  rewrite connect_and_flag_last_eq; [|done|by apply Hw1|by apply Hw1].
  destruct (connect_and_flag_spec (last_on containsPoint s A B) A B
              (QVector.count (coords_of s1 B) - 1) s1 Hc1)
    as (s2 & Hs2 & Hc2 & Hco2 & Hw2 & Hconn2 & Hfl2);
    [by apply Hw1 | by apply Hw1 | rewrite Hco1; lia |].
  exists s2. split; [done|]. split; [done|].
  split; [intros w; by rewrite Hco2, Hco1|].
  split; [intros w; by rewrite Hw2, Hw1|].
  split.
  - intros X Y. rewrite Hconn2, Hconn1. naive_solver.
  - intros w j. rewrite Hfl2, Hfl1, Hco1. naive_solver.
Qed.

End junctions.

Section generateJunctions.
Variable containsPoint : Line → QPointF → Z → bool.

Lemma junctions_generated_proper s0 (D D' : WireId → WireId → Prop) s :
  (∀ A B, D A B ↔ D' A B) →
  junctions_generated containsPoint s0 D s →
  junctions_generated containsPoint s0 D' s.
Proof.
  intros HD [H1 H2 H3 H4 H5]. split; try done.
  - intros A B. rewrite H4, HD. done.
  - intros B i. rewrite H5. split; intros [?|(A & HA & ?)]; [by left| |by left|];
      right; exists A; (split; [by apply HD | done]).
Qed.

Lemma junctions_generated_start s0 :
  consistent s0 →
  junctions_generated containsPoint s0 (λ _ _, False) s0.
Proof. intros Hc. split; try done; naive_solver. Qed.

(** The step of the inner loop at the pair ([A], [B]). *)
Lemma generateJunctions_pair_step s0 D s A B :
  (∀ w, w ∈ wire_manager.wires s0 → coords_of s0 w ≠ []) →
  junctions_generated containsPoint s0 D s →
  A ∈ wire_manager.wires s0 → B ∈ wire_manager.wires s0 →
  ∃ s', wire_manager.generateJunctions_pair containsPoint A B s = Some s'
    ∧ junctions_generated containsPoint s0
        (λ X Y, D X Y ∨ (X = A ∧ Y = B)) s'.
Proof.
  intros Hpts [Hc Hco Hw Hconn Hfl] HA HB.
  destruct (decide (A = B)) as [<-|Hne].
  { exists s. unfold wire_manager.generateJunctions_pair.
    rewrite decide_True by done. split; [done|]. split; try done.
    - intros X Y. rewrite Hconn. clear. split; [tauto|].
      intros [?|([?|[-> ->]] & Hn & ?)]; [tauto | tauto | done].
    - intros Y i. rewrite Hfl. clear. split.
      + intros [?|(A0 & ? & ?)]; [by left|]. right. exists A0. tauto.
      + intros [?|(A0 & [?|[-> ->]] & Hn & ?)]; [by left | | done].
        right. exists A0. tauto. }
  destruct (generateJunctions_pair_spec containsPoint s A B)
    as (s' & Hs' & Hc' & Hco' & Hw' & Hconn' & Hfl'); try done.
  { by apply Hw. } { by apply Hw. } { rewrite Hco. by apply Hpts. }
  exists s'. split; [done|].
  rewrite (first_on_coords _ s0 s A B Hco) in Hconn', Hfl'.
  rewrite (last_on_coords _ s0 s A B Hco) in Hconn', Hfl'.
  split; [done| | | |].
  - intros w. by rewrite Hco', Hco.
  - intros w. by rewrite Hw', Hw.
  - intros X Y. rewrite Hconn', Hconn. clear -Hne. split.
    + intros [[?|(?&?&?)]|(-> & -> & ?)];
        [by left | right; tauto | right; tauto].
    + intros [?|([?|[-> ->]] & ? & ?)]; [tauto | tauto | right; tauto].
  - intros Y i. rewrite Hfl', Hfl, Hco. clear -Hne. split.
    + intros [[?|(A0 & ? & ? & ?)]|(-> & ?)];
        [by left | right; exists A0; tauto | right; exists A; tauto].
    + intros [?|(A0 & [?|[-> ->]] & ? & ?)];
        [tauto | left; right; exists A0; tauto | right; tauto].
Qed.

(** The inner loop for the wire [A]. *)
Lemma generateJunctions_inner s0 D s A :
  (∀ w, w ∈ wire_manager.wires s0 → coords_of s0 w ≠ []) →
  junctions_generated containsPoint s0 D s →
  A ∈ wire_manager.wires s0 →
  ∃ s', for_each (wire_manager.wires s)
          (λ otherWire s,
             wire_manager.generateJunctions_pair containsPoint A otherWire s)
          s = Some s'
    ∧ junctions_generated containsPoint s0
        (λ X Y, D X Y ∨ (X = A ∧ Y ∈ wire_manager.wires s0)) s'.
Proof.
  intros Hpts Hjg HA.
  destruct (for_each_invariant
              (λ pre s, junctions_generated containsPoint s0
                          (λ X Y, D X Y ∨ (X = A ∧ Y ∈ pre)) s)
              (λ otherWire s,
                 wire_manager.generateJunctions_pair containsPoint A otherWire s)
              (wire_manager.wires s) s) as (s' & Hs' & Hjg').
  - eapply junctions_generated_proper; [|exact Hjg].
    intros X Y. split; [by left|]. intros [?|[_ ?%elem_of_nil]]; done.
  - intros pre B s1 Hjg1 HB.
    destruct (generateJunctions_pair_step s0 _ s1 A B Hpts Hjg1 HA)
      as (s2 & Hs2 & Hjg2); [by apply (jg_wires _ _ _ _ Hjg)|].
    exists s2. split; [done|].
    eapply junctions_generated_proper; [|exact Hjg2].
    intros X Y. simpl. rewrite elem_of_app, list_elem_of_singleton.
    naive_solver.
  - exists s'. split; [done|].
    eapply junctions_generated_proper; [|exact Hjg'].
    intros X Y. simpl. by rewrite (jg_wires _ _ _ _ Hjg).
Qed.

Lemma generateJunctions_spec s0 :
  consistent s0 →
  (∀ w, w ∈ wire_manager.wires s0 → coords_of s0 w ≠ []) →
  ∃ s', wire_manager.generateJunctions containsPoint s0 = Some s'
    ∧ junctions_generated containsPoint s0
        (λ X Y, X ∈ wire_manager.wires s0 ∧ Y ∈ wire_manager.wires s0) s'.
Proof.
  intros Hc Hpts. unfold wire_manager.generateJunctions.
  destruct (for_each_invariant
              (λ pre s, junctions_generated containsPoint s0
                          (λ X Y, X ∈ pre ∧ Y ∈ wire_manager.wires s0) s)
              (λ wire s,
                 for_each (wire_manager.wires s)
                   (λ otherWire s,
                      wire_manager.generateJunctions_pair containsPoint
                        wire otherWire s) s)
              (wire_manager.wires s0) s0) as (s' & Hs' & Hjg').
  - eapply junctions_generated_proper;
      [|exact (junctions_generated_start s0 Hc)].
    intros X Y. simpl. split; [done|]. by intros [?%elem_of_nil _].
  - intros pre A s1 Hjg1 HA.
    destruct (generateJunctions_inner s0 _ s1 A Hpts Hjg1 HA)
      as (s2 & Hs2 & Hjg2).
    exists s2. split; [done|].
    eapply junctions_generated_proper; [|exact Hjg2].
    intros X Y. simpl. rewrite elem_of_app, list_elem_of_singleton.
    naive_solver.
  - by exists s'.
Qed.



End generateJunctions.

Lemma consistent_two_wire_scene : consistent two_wire_scene.
Proof.
  apply consistent_unconnected.
  - compute_done.
  - compute_done.
  - compute_done.
  - vm_compute _nets. repeat constructor.
    + exists 0%nat. vm_compute. done.
    + exists 1%nat. vm_compute. done.
Qed.

Lemma two_wire_scene_points w :
  w ∈ wire_manager.wires two_wire_scene → coords_of two_wire_scene w ≠ [].
Proof.
  intros Hw. vm_compute in Hw.
  apply elem_of_cons in Hw as [->|Hw]; [by vm_compute|].
  apply elem_of_cons in Hw as [->|Hw]; [by vm_compute|].
  by apply elem_of_nil in Hw.
Qed.



(** ** Disconnecting splits the net *)

Lemma junction_scene_eq :
  wire_manager.generateJunctions line.containsPoint two_wire_scene
  = Some junction_scene.
Proof. vm_compute. reflexivity. Qed.

Lemma consistent_junction_scene : consistent junction_scene.
Proof.
  destruct (generateJunctions_spec line.containsPoint two_wire_scene
              consistent_two_wire_scene two_wire_scene_points)
    as (s' & Hs' & [Hc _ _ _ _]).
  rewrite junction_scene_eq in Hs'. by injection Hs' as <-.
Qed.

(** C3 (amended): [a] and [b] are wires of one net and [a] holds [b] in its
    connections. [disconnectWire(a, b)] returns; it takes [b] out of the
    connections of [a] and leaves every other list of connections, also
    that of [b], and every point with its junction flag as they are. If all
    wires of the net are still reachable from [a], the nets stay as they
    are. If a wire of the net is no more reachable from [a], a new net is
    registered with the manager; it receives exactly the wires of the net
    that are not reachable from [a], which point back at it, and the old net
    keeps exactly those reachable from [a]. *)
Theorem disconnectWire_splits_the_net s a b n :
  consistent s → n ∈ _nets s →
  a ∈ WireNet.wires s n → b ∈ WireNet.wires s n →
  b ∈ connected_wires s a →
  ∃ s', wire_manager.disconnectWire a b s = Some s'
    ∧ connected_wires s' a = QVector.removeAll b (connected_wires s a)
    ∧ (b ∉ connected_wires s' a)
    ∧ (∀ w, w ≠ a → connected_wires s' w = connected_wires s w)
    ∧ (∀ w, points_of s' w = points_of s w)
    ∧ ((∀ x, x ∈ WireNet.wires s n → reachable s' a x) →
       _nets s' = _nets s ∧ ∀ n0, WireNet.wires s' n0 = WireNet.wires s n0)
    ∧ ((∃ x, x ∈ WireNet.wires s n ∧ ¬ reachable s' a x) →
       ∃ newNet,
         (newNet ∉ _nets s)
         ∧ _nets s' = _nets s ++ [newNet]
         ∧ (∀ x, x ∈ WireNet.wires s' newNet
                 ↔ x ∈ WireNet.wires s n ∧ ¬ reachable s' a x)
         ∧ (∀ x, x ∈ WireNet.wires s' n
                 ↔ x ∈ WireNet.wires s n ∧ reachable s' a x)
         ∧ (∀ n0, n0 ≠ n → n0 ≠ newNet →
                  WireNet.wires s' n0 = WireNet.wires s n0)
         ∧ (∀ x, x ∈ WireNet.wires s' newNet →
                 _net (wire_of s' x) = Some newNet)).
Proof.
  intros Hc Hn Ha Hb Hlink.
  assert (HA : a ∈ wire_manager.wires s) by (apply elem_of_wires; eauto).
  assert (HB : b ∈ wire_manager.wires s) by (apply elem_of_wires; eauto).
  destruct (disconnectWire_spec s a b Hc HA HB)
    as (s' & l & Hs' & Hc' & Hpts & Hconn & Hw & _ & Hnd & Hl & Hcase).
  exists s'. split; [done|].
  assert (Hca : connected_wires s' a
                = QVector.removeAll b (connected_wires s a)).
  { by rewrite Hconn, decide_True. }
  split; [done|].
  split; [rewrite Hca, elem_of_removeAll; tauto|].
  split; [intros w Hw'; by rewrite Hconn, decide_False|].
  split; [done|].
  assert (Hla : a ∈ l) by (apply Hl; done).
  destruct (Hcase n (wire_net s Hc n b Hn Hb))
    as [(Hlen & Hnets & Hwires & Hnet) | (Hlen & newNet & Hnew & Hnets & HwM
                                          & HwK & Hwo & Hnet)].
  - split; [done|]. intros (x & Hx & Hnx). exfalso. apply Hnx, Hl.
    apply (NoDup_same_length l (WireNet.wires s n)); try done.
    intros y Hy%Hl. rewrite <- Hwires.
    apply (reach_in_net s' n a y); try done; [by rewrite Hnets|].
    by rewrite Hwires.
  - assert (HaK : a ∈ WireNet.wires s' n).
    { rewrite HwK, list_elem_of_filter. done. }
    assert (Hn' : n ∈ _nets s').
    { rewrite Hnets, elem_of_app. by left. }
    split.
    + intros Hall. exfalso. apply Hlen.
      apply Permutation_length. symmetry.
      apply NoDup_Permutation; [done | by apply Hc|].
      intros x. split.
      * intros Hx%Hl.
        apply (reach_in_net s' n a x Hc' Hn' HaK) in Hx.
        rewrite HwK, list_elem_of_filter in Hx. tauto.
      * intros Hx. by apply Hl, Hall.
    + intros _. exists newNet. split; [done|]. split; [done|].
      split; [|split; [|split; [done|]]].
      * intros x. rewrite HwM, list_elem_of_filter, Hl. tauto.
      * intros x. rewrite HwK, list_elem_of_filter, Hl. tauto.
      * intros x. rewrite HwM, list_elem_of_filter. intros [Hxl HxN].
        rewrite Hnet. by rewrite decide_True.
Qed.

Lemma disconnectWire_splits_the_net_witness :
  (consistent junction_scene
   ∧ 0%nat ∈ _nets junction_scene
   ∧ 0%nat ∈ WireNet.wires junction_scene 0%nat
   ∧ 1%nat ∈ WireNet.wires junction_scene 0%nat
   ∧ 1%nat ∈ connected_wires junction_scene 0%nat)
  ∧ ∃ s', wire_manager.disconnectWire 0%nat 1%nat junction_scene = Some s'
          ∧ (1%nat ∉ connected_wires s' 0%nat)
          ∧ ∀ w, points_of s' w = points_of junction_scene w.
Proof.
  assert (H1 : 0%nat ∈ _nets junction_scene)
    by (vm_compute; repeat constructor).
  assert (H2 : 0%nat ∈ WireNet.wires junction_scene 0%nat)
    by (vm_compute; repeat constructor).
  assert (H3 : 1%nat ∈ WireNet.wires junction_scene 0%nat)
    by (vm_compute; repeat constructor).
  assert (H4 : 1%nat ∈ connected_wires junction_scene 0%nat)
    by (vm_compute; repeat constructor).
  split; [exact (conj consistent_junction_scene
                   (conj H1 (conj H2 (conj H3 H4))))|].
  destruct (disconnectWire_splits_the_net junction_scene 0%nat 1%nat 0%nat
              consistent_junction_scene H1 H2 H3 H4)
    as (s' & Hs' & _ & Hnot & _ & Hpts & _).
  exists s'. split; [exact Hs'|]. split; [exact Hnot | exact Hpts].
Defined.

(** C3 (counterexample): W1 and W2 joined by [generateJunctions], then
    [disconnectWire(W1, W2)]: W2 is in a net of its own, and the junction
    flag of its first point, set when the wires were joined, is still
    set. *)
Lemma disconnectWire_keeps_the_junction_flag :
  ∃ s', wire_manager.disconnectWire 0%nat 1%nat junction_scene = Some s'
        ∧ junction_at junction_scene 1%nat 0 = true
        ∧ _net (wire_of junction_scene 0%nat)
          = _net (wire_of junction_scene 1%nat)
        ∧ _net (wire_of s' 0%nat) ≠ _net (wire_of s' 1%nat)
        ∧ junction_at s' 1%nat 0 = true.
Proof.
  eexists. split; [vm_compute; reflexivity|].
  vm_compute. repeat split; done.
Qed.

(** Two wires that [connectWire] has linked in both directions stay
    connected, in one net, after one [disconnectWire]: the entry held by the
    other wire is left. *)
Lemma disconnectWire_leaves_the_reverse_link :
  ∃ s s', run_calls [connect_wire 0 1; connect_wire 1 0]%nat two_wire_scene
          = Some s
          ∧ wire_manager.disconnectWire 0%nat 1%nat s = Some s'
          ∧ connected_wires s' 1%nat = [0%nat]
          ∧ _net (wire_of s' 0%nat) = _net (wire_of s' 1%nat).
Proof.
  eexists. eexists. split; [vm_compute; reflexivity|].
  split; [vm_compute; reflexivity|]. vm_compute. done.
Qed.


(** * Further properties of the wire *)

(** ** The list of connected wires of one wire *)

Lemma set_connectedWires_id w : set_connectedWires (_connectedWires w) w = w.
Proof. by destruct w. Qed.

Lemma removeAll_app_self (l : list WireId) a :
  a ∉ l → QVector.removeAll a (l ++ [a]) = l.
Proof.
  intros Hl. unfold QVector.removeAll. rewrite filter_app.
  rewrite filter_cons_False by (intros H; by apply H).
  rewrite filter_nil, app_nil_r. apply filter_all.
  intros b Hb ->. done.
Qed.

(** X1: [Wire::connectWire] answers [false] exactly for a wire already in the
    list and then changes nothing; otherwise the wire is stored once, at the
    end. A second [connectWire] of the same wire is refused, and
    [Wire::disconnectWire] after a successful [connectWire] gives back the
    wire as it was. *)
Theorem connectWire_then_disconnectWire other w :
  let r := Wire.connectWire other w in
  (r.1 = false ↔ other ∈ _connectedWires w)
  ∧ (r.1 = false → r.2 = w)
  ∧ (r.1 = true → _connectedWires r.2 = _connectedWires w ++ [other])
  ∧ Wire.connectWire other r.2 = (false, r.2)
  ∧ (NoDup (_connectedWires w) → NoDup (_connectedWires r.2))
  ∧ (r.1 = true → Wire.disconnectWire other r.2 = w)
  ∧ (other ∉ _connectedWires (Wire.disconnectWire other r.2)).
Proof.
  unfold Wire.connectWire.
  destruct (QVector.contains (_connectedWires w) other) eqn:Hc; simpl.
  - apply contains_true in Hc. rewrite <- (contains_true (_connectedWires w)) in Hc.
    rewrite Hc. apply contains_true in Hc.
    repeat split; try done.
    intros H. apply elem_of_removeAll in H. naive_solver.
  - apply contains_false in Hc.
    assert (QVector.contains (_connectedWires w ++ [other]) other = true) as ->.
    { apply contains_true. set_solver. }
    repeat split; try done.
    + intros Hnd. apply NoDup_app. repeat split; [done| |apply NoDup_singleton].
      intros a Ha Hb. apply list_elem_of_singleton in Hb as ->. done.
    + intros _. unfold Wire.disconnectWire. simpl.
      rewrite removeAll_app_self by done. destruct w; done.
    + intros H. apply elem_of_removeAll in H. naive_solver.
Qed.

(** ** The junction flag of one point *)

Lemma at_alter {A} (f : A → A) (l : list A) (n : nat) i :
  QVector.at_ (alter f n l) i
  = if decide (i = Z.of_nat n) then f <$> QVector.at_ l i else QVector.at_ l i.
Proof.
  unfold QVector.at_. destruct (decide (0 ≤ i)) as [Hi|Hi].
  - destruct (decide (i = Z.of_nat n)) as [->|Hne].
    + rewrite Nat2Z.id. apply list_lookup_alter_eq.
    + apply list_lookup_alter_ne. lia.
  - destruct (decide (i = Z.of_nat n)); [lia|done].
Qed.

(** X2: [setPointIsJunction] leaves the wire alone when the index is out of
    range; otherwise it sets the flag of the point at that index and nothing
    else: the coordinates, the number of points, the flags of the other
    points, the connected wires, the net and the position stay. *)
Theorem setPointIsJunction_sets_one_flag index b w :
  let w' := Wire.setPointIsJunction index b w in
  (index < 0 ∨ Wire.points_count w ≤ index → w' = w)
  ∧ Wire.pointsAbsolute w' = Wire.pointsAbsolute w
  ∧ Wire.points_count w' = Wire.points_count w
  ∧ _connectedWires w' = _connectedWires w
  ∧ _net w' = _net w
  ∧ pos w' = pos w
  ∧ (∀ i, isJunction <$> QVector.at_ (_points w') i
          = if decide (i = index)
            then (λ _, b) <$> QVector.at_ (_points w) i
            else isJunction <$> QVector.at_ (_points w) i).
Proof.
  cbv zeta. split; [apply setPointIsJunction_out|].
  split; [apply toPointF_setPointIsJunction|].
  split; [apply points_count_setPointIsJunction|].
  destruct (decide (index < 0 ∨ Wire.points_count w ≤ index)) as [Hout|Hin].
  - rewrite setPointIsJunction_out by done. repeat split.
    intros i. destruct (decide (i = index)) as [->|]; [|done].
    assert (QVector.at_ (_points w) index = None) as ->; [|done].
    destruct (QVector.at_ (_points w) index) eqn:E; [|done].
    apply at_Some in E. unfold Wire.points_count in Hout. lia.
  - rewrite setPointIsJunction_in by lia. repeat split. simpl.
    intros i. rewrite at_alter.
    destruct (decide (i = index)) as [->|Hne].
    + rewrite decide_True by lia.
      by destruct (QVector.at_ (_points w) index).
    + rewrite decide_False by lia. done.
Qed.

(** ** Adding a point at an end and taking it away again *)

Lemma set_points_id w : set_points (_points w) w = w.
Proof. by destruct w. Qed.

Lemma set_points_twice l l' w :
  set_points l (set_points l' w) = set_points l w.
Proof. done. Qed.

Lemma removeFirstPoint_cons q rest w :
  _points w = q :: rest →
  Wire.removeFirstPoint w = set_points rest w.
Proof.
  intros H. unfold Wire.removeFirstPoint, Wire.points_count, QVector.count.
  rewrite H. rewrite bool_decide_eq_false_2 by (simpl; lia). done.
Qed.

Lemma removeLastPoint_snoc init q w :
  _points w = init ++ [q] →
  Wire.removeLastPoint w = set_points init w.
Proof.
  intros H. unfold Wire.removeLastPoint, Wire.points_count, QVector.count.
  rewrite H. rewrite bool_decide_eq_false_2 by (rewrite length_app; simpl; lia).
  unfold QVector.removeLast. rewrite length_app. simpl.
  replace (length init + 1 - 1)%nat with (length init) by lia.
  by rewrite take_app_length.
Qed.

(** X3: [prependPoint] followed by [removeFirstPoint] gives back the
    coordinates of the wire, but not its flags: [prependPoint] has moved the
    junction flag of the old first point to the new point, which
    [removeFirstPoint] takes away with it. Both calls on a wire without
    points give a wire without points. *)
Theorem removeFirstPoint_after_prependPoint p w :
  ∃ w', Wire.prependPoint p w = Some w'
    ∧ Wire.pointsAbsolute (Wire.removeFirstPoint w') = Wire.pointsAbsolute w
    ∧ _points (Wire.removeFirstPoint w')
      = match _points w with
        | [] => []
        | q :: rest => point.setIsJunction false q :: rest
        end
    ∧ (isJunction <$> QVector.first (_points w')
       = Some (default false (isJunction <$> QVector.first (_points w)))).
Proof.
  destruct (_points w) as [|q rest] eqn:E.
  - rewrite (prependPoint_empty p w E). eexists. split; [done|].
    erewrite removeFirstPoint_cons by done.
    unfold Wire.pointsAbsolute. simpl. rewrite E.
    repeat split.
  - rewrite (prependPoint_transfer p q rest w E). eexists. split; [done|].
    erewrite removeFirstPoint_cons by done.
    unfold Wire.pointsAbsolute. simpl. rewrite E. simpl.
    repeat split.
Qed.

(** X4: [appendPoint] followed by [removeLastPoint] gives back the
    coordinates of the wire. On a wire with fewer than two points it gives
    back the wire itself; on a longer wire the junction flag of the old last
    point is lost, because [appendPoint] has moved it to the new point. *)
Theorem removeLastPoint_after_appendPoint p w :
  ∃ w', Wire.appendPoint p w = Some w'
    ∧ Wire.pointsAbsolute (Wire.removeLastPoint w') = Wire.pointsAbsolute w
    ∧ (Wire.points_count w < 2 → Wire.removeLastPoint w' = w)
    ∧ (2 ≤ Wire.points_count w →
       ∃ init q, _points w = init ++ [q]
         ∧ _points (Wire.removeLastPoint w')
           = init ++ [point.setIsJunction false q]
         ∧ isJunction <$> QVector.last (_points w') = Some (isJunction q)).
Proof.
  destruct (decide (length (_points w) < 2)%nat) as [Hs|Hl].
  - rewrite (appendPoint_short p w Hs). eexists. split; [done|].
    erewrite removeLastPoint_snoc by done.
    rewrite set_points_twice, set_points_id.
    repeat split.
    unfold Wire.points_count, QVector.count. lia.
  - destruct (_points w) as [|a l] eqn:E using rev_ind; [simpl in Hl; lia|].
    clear IHl. rewrite length_app in Hl. simpl in Hl.
    assert (l ≠ []) as Hne by (intros ->; simpl in Hl; lia).
    rewrite (appendPoint_transfer p a l w E Hne). eexists. split; [done|].
    assert (l ++ [point.setIsJunction false a;
                   mkWirePoint (px p) (py p) (isJunction a)]
            = (l ++ [point.setIsJunction false a])
                ++ [mkWirePoint (px p) (py p) (isJunction a)]) as Happ
      by (by rewrite <- app_assoc).
    erewrite removeLastPoint_snoc by (simpl; apply Happ).
    unfold Wire.pointsAbsolute. simpl. rewrite E.
    split; [by rewrite !fmap_app|].
    split.
    { unfold Wire.points_count, QVector.count. rewrite E, length_app.
      simpl. lia. }
    intros _. exists l, a. repeat split.
    unfold QVector.last, QVector.count, QVector.at_.
    rewrite Happ, length_app. simpl.
    rewrite decide_True by lia.
    replace (Z.to_nat (Z.of_nat (length (l ++ [point.setIsJunction false a]) + 1) - 1))
      with (length (l ++ [point.setIsJunction false a])) by lia.
    by rewrite list_lookup_middle.
Qed.

(** ** Points on a wire *)

Lemma elem_of_segments_of (pts : list QPointF) (L : Line) :
  L ∈ Wire.segments_of pts
  ↔ ∃ j : nat, pts !! j = Some (p1 L) ∧ pts !! S j = Some (p2 L).
Proof.
  induction pts as [|a pts IH]; simpl.
  - split; [by intros ?%elem_of_nil|]. by intros (j & ? & ?).
  - destruct pts as [|b pts].
    + split; [by intros ?%elem_of_nil|]. by intros ([|j] & ? & ?).
    + rewrite elem_of_cons, IH. split.
      * intros [->|(j & H1 & H2)]; [by exists 0%nat|]. by exists (S j).
      * intros ([|j] & H1 & H2).
        -- left. simpl in *. destruct L. simpl in *. congruence.
        -- right. by exists j.
Qed.

Lemma length_segments_of (pts : list QPointF) :
  length (Wire.segments_of pts) = (length pts - 1)%nat.
Proof.
  induction pts as [|a pts IH]; [done|].
  destruct pts as [|b pts]; [done|].
  change (Wire.segments_of (a :: b :: pts))
    with (mkLine a b :: Wire.segments_of (b :: pts)).
  simpl length in *. lia.
Qed.

(** X5: a point is on a wire exactly when one of the segments between two
    consecutive points of the wire contains it with tolerance [0]; so no
    point is on a wire that has fewer than two points, not even the point of
    the wire itself. *)
Theorem pointIsOnWire_is_on_a_segment containsPoint w p :
  (Wire.pointIsOnWire containsPoint w p = true
   ↔ ∃ (j : nat) a b,
       Wire.pointsAbsolute w !! j = Some a
       ∧ Wire.pointsAbsolute w !! S j = Some b
       ∧ containsPoint (mkLine a b) p 0 = true)
  ∧ (Wire.points_count w < 2 → Wire.pointIsOnWire containsPoint w p = false)
  ∧ QVector.count (Wire.line_segments w)
    = Z.max 0 (Wire.points_count w - 1).
Proof.
  assert (Wire.pointIsOnWire containsPoint w p = true
   ↔ ∃ (j : nat) a b,
       Wire.pointsAbsolute w !! j = Some a
       ∧ Wire.pointsAbsolute w !! S j = Some b
       ∧ containsPoint (mkLine a b) p 0 = true) as Hiff.
  { unfold Wire.pointIsOnWire, Wire.line_segments.
    rewrite existsb_exists. split.
    - intros (L & HL & Hc). apply list_elem_of_In, elem_of_segments_of in HL.
      destruct HL as (j & H1 & H2). exists j, (p1 L), (p2 L).
      by destruct L.
    - intros (j & a & b & H1 & H2 & Hc). exists (mkLine a b). split; [|done].
      apply list_elem_of_In, elem_of_segments_of. by exists j. }
  split; [done|]. split.
  - intros Hlt. apply not_true_is_false. rewrite Hiff.
    intros (j & a & b & H1 & H2 & _).
    apply lookup_lt_Some in H2. unfold Wire.pointsAbsolute in H2.
    rewrite length_fmap in H2.
    unfold Wire.points_count, QVector.count in Hlt. lia.
  - unfold Wire.line_segments, QVector.count. rewrite length_segments_of.
    unfold Wire.pointsAbsolute, Wire.points_count, QVector.count.
    rewrite length_fmap. lia.
Qed.

(** ** The bounding rectangle *)

Lemma pointsRelative_wirePointsRelative w :
  Wire.pointsRelative w = point.toPointF <$> Wire.wirePointsRelative w.
Proof.
  unfold Wire.pointsRelative, Wire.wirePointsRelative.
  rewrite <- list_fmap_compose. done.
Qed.

Lemma topLeft_fold (l : list WirePoint) : ∀ init,
  let r := foldl (λ topLeft p,
             let topLeft := if bool_decide (x p < px topLeft)
                            then mkPoint (x p) (py topLeft) else topLeft in
             if bool_decide (y p < py topLeft)
             then mkPoint (px topLeft) (y p) else topLeft) init l in
  (px r ≤ px init ∧ py r ≤ py init)
  ∧ (∀ p, p ∈ l → px r ≤ x p ∧ py r ≤ y p)
  ∧ (px r = px init ∨ px r ∈ x <$> l)
  ∧ (py r = py init ∨ py r ∈ y <$> l).
Proof.
  induction l as [|q l IH]; intros init; simpl.
  - split; [lia|]. split; [by intros p ?%elem_of_nil|]. split; by left.
  - match goal with |- context [foldl _ ?i l] => specialize (IH i); set (i0 := i) in * end.
    cbv zeta in IH. destruct IH as ((Hx & Hy) & Hall & Hxin & Hyin).
    assert (px i0 = Z.min (x q) (px init) ∧ py i0 = Z.min (y q) (py init))
      as [Ex Ey].
    { subst i0. repeat case_bool_decide; simpl in *; lia. }
    split; [lia|]. split; [|split].
    + intros p [->|Hp]%elem_of_cons; [lia|]. by apply Hall.
    + destruct Hxin as [E|Hin]; [|right; simpl; by right].
      destruct (decide (x q < px init)).
      * right. simpl. rewrite E, Ex. replace (Z.min (x q) (px init)) with (x q) by lia.
        by left.
      * left. lia.
    + destruct Hyin as [E|Hin]; [|right; simpl; by right].
      destruct (decide (y q < py init)).
      * right. simpl. rewrite E, Ey. replace (Z.min (y q) (py init)) with (y q) by lia.
        by left.
      * left. lia.
Qed.

Lemma bottomRight_fold (l : list WirePoint) : ∀ init,
  let r := foldl (λ bottomRight p,
             let bottomRight := if bool_decide (x p > px bottomRight)
                                then mkPoint (x p) (py bottomRight)
                                else bottomRight in
             if bool_decide (y p > py bottomRight)
             then mkPoint (px bottomRight) (y p) else bottomRight) init l in
  (px init ≤ px r ∧ py init ≤ py r)
  ∧ (∀ p, p ∈ l → x p ≤ px r ∧ y p ≤ py r)
  ∧ (px r = px init ∨ px r ∈ x <$> l)
  ∧ (py r = py init ∨ py r ∈ y <$> l).
Proof.
  induction l as [|q l IH]; intros init; simpl.
  - split; [lia|]. split; [by intros p ?%elem_of_nil|]. split; by left.
  - match goal with |- context [foldl _ ?i l] => specialize (IH i); set (i0 := i) in * end.
    cbv zeta in IH. destruct IH as ((Hx & Hy) & Hall & Hxin & Hyin).
    assert (px i0 = Z.max (x q) (px init) ∧ py i0 = Z.max (y q) (py init))
      as [Ex Ey].
    { subst i0. repeat case_bool_decide; simpl in *; lia. }
    split; [lia|]. split; [|split].
    + intros p [->|Hp]%elem_of_cons; [lia|]. by apply Hall.
    + destruct Hxin as [E|Hin]; [|right; simpl; by right].
      destruct (decide (x q > px init)).
      * right. simpl. rewrite E, Ex. replace (Z.max (x q) (px init)) with (x q) by lia.
        by left.
      * left. lia.
    + destruct Hyin as [E|Hin]; [|right; simpl; by right].
      destruct (decide (y q > py init)).
      * right. simpl. rewrite E, Ey. replace (Z.max (y q) (py init)) with (y q) by lia.
        by left.
      * left. lia.
Qed.

(** X6: the rectangle [calculateBoundingRect] computes encloses every point
    of the wire, taken relative to the position of the wire. When the wire
    has a point and the coordinates are within the range of [int], each side
    of the rectangle goes through a point of the wire; a wire without points
    gets the rectangle from ([INT_MAX], [INT_MAX]) to ([INT_MIN],
    [INT_MIN]). *)
Theorem calculateBoundingRect_encloses_the_points w :
  let r := Wire.calculateBoundingRect w in
  (∀ p, p ∈ Wire.pointsRelative w →
     px (topLeft r) ≤ px p ≤ px (bottomRight r)
     ∧ py (topLeft r) ≤ py p ≤ py (bottomRight r))
  ∧ (_points w ≠ [] →
     (∀ p, p ∈ Wire.pointsRelative w →
        Wire.intMinValue ≤ px p ≤ Wire.intMaxValue
        ∧ Wire.intMinValue ≤ py p ≤ Wire.intMaxValue) →
     px (topLeft r) ∈ px <$> Wire.pointsRelative w
     ∧ py (topLeft r) ∈ py <$> Wire.pointsRelative w
     ∧ px (bottomRight r) ∈ px <$> Wire.pointsRelative w
     ∧ py (bottomRight r) ∈ py <$> Wire.pointsRelative w)
  ∧ (_points w = [] →
     r = mkRect (mkPoint Wire.intMaxValue Wire.intMaxValue)
                (mkPoint Wire.intMinValue Wire.intMinValue)).
Proof.
  cbv zeta. unfold Wire.calculateBoundingRect. simpl.
  pose proof (topLeft_fold (Wire.wirePointsRelative w)
                (mkPoint Wire.intMaxValue Wire.intMaxValue)) as HT.
  pose proof (bottomRight_fold (Wire.wirePointsRelative w)
                (mkPoint Wire.intMinValue Wire.intMinValue)) as HB.
  cbv zeta in HT, HB. simpl in HT, HB.
  destruct HT as (_ & HTall & HTx & HTy).
  destruct HB as (_ & HBall & HBx & HBy).
  rewrite pointsRelative_wirePointsRelative.
  assert (∀ f : QPointF → Z, ∀ g : WirePoint → Z,
            (∀ q, f (point.toPointF q) = g q) →
            f <$> (point.toPointF <$> Wire.wirePointsRelative w)
            = g <$> Wire.wirePointsRelative w) as Hfg.
  { intros f g Hq. rewrite <- list_fmap_compose. apply list_fmap_ext.
    intros ? q _. apply Hq. }
  rewrite (Hfg px x) by done. rewrite (Hfg py y) by done.
  split; [|split].
  - intros p (q & -> & Hq)%list_elem_of_fmap.
    destruct (HTall q Hq), (HBall q Hq). simpl. lia.
  - intros Hne Hrange.
    destruct (Wire.wirePointsRelative w) as [|q0 l] eqn:E.
    { unfold Wire.wirePointsRelative in E. apply fmap_nil_inv in E. done. }
    assert (q0 ∈ q0 :: l) as Hq0 by (by left).
    destruct (HTall q0 Hq0), (HBall q0 Hq0).
    destruct (Hrange (point.toPointF q0)) as [Hrx Hry].
    { apply list_elem_of_fmap. by exists q0. }
    simpl in Hrx, Hry.
    assert (∀ (v : Z) (g : WirePoint → Z) (c : Z),
              (v = c ∨ v ∈ g <$> q0 :: l) →
              (v = c → v = g q0) → v ∈ g <$> q0 :: l) as Hcase.
    { intros v g c [Hv|Hv] Himp; [|done]. rewrite (Himp Hv). simpl. by left. }
    repeat split.
    + apply (Hcase _ x _ HTx). lia.
    + apply (Hcase _ y _ HTy). lia.
    + apply (Hcase _ x _ HBx). lia.
    + apply (Hcase _ y _ HBy). lia.
  - intros E. unfold Wire.wirePointsRelative. rewrite E. done.
Qed.


(** ** What simplification keeps *)

Lemma thinned_refl {A} (l : list A) : thinned l l.
Proof. done. Qed.

Lemma thinned_trans {A} (l1 l2 l3 : list A) :
  thinned l1 l2 → thinned l2 l3 → thinned l1 l3.
Proof.
  intros (S1 & H1 & L1) (S2 & H2 & L2). repeat split.
  - by etrans.
  - congruence.
  - congruence.
Qed.

Lemma thinned_fmap {A B} (f : A → B) (l l' : list A) :
  thinned l l' → thinned (f <$> l) (f <$> l').
Proof.
  intros (S1 & H1 & L1). repeat split.
  - by apply fmap_sublist.
  - destruct l, l'; simpl in *; congruence.
  - rewrite !fmap_last. congruence.
Qed.

(** Taking out an element that is neither the first nor the last. *)
Lemma thinned_middle {A} (pre post : list A) b :
  pre ≠ [] → post ≠ [] → thinned (pre ++ b :: post) (pre ++ post).
Proof.
  intros Hpre Hpost. repeat split.
  - apply sublist_app; [done|]. by apply sublist_cons.
  - destruct pre; done.
  - destruct post as [|c post]; [done|].
    by rewrite !last_app_cons, last_cons_cons.
Qed.

(** Taking out the second of two equal neighbours. *)
Lemma thinned_duplicate {A} (pre post : list A) a :
  thinned (pre ++ a :: a :: post) (pre ++ a :: post).
Proof.
  repeat split.
  - apply sublist_app; [done|]. by apply sublist_cons.
  - destruct pre; done.
  - by rewrite !last_app_cons, last_cons_cons.
Qed.

Lemma at_split {A} (l : list A) i a :
  QVector.at_ l i = Some a →
  ∃ pre post, l = pre ++ a :: post ∧ i = Z.of_nat (length pre).
Proof.
  intros H. pose proof (at_Some _ _ _ H) as Hr.
  rewrite at_lookup in H by lia.
  apply list_elem_of_split_length in H as (pre & post & -> & Hlen).
  exists pre, post. split; [done|lia].
Qed.

Lemma at_split2 {A} (l : list A) i a b :
  QVector.at_ l i = Some a → QVector.at_ l (i + 1) = Some b →
  ∃ pre post, l = pre ++ a :: b :: post ∧ i = Z.of_nat (length pre).
Proof.
  intros Ha Hb. destruct (at_split _ _ _ Ha) as (pre & post & -> & Hi).
  exists pre. subst i. rewrite at_lookup in Hb by lia.
  replace (Z.to_nat (Z.of_nat (length pre) + 1)) with (length pre + 1)%nat
    in Hb by lia.
  rewrite lookup_app_r in Hb by lia.
  replace (length pre + 1 - length pre)%nat with 1%nat in Hb by lia.
  destruct post as [|b' post]; [done|]. simpl in Hb. injection Hb as ->.
  by exists post.
Qed.

Lemma removeAt_middle {A} (pre post : list A) b i :
  i = Z.of_nat (length pre) →
  QVector.removeAt i (pre ++ b :: post) = pre ++ post.
Proof.
  intros ->. unfold QVector.removeAt. rewrite Nat2Z.id. apply delete_middle.
Qed.

Lemma same_but_points_refl w : same_but_points w w.
Proof. done. Qed.

Lemma same_but_points_trans w1 w2 w3 :
  same_but_points w1 w2 → same_but_points w2 w3 → same_but_points w1 w3.
Proof. intros (?&?&?) (?&?&?). repeat split; congruence. Qed.

(** One round of [removeDuplicatePoints] that finds a duplicate: the point
    at [i + 1] goes, and the point at [i] carries a flag if one of the two
    did. *)
Lemma removeDuplicatePoints_round w i a b :
  QVector.at_ (_points w) i = Some a →
  QVector.at_ (_points w) (i + 1) = Some b →
  let w1 := if negb (isJunction a)
            then Wire.setPointIsJunction i (isJunction b) w else w in
  ∃ pre post,
    _points w = pre ++ a :: b :: post
    ∧ set_points (QVector.removeAt (i + 1) (_points w1)) w1
      = set_points
          (pre ++ point.setIsJunction (isJunction a || isJunction b) a :: post)
          w.
Proof.
  intros Ha Hb w1.
  destruct (at_split2 _ _ _ _ Ha Hb) as (pre & post & E & Hi).
  exists pre, post. split; [done|].
  assert (_points w1
          = pre ++ point.setIsJunction (isJunction a || isJunction b) a
                :: b :: post
          ∧ same_but_points w w1) as [E1 (Hc & Hn & Hp)].
  { unfold w1. destruct (isJunction a) eqn:Hj; simpl.
    - split; [|done]. rewrite E. by destruct a; simpl in *; subst.
    - rewrite setPointIsJunction_in.
      2:{ apply at_Some in Ha. unfold Wire.points_count. lia. }
      split; [|done]. simpl. rewrite E, Hi, Nat2Z.id.
      replace (length pre) with (length pre + 0)%nat at 1 by lia.
      by rewrite alter_app_r. }
  rewrite E1.
  assert (pre ++ point.setIsJunction (isJunction a || isJunction b) a
              :: b :: post
          = (pre ++ [point.setIsJunction (isJunction a || isJunction b) a])
              ++ b :: post) as -> by (by rewrite <- app_assoc).
  rewrite removeAt_middle by (rewrite length_app; simpl; lia).
  rewrite <- app_assoc. simpl.
  destruct w, w1; simpl in *; by subst.
Qed.

Lemma junction_on_round w pre a b post c :
  _points w = pre ++ a :: b :: post →
  point.toPointF a = point.toPointF b →
  junction_on
    (set_points
       (pre ++ point.setIsJunction (isJunction a || isJunction b) a :: post) w)
    c
  ↔ junction_on w c.
Proof.
  intros E Hab. unfold junction_on. cbn [_points set_points]. rewrite E. split.
  - intros (p & Hp & Hc & Hj).
    apply elem_of_app in Hp as [Hp|Hp].
    { exists p. split; [|done]. apply elem_of_app. by left. }
    apply elem_of_cons in Hp as [->|Hp].
    + simpl in Hj. apply orb_true_iff in Hj as [Hj|Hj].
      * exists a. split; [|done]. set_solver.
      * exists b. split; [set_solver|]. split; [|done]. by rewrite <- Hab, <- Hc.
    + exists p. split; [|done]. set_solver.
  - intros (p & Hp & Hc & Hj).
    apply elem_of_app in Hp as [Hp|Hp].
    { exists p. split; [|done]. apply elem_of_app. by left. }
    apply elem_of_cons in Hp as [->|Hp].
    + exists (point.setIsJunction (isJunction a || isJunction b) a).
      split; [set_solver|]. split; [done|]. simpl. by rewrite Hj.
    + apply elem_of_cons in Hp as [->|Hp].
      * exists (point.setIsJunction (isJunction a || isJunction b) a).
        split; [set_solver|]. split; [by rewrite <- Hc, <- Hab|].
        simpl. rewrite Hj. apply orb_true_r.
      * exists p. split; [|done]. set_solver.
Qed.

Lemma removeDuplicatePoints_loop_keeps fuel : ∀ i w w',
  0 ≤ i →
  Wire.removeDuplicatePoints_loop fuel i w = Some w' →
  thinned (Wire.pointsAbsolute w) (Wire.pointsAbsolute w')
  ∧ (∀ c, junction_on w' c ↔ junction_on w c)
  ∧ (∀ c, c ∈ Wire.pointsAbsolute w' ↔ c ∈ Wire.pointsAbsolute w)
  ∧ same_but_points w w'.
Proof.
  induction fuel as [|fuel IH]; intros i w w' Hi;
    rewrite removeDuplicatePoints_loop_unfold;
    (case_bool_decide as Hcond; [|by intros [= <-]]); [done|].
  rewrite !at_wirePointsRelative.
  destruct (QVector.at_ (_points w) i) as [a|] eqn:Ha; [|done].
  destruct (QVector.at_ (_points w) (i + 1)) as [b|] eqn:Hb; [|done].
  simpl. rewrite eqb_relative_of.
  destruct (point.eqb a b) eqn:Heq.
  - destruct (removeDuplicatePoints_round w i a b Ha Hb)
      as (pre & post & E & ->).
    apply point_eqb_true in Heq.
    intros Hw'. apply IH in Hw' as (Ht & Hj & Hc & Hs); [|done].
    split; [|split; [|split]].
    + eapply thinned_trans; [|apply Ht].
      unfold Wire.pointsAbsolute. cbn [_points set_points]. rewrite E.
      rewrite !fmap_app, !fmap_cons.
      assert (∀ f, point.toPointF (point.setIsJunction f a) = point.toPointF a)
        as -> by done.
      rewrite <- Heq. apply thinned_duplicate.
    + intros c. rewrite Hj. by apply junction_on_round.
    + intros c. rewrite Hc. unfold Wire.pointsAbsolute.
      cbn [_points set_points]. rewrite E.
      rewrite !fmap_app, !fmap_cons.
      assert (∀ f, point.toPointF (point.setIsJunction f a) = point.toPointF a)
        as -> by done.
      rewrite <- Heq. set_solver.
    + destruct Hs as (?&?&?). repeat split; simpl in *; congruence.
  - intros Hw'. apply IH in Hw'; [done|lia].
Qed.

Section simplification.
Variable pointIsOnLine : Line → QPointF → bool.

Lemma removeObsoletePoints_loop_keeps fuel : ∀ it w w',
  2 ≤ it →
  Wire.removeObsoletePoints_loop pointIsOnLine fuel it w = Some w' →
  thinned (_points w) (_points w') ∧ same_but_points w w'.
Proof.
  induction fuel as [|fuel IH]; intros it w w' Hit;
    rewrite removeObsoletePoints_loop_unfold;
    (case_bool_decide as Hcond; [|by intros [= <-]]); [done|].
  destruct (QVector.at_ (_points w) (it - 2)) as [a|] eqn:Ha; [|done].
  destruct (QVector.at_ (_points w) (it - 1)) as [b|] eqn:Hb; [|done].
  destruct (QVector.at_ (_points w) it) as [c|] eqn:Hc; [|done].
  simpl. destruct (pointIsOnLine _ _).
  - intros Hw'. apply IH in Hw' as (Ht & Hs); [|lia].
    simpl in Ht.
    replace it with (it - 1 + 1) in Hc by lia.
    destruct (at_split2 _ _ _ _ Hb Hc) as (pre & post & E & Hlen).
    split.
    + eapply thinned_trans; [|apply Ht]. rewrite E.
      rewrite removeAt_middle by done.
      apply thinned_middle; [|done].
      intros ->. simpl in Hlen. lia.
    + destruct Hs as (?&?&?). repeat split; simpl in *; congruence.
  - intros Hw'. apply IH in Hw'; [done|lia].
Qed.

Lemma removeObsoletePoints_keeps w w' :
  Wire.removeObsoletePoints pointIsOnLine w = Some w' →
  thinned (_points w) (_points w') ∧ same_but_points w w'.
Proof.
  unfold Wire.removeObsoletePoints. case_bool_decide.
  - by intros [= <-].
  - by apply removeObsoletePoints_loop_keeps.
Qed.

(** X7: [simplify] returns, and only takes points out of the wire: the
    coordinates that are left are the old ones in the old order, the first
    and the last point stay where they are, and the connected wires, the net
    and the position of the wire are untouched. *)
Theorem simplify_keeps_the_end_points w :
  ∃ w', Wire.simplify pointIsOnLine w = Some w'
    ∧ Wire.pointsAbsolute w' `sublist_of` Wire.pointsAbsolute w
    ∧ head (Wire.pointsAbsolute w') = head (Wire.pointsAbsolute w)
    ∧ last (Wire.pointsAbsolute w') = last (Wire.pointsAbsolute w)
    ∧ same_but_points w w'.
Proof.
  unfold Wire.simplify.
  destruct (removeDuplicatePoints_spec w) as (w1 & Hw1 & _).
  destruct (removeObsoletePoints_spec pointIsOnLine w1) as (w2 & Hw2 & _).
  exists w2. rewrite Hw1. simpl. split; [done|].
  apply removeDuplicatePoints_loop_keeps in Hw1 as (Ht1 & _ & _ & Hs1);
    [|done].
  apply removeObsoletePoints_keeps in Hw2 as (Ht2 & Hs2).
  apply (thinned_fmap point.toPointF) in Ht2.
  destruct (thinned_trans _ _ _ Ht1 Ht2) as (? & ? & ?).
  repeat split; try done; destruct Hs1 as (?&?&?), Hs2 as (?&?&?); congruence.
Qed.

(** X8: [removeObsoletePoints] returns a wire with fewer than three points
    as it is. On a longer wire it erases points between the first and the
    last only, and the points it keeps keep their junction flags; a junction
    flag on an erased point is lost with it. *)
Theorem removeObsoletePoints_erases_inner_points w :
  ∃ w', Wire.removeObsoletePoints pointIsOnLine w = Some w'
    ∧ (Wire.points_count w < 3 → w' = w)
    ∧ _points w' `sublist_of` _points w
    ∧ head (_points w') = head (_points w)
    ∧ last (_points w') = last (_points w)
    ∧ (∀ c, junction_on w' c → junction_on w c)
    ∧ same_but_points w w'.
Proof.
  destruct (removeObsoletePoints_spec pointIsOnLine w) as (w' & Hw' & _).
  exists w'. split; [done|]. split.
  { intros Hlt. unfold Wire.removeObsoletePoints in Hw'.
    rewrite bool_decide_eq_true_2 in Hw' by done. by injection Hw'. }
  apply removeObsoletePoints_keeps in Hw' as ((Hsub & Hh & Hl) & Hs).
  repeat split; try done; try apply Hs.
  intros c (p & Hp & Hc & Hj). exists p. split; [|done].
  by eapply elem_of_sublist.
Qed.

End simplification.

(** X9: [removeDuplicatePoints] returns; afterwards no two consecutive
    points of the wire coincide, unless the wire is down to two points. The
    point that is kept takes over the junction flag of the duplicate that is
    removed, so a coordinate carries a junction flag afterwards exactly when
    it did before. A second run changes nothing. *)
Theorem removeDuplicatePoints_keeps_the_junctions w :
  ∃ w', Wire.removeDuplicatePoints w = Some w'
    ∧ (Wire.points_count w' ≤ 2
       ∨ no_consecutive_duplicates (Wire.pointsAbsolute w'))
    ∧ (∀ c, junction_on w' c ↔ junction_on w c)
    ∧ (∀ c, c ∈ Wire.pointsAbsolute w' ↔ c ∈ Wire.pointsAbsolute w)
    ∧ Wire.removeDuplicatePoints w' = Some w'.
Proof.
  destruct (removeDuplicatePoints_spec w) as (w' & Hw' & _ & _ & Hset).
  exists w'. split; [done|]. split; [done|].
  pose proof (removeDuplicatePoints_idempotent _ _ Hw') as Hidem.
  apply removeDuplicatePoints_loop_keeps in Hw' as (_ & Hj & Hc & _); [|done].
  done.
Qed.


(** * Further properties of the wire manager *)

(** ** The attachment table *)

Lemma scene_eq s s' :
  wire_store s' = wire_store s → net_store s' = net_store s →
  _nets s' = _nets s → _connections s' = _connections s →
  _wire_slots s' = _wire_slots s → _connector_slots s' = _connector_slots s →
  s' = s.
Proof. destruct s, s'; simpl; intros; by subst. Qed.

Lemma at_coords s B j :
  QVector.at_ (coords_of s B) j
  = point.toPointF <$> QVector.at_ (_points (wire_of s B)) j.
Proof.
  unfold coords_of, Wire.pointsAbsolute, QVector.at_.
  destruct (decide (0 ≤ j)); [|done]. by rewrite list_lookup_fmap.
Qed.

Lemma elem_of_keys s c :
  c ∈ wire_manager.keys s ↔ is_Some (_connections s !! c).
Proof.
  unfold wire_manager.keys. rewrite list_elem_of_fmap. split.
  - intros ([k v] & -> & H). apply elem_of_map_to_list in H. by exists v.
  - intros [v H]. exists (c, v). split; [done|]. by apply elem_of_map_to_list.
Qed.

Lemma NoDup_keys s : NoDup (wire_manager.keys s).
Proof. apply NoDup_fst_map_to_list. Qed.

Lemma elem_of_connectorsAttachedToWire s w c :
  c ∈ wire_manager.connectorsAttachedToWire w s
  ↔ fst <$> _connections s !! c = Some w.
Proof.
  unfold wire_manager.connectorsAttachedToWire.
  rewrite list_elem_of_filter, elem_of_keys. split; [by intros [? _]|].
  intros H. split; [done|].
  destruct (_connections s !! c); [by eexists|done].
Qed.

Lemma connectorsAttachedToWire_nil s w :
  wire_manager.connectorsAttachedToWire w s = []
  ↔ ∀ c, fst <$> _connections s !! c ≠ Some w.
Proof.
  split.
  - intros E c Hc. apply elem_of_connectorsAttachedToWire in Hc.
    rewrite E in Hc. by apply elem_of_nil in Hc.
  - intros H. apply elem_of_nil_inv. intros c Hc.
    apply elem_of_connectorsAttachedToWire in Hc. by apply (H c).
Qed.

Lemma wire_point_is_attached_true s w i :
  wire_manager.wire_point_is_attached w i s = true
  ↔ ∃ c, _connections s !! c = Some (w, i).
Proof.
  unfold wire_manager.wire_point_is_attached. rewrite existsb_exists. split.
  - intros ([w' i'] & Hin & Hb). apply list_elem_of_In in Hin.
    apply list_elem_of_fmap in Hin as ([c v] & Hv & Hin). simpl in Hv. subst v.
    apply elem_of_map_to_list in Hin.
    apply andb_true_iff in Hb as [H1 H2].
    apply bool_decide_eq_true in H1, H2. simpl in *. subst. by exists c.
  - intros (c & Hc). exists (w, i). split.
    + apply list_elem_of_In, list_elem_of_fmap. exists (c, (w, i)).
      split; [done|]. by apply elem_of_map_to_list.
    + simpl. by rewrite !bool_decide_eq_true_2.
Qed.

(** X10: the three ways of asking the attachment table agree:
    [wire_point_is_attached] answers [true] for a wire and an index exactly
    when some connector has that wire as [attachedWire] and that index as
    [attachedWirepoint], and [connectorsAttachedToWire] lists exactly the
    connectors whose [attachedWire] is the wire, each once. *)
Theorem wire_point_is_attached_agrees s w :
  (∀ i, wire_manager.wire_point_is_attached w i s = true
        ↔ ∃ c, wire_manager.attachedWire c s = Some w
               ∧ wire_manager.attachedWirepoint c s = i)
  ∧ (∀ c, c ∈ wire_manager.connectorsAttachedToWire w s
          ↔ wire_manager.attachedWire c s = Some w)
  ∧ NoDup (wire_manager.connectorsAttachedToWire w s).
Proof.
  split; [|split].
  - intros i. rewrite wire_point_is_attached_true.
    unfold wire_manager.attachedWire, wire_manager.attachedWirepoint.
    split.
    + intros (c & Hc). exists c. by rewrite Hc.
    + intros (c & H1 & H2). exists c.
      destruct (_connections s !! c) as [[w' i']|]; [|done].
      simpl in *. congruence.
  - apply elem_of_connectorsAttachedToWire.
  - apply NoDup_filter, NoDup_keys.
Qed.

(** X11: [attachWireToConnector] with an index below [-1] or above the
    number of points of the wire, or on a connector that is attached
    already, changes nothing. Otherwise (the index may be [-1], or one past
    the last point) the connector is attached to that wire at that index:
    [attachedWire], [attachedWirepoint], [wire_point_is_attached] and
    [connectorsAttachedToWire] answer accordingly, and what they answer for
    the other connectors is as before. *)
Theorem attachWireToConnector_then_lookup s w c index :
  let s' := wire_manager.attachWireToConnector (Some w) index (Some c) s in
  (index < -1 ∨ Wire.points_count (wire_of s w) < index
   ∨ is_Some (_connections s !! c) → s' = s)
  ∧ (-1 ≤ index ≤ Wire.points_count (wire_of s w) →
     _connections s !! c = None →
     wire_manager.attachedWire c s' = Some w
     ∧ wire_manager.attachedWirepoint c s' = index
     ∧ wire_manager.wire_point_is_attached w index s' = true
     ∧ c ∈ wire_manager.connectorsAttachedToWire w s'
     ∧ (∀ c', c' ≠ c →
          wire_manager.attachedWire c' s' = wire_manager.attachedWire c' s
          ∧ wire_manager.attachedWirepoint c' s'
            = wire_manager.attachedWirepoint c' s)
     ∧ wire_store s' = wire_store s
     ∧ net_store s' = net_store s
     ∧ _nets s' = _nets s).
Proof.
  cbv zeta. unfold wire_manager.attachWireToConnector. split.
  - intros [H|[H|H]].
    + rewrite bool_decide_eq_true_2 by lia. done.
    + rewrite bool_decide_eq_true_2 by lia. done.
    + case_bool_decide; [done|]. by rewrite bool_decide_eq_true_2.
  - intros Hr Hc.
    rewrite bool_decide_eq_false_2 by lia.
    rewrite bool_decide_eq_false_2 by (rewrite Hc; by intros [? ?]).
    set (s' := mkScene _ _ _ _ _ _).
    assert (_connections s' !! c = Some (w, index)) as Hl
      by apply lookup_insert_eq.
    split; [|split; [|split; [|split; [|split]]]].
    + unfold wire_manager.attachedWire. by rewrite Hl.
    + unfold wire_manager.attachedWirepoint. by rewrite Hl.
    + apply wire_point_is_attached_true. by exists c.
    + apply elem_of_connectorsAttachedToWire. by rewrite Hl.
    + intros c' Hne.
      unfold wire_manager.attachedWire, wire_manager.attachedWirepoint.
      simpl. by rewrite lookup_insert_ne.
    + done.
Qed.

Lemma detachWire_connections c s :
  _connections (wire_manager.detachWire c s) = delete c (_connections s).
Proof.
  unfold wire_manager.detachWire.
  destruct (fst <$> _connections s !! c); [|done].
  by case_bool_decide.
Qed.

(** X12: after [detachWire] the connector has no wire ([attachedWire] is
    null and [attachedWirepoint] is [-1]) and the other connectors are
    attached as before; on a connector that is not attached it changes
    nothing. [detachWire] after [attachWireToConnector] gives back the
    attachment table. The wire is forgotten by the manager
    ([disconnect]) exactly when no connector is attached to it any more,
    and the connection to the signal of the connector, which
    [attachWireToConnector] has made, is never taken away. *)
Theorem detachWire_then_lookup s c :
  let s' := wire_manager.detachWire c s in
  wire_manager.attachedWire c s' = None
  ∧ wire_manager.attachedWirepoint c s' = -1
  ∧ (∀ c', c' ≠ c →
       wire_manager.attachedWire c' s' = wire_manager.attachedWire c' s
       ∧ wire_manager.attachedWirepoint c' s'
         = wire_manager.attachedWirepoint c' s)
  ∧ (_connections s !! c = None → s' = s)
  ∧ (∀ w index,
       _connections s !! c = None →
       -1 ≤ index ≤ Wire.points_count (wire_of s w) →
       _connections
         (wire_manager.detachWire c
            (wire_manager.attachWireToConnector (Some w) index (Some c) s))
       = _connections s)
  ∧ (∀ w, wire_manager.attachedWire c s = Some w →
       if bool_decide (wire_manager.connectorsAttachedToWire w s' = [])
       then _wire_slots s' = QVector.removeAll w (_wire_slots s)
       else _wire_slots s' = _wire_slots s)
  ∧ _connector_slots s' = _connector_slots s.
Proof.
  cbv zeta.
  unfold wire_manager.attachedWire, wire_manager.attachedWirepoint.
  rewrite !detachWire_connections.
  split; [by rewrite lookup_delete_eq|].
  split; [by rewrite lookup_delete_eq|].
  split; [intros c' Hne; by rewrite lookup_delete_ne|].
  split; [|split; [|split]].
  - intros Hc. unfold wire_manager.detachWire. rewrite Hc. simpl.
    rewrite delete_id by done. by destruct s.
  - intros w index Hc Hr. rewrite detachWire_connections.
    unfold wire_manager.attachWireToConnector.
    rewrite bool_decide_eq_false_2 by lia.
    rewrite bool_decide_eq_false_2 by (rewrite Hc; by intros [? ?]).
    simpl. rewrite delete_insert_eq. by apply delete_id.
  - intros w Hw. unfold wire_manager.detachWire. rewrite Hw. cbv zeta.
    set (sd := set_connections (delete c (_connections s)) s).
    assert (∀ t, wire_manager.connectorsAttachedToWire w (set_wire_slots t sd)
                 = wire_manager.connectorsAttachedToWire w sd)
      as Hsame by done.
    destruct (decide (wire_manager.connectorsAttachedToWire w sd = []))
      as [H1|H1].
    + rewrite (bool_decide_eq_true_2 _ H1).
      rewrite Hsame, (bool_decide_eq_true_2 _ H1). done.
    + rewrite !(bool_decide_eq_false_2 _ H1). done.
  - unfold wire_manager.detachWire.
    destruct (fst <$> _connections s !! c); [|done]. by case_bool_decide.
Qed.

(** The state [detachWireFromAll] has reached after the connectors [ks]. *)
Lemma detachWireFromAll_fold w (ks : list nat) : ∀ s,
  NoDup ks →
  let s' := foldl
    (λ s connector,
       match _connections s !! connector with
       | None => s
       | Some wirePoint =>
         if bool_decide (wirePoint.1 ≠ w) then s
         else
           set_connections (delete connector (_connections s))
             (set_wire_slots (QVector.removeAll w (_wire_slots s)) s)
       end) s ks in
  (∀ c, _connections s' !! c
        = if decide (c ∈ ks ∧ fst <$> _connections s !! c = Some w)
          then None else _connections s !! c)
  ∧ _wire_slots s'
    = (if decide (Exists (λ c, fst <$> _connections s !! c = Some w) ks)
       then QVector.removeAll w (_wire_slots s) else _wire_slots s)
  ∧ wire_store s' = wire_store s ∧ net_store s' = net_store s
  ∧ _nets s' = _nets s ∧ _connector_slots s' = _connector_slots s.
Proof.
  induction ks as [|k ks IH]; intros s Hnd; cbn [foldl].
  - split.
    { intros c. rewrite decide_False; [done|]. intros [H _].
      by apply elem_of_nil in H. }
    split; [|done]. rewrite decide_False; [done|].
    by intros H%Exists_nil.
  - apply NoDup_cons in Hnd as [Hk Hnd].
    match goal with |- context [foldl _ ?s1 ks] => set (s1' := s1) end.
    assert (Hs1 :
      (∀ c, _connections s1' !! c
            = if decide (c = k ∧ fst <$> _connections s !! c = Some w)
              then None else _connections s !! c)
      ∧ _wire_slots s1'
        = (if decide (fst <$> _connections s !! k = Some w)
           then QVector.removeAll w (_wire_slots s) else _wire_slots s)
      ∧ wire_store s1' = wire_store s ∧ net_store s1' = net_store s
      ∧ _nets s1' = _nets s ∧ _connector_slots s1' = _connector_slots s).
    { subst s1'.
      destruct (_connections s !! k) as [[w' i']|] eqn:Ek; cbn [fst snd fmap option_fmap option_map].
      - case_bool_decide as Hne.
        + split.
          { intros c. rewrite decide_False; [done|]. intros [-> H].
            rewrite Ek in H. simpl in H. congruence. }
          split; [|done]. rewrite decide_False; [done|]. congruence.
        + assert (w' = w) as -> by (destruct (decide (w' = w)); tauto).
          cbn [_connections set_connections _wire_slots set_wire_slots
               wire_store net_store _nets _connector_slots]. split.
          { intros c. destruct (decide (c = k)) as [->|Hck].
            - rewrite lookup_delete_eq, decide_True; [done|].
              by rewrite Ek.
            - rewrite lookup_delete_ne by done.
              rewrite decide_False; [done|]. tauto. }
          split; [|done]. by rewrite decide_True.
      - split.
        { intros c. rewrite decide_False; [done|]. intros [-> H].
          by rewrite Ek in H. }
        split; [|done]. by rewrite decide_False. }
    destruct Hs1 as (Hconn1 & Hslots1 & Hw1 & Hn1 & Hnets1 & Hcs1).
    specialize (IH s1' Hnd). cbv zeta in IH.
    destruct IH as (Hconn & Hslots & Hw & Hn & Hnets & Hcs).
    split; [|split].
    + intros c. rewrite Hconn.
      destruct (decide (c = k)) as [->|Hck].
      * rewrite (decide_False (P := k ∈ ks ∧ _)) by tauto. rewrite Hconn1.
        destruct (decide (fst <$> _connections s !! k = Some w)) as [Hk'|Hk'].
        -- rewrite (decide_True (P := k = k ∧ _)) by done.
           rewrite (decide_True (P := k ∈ k :: ks ∧ _)); [done|].
           split; [by left|done].
        -- rewrite (decide_False (P := k = k ∧ _)) by tauto.
           rewrite (decide_False (P := k ∈ k :: ks ∧ _)) by tauto. done.
      * assert (_connections s1' !! c = _connections s !! c) as ->.
        { rewrite Hconn1. rewrite decide_False; [done|tauto]. }
        destruct (decide (c ∈ ks ∧ fst <$> _connections s !! c = Some w))
          as [[H1 H2]|Hno].
        -- rewrite decide_True by (split; [by right|done]). done.
        -- rewrite decide_False; [done|].
           intros [[?|?]%elem_of_cons ?]; tauto.
    + rewrite Hslots, Hslots1.
      assert (Exists (λ c, fst <$> _connections s1' !! c = Some w) ks
              ↔ Exists (λ c, fst <$> _connections s !! c = Some w) ks)
        as Hsame.
      { assert (∀ c, c ∈ ks →
                  _connections s1' !! c = _connections s !! c) as Hc1.
        { intros c Hc. rewrite Hconn1. rewrite decide_False; [done|].
          intros [-> _]. done. }
        rewrite !Exists_exists.
        split; intros (c & Hc & H); exists c; (split; [done|]).
        - by rewrite <- Hc1.
        - by rewrite Hc1. }
      destruct (decide (fst <$> _connections s !! k = Some w)) as [Hk'|Hk'].
      * rewrite (decide_True (P := Exists _ (k :: ks)))
          by (by apply Exists_cons_hd).
        destruct (decide _); [|done].
        unfold QVector.removeAll. rewrite list_filter_filter.
        apply list_filter_iff. tauto.
      * destruct (decide (Exists _ ks)) as [Hex|Hno].
        -- rewrite decide_True; [done|]. apply Exists_cons_tl.
           by apply Hsame.
        -- rewrite decide_False; [done|].
           intros [?|?]%Exists_cons; [done|]. by apply Hno, Hsame.
    + repeat split; congruence.
Qed.

(** X13: after [detachWireFromAll] no connector is attached to the wire and
    no point of it is attached; the connectors of the other wires are
    attached as before. When a connector was attached to the wire, the
    manager forgets the wire ([disconnect]); when none was, nothing
    changes. *)
Theorem detachWireFromAll_detaches s w :
  let s' := wire_manager.detachWireFromAll w s in
  wire_manager.connectorsAttachedToWire w s' = []
  ∧ (∀ i, wire_manager.wire_point_is_attached w i s' = false)
  ∧ (∀ c, wire_manager.attachedWire c s ≠ Some w →
       wire_manager.attachedWire c s' = wire_manager.attachedWire c s
       ∧ wire_manager.attachedWirepoint c s'
         = wire_manager.attachedWirepoint c s)
  ∧ (∀ c, wire_manager.attachedWire c s = Some w →
       wire_manager.attachedWire c s' = None
       ∧ wire_manager.attachedWirepoint c s' = -1)
  ∧ (wire_manager.connectorsAttachedToWire w s ≠ [] →
     _wire_slots s' = QVector.removeAll w (_wire_slots s))
  ∧ (wire_manager.connectorsAttachedToWire w s = [] → s' = s).
Proof.
  cbv zeta.
  destruct (detachWireFromAll_fold w (wire_manager.keys s) s (NoDup_keys s))
    as (Hconn & Hslots & Hw & Hn & Hnets & Hcs).
  fold (wire_manager.detachWireFromAll w s) in *.
  set (s' := wire_manager.detachWireFromAll w s) in *.
  assert (∀ c, _connections s' !! c
               = if decide (fst <$> _connections s !! c = Some w)
                 then None else _connections s !! c) as Hconn'.
  { intros c. rewrite Hconn.
    destruct (decide (fst <$> _connections s !! c = Some w)) as [H|H].
    - rewrite decide_True; [done|]. split; [|done].
      apply elem_of_keys. destruct (_connections s !! c); [by eexists|done].
    - rewrite decide_False; [done|]. tauto. }
  assert (∀ c, fst <$> _connections s' !! c ≠ Some w) as Hnone.
  { intros c. rewrite Hconn'.
    destruct (decide (fst <$> _connections s !! c = Some w)); [|done].
    simpl. congruence. }
  split; [by apply connectorsAttachedToWire_nil|].
  split.
  { intros i. apply not_true_is_false. rewrite wire_point_is_attached_true.
    intros (c & Hc). apply (Hnone c). by rewrite Hc. }
  unfold wire_manager.attachedWire, wire_manager.attachedWirepoint.
  split; [|split; [|split]].
  - intros c Hc. rewrite Hconn'. by rewrite decide_False.
  - intros c Hc. rewrite Hconn'. by rewrite decide_True.
  - intros Hne. rewrite Hslots. rewrite decide_True; [done|].
    destruct (wire_manager.connectorsAttachedToWire w s) as [|c l] eqn:E;
      [done|].
    assert (c ∈ wire_manager.connectorsAttachedToWire w s) as Hin
      by (rewrite E; by left).
    apply elem_of_connectorsAttachedToWire in Hin.
    apply Exists_exists. exists c. split; [|done].
    apply elem_of_keys. destruct (_connections s !! c); [by eexists|done].
  - intros E. rewrite connectorsAttachedToWire_nil in E.
    assert (_connections s' = _connections s) as Hm.
    { apply map_eq. intros c. rewrite Hconn'. rewrite decide_False; [done|].
      apply E. }
    assert (_wire_slots s' = _wire_slots s) as Hsl.
    { rewrite Hslots. rewrite decide_False; [done|].
      intros (c & _ & Hc)%Exists_exists. by apply (E c). }
    by apply scene_eq.
Qed.

(** ** Attaching a wire by one of its ends *)


(** ** The attachment index over an insertion followed by a removal *)

(** X15: [pointRemoved] after [point_inserted] at the same index, from [1]
    up to the last index of the wire, leaves the scene as it was: every
    attachment index is back. At index [0] (or below) it is not so: a
    connector attached to this wire at index [0] is then at index [-1]. *)
Theorem pointRemoved_after_point_inserted s w index :
  (1 ≤ index < Wire.points_count (wire_of s w) →
   wire_manager.pointRemoved w index (wire_manager.point_inserted w index s)
   = s)
  ∧ (index ≤ 0 →
     ∀ c, _connections s !! c = Some (w, 0) →
       wire_manager.attachedWirepoint c
         (wire_manager.pointRemoved w index
            (wire_manager.point_inserted w index s)) = -1).
Proof.
  rewrite pointRemoved_fmap, point_inserted_fmap.
  rewrite set_connections_twice. cbn [_connections set_connections].
  rewrite <- map_fmap_compose. split.
  - intros Hr.
    match goal with |- set_connections ?m s = s =>
      assert (m = _connections s) as ->; [|apply set_connections_id] end.
    apply map_eq. intros c. rewrite lookup_fmap.
    destruct (_connections s !! c) as [[w' a]|]; [|done]. simpl. f_equal.
    unfold shift_inserted, shift_removed. simpl.
    repeat (case_bool_decide; simpl in * ); try done;
      try (f_equal; lia); try lia; try congruence.
  - intros Hi c Hc. unfold wire_manager.attachedWirepoint. simpl.
    rewrite lookup_fmap, Hc. simpl.
    unfold shift_inserted, shift_removed. simpl.
    repeat (case_bool_decide; simpl in * ); try done; try lia.
Qed.

(** ** The global net of a net without name *)

Lemma nets_of_loop_null s todo : ∀ result,
  wire_manager.nets_of_loop s None todo result
  = if forallb (λ n, QString.isEmpty (WireNet.name s n)) todo
    then Some result else None.
Proof.
  induction todo as [|n todo IH]; intros result; simpl; [done|].
  destruct (QString.isEmpty (WireNet.name s n)); [apply IH|done].
Qed.

Lemma forallb_isEmpty s (l : list NetId) :
  forallb (λ n, QString.isEmpty (WireNet.name s n)) l
  = bool_decide (Forall (λ n, WireNet.name s n = "") l).
Proof.
  induction l as [|n l IH].
  - by rewrite bool_decide_eq_true_2.
  - cbn [forallb]. rewrite IH.
    destruct (QString.isEmpty (WireNet.name s n)) eqn:E.
    + apply isEmpty_true in E. apply bool_decide_ext.
      rewrite Forall_cons. tauto.
    + symmetry. apply bool_decide_eq_false_2.
      intros [H _]%Forall_cons. apply isEmpty_true in H. congruence.
Qed.

(** X16: a net without name is in no global net, not even its own:
    [nets(N)] is empty for such an [N]. For a named [N], [nets(N)] holds [N]
    exactly when [N] is registered with the manager. With a null pointer for
    [N] the call faults as soon as one registered net has a name, and gives
    the empty list otherwise. *)
Theorem nets_of_a_net_without_name s :
  (∀ N, WireNet.name s N = "" → wire_manager.nets_of (Some N) s = Some [])
  ∧ (∀ N, WireNet.name s N ≠ "" →
       ∃ l, wire_manager.nets_of (Some N) s = Some l
            ∧ (N ∈ l ↔ N ∈ _nets s))
  ∧ wire_manager.nets_of None s
    = (if bool_decide (Forall (λ n, WireNet.name s n = "") (_nets s))
       then Some [] else None).
Proof.
  unfold wire_manager.nets_of. split; [|split].
  - intros N HN. rewrite nets_of_loop_filter. simpl. f_equal.
    apply filter_none. intros n _ [Hn Hf]. apply Hn.
    rewrite HN in Hf. simpl in Hf.
    destruct (WireNet.name s n); [done|discriminate].
  - intros N HN. rewrite nets_of_loop_filter. simpl. eexists. split; [done|].
    rewrite list_elem_of_filter. unfold same_global_net. tauto.
  - rewrite nets_of_loop_null. by rewrite forallb_isEmpty.
Qed.

(** ** The wire with a point at a given position *)



(** ** Handing a wire to the manager *)

Lemma addWire_eq w s :
  wire_manager.addWire (Some w) s
  = (true,
     wire_manager.addWireNet (Some (fresh (dom (net_store s))))
       (WireNet.addWire (fresh (dom (net_store s))) w (make_net s).2)).
Proof. done. Qed.

Lemma linked_same_members s s' :
  (∀ u v, v ∈ connected_wires s' u ↔ v ∈ connected_wires s u) →
  ∀ u v, linked s' u v ↔ linked s u v.
Proof.
  intros H u v. unfold linked. fold (connected_wires s' u).
  fold (connected_wires s' v). fold (connected_wires s u).
  fold (connected_wires s v). by rewrite !H.
Qed.

Lemma reachable_same_members s s' :
  (∀ u v, v ∈ connected_wires s' u ↔ v ∈ connected_wires s u) →
  ∀ u v, reachable s' u v ↔ reachable s u v.
Proof.
  intros H u v. split; apply rtc_sub; intros x y; by apply linked_same_members.
Qed.

(** A wire that is linked to no other wire reaches itself only. *)
Lemma reachable_unlinked s w x :
  (∀ y, linked s w y → y = w) → reachable s w x → x = w.
Proof.
  intros Hw Hr. induction Hr as [|u v z Huv Hvz IH]; [done|].
  apply Hw in Huv as ->. by apply IH.
Qed.

(** X18: [addWire] of a null pointer answers [false] and changes nothing.
    Otherwise it answers [true] and puts the wire in a new net without name,
    alone, at the end of the list of nets; [wires()] gets the wire at its
    end, also when the wire is managed already, which is not checked. When
    the wire was not managed and is linked to no other wire, the nets are
    the connected components afterwards as they were before. *)
Theorem addWire_makes_a_net_of_its_own s w :
  wire_manager.addWire None s = (false, s)
  ∧ (wire_manager.addWire (Some w) s).1 = true
  ∧ ∃ newNet,
      let s' := (wire_manager.addWire (Some w) s).2 in
      (newNet ∉ dom (net_store s))
      ∧ _nets s' = _nets s ++ [newNet]
      ∧ WireNet.wires s' newNet = [w]
      ∧ WireNet.name s' newNet = ""
      ∧ _net (wire_of s' w) = Some newNet
      ∧ (∀ x, points_of s' x = points_of s x
              ∧ connected_wires s' x = connected_wires s x)
      ∧ ((∀ n, n ∈ _nets s → n ∈ dom (net_store s)) →
         wire_manager.wires s' = wire_manager.wires s ++ [w])
      ∧ (consistent s → w ∉ wire_manager.wires s →
         (∀ y, linked s w y → y = w) → consistent s').
Proof.
  split; [done|]. split; [done|].
  exists (fresh (dom (net_store s))). rewrite addWire_eq. cbn [snd].
  set (newNet := fresh (dom (net_store s))).
  set (s' := wire_manager.addWireNet _ _).
  assert (Hfresh : newNet ∉ dom (net_store s)) by apply is_fresh.
  assert (Hnets : _nets s' = _nets s ++ [newNet]) by done.
  assert (Hwires : ∀ n, WireNet.wires s' n
                        = if decide (n = newNet) then [w] else WireNet.wires s n).
  { intros n. unfold s'.
    change (WireNet.wires (wire_manager.addWireNet (Some newNet) ?t) n)
      with (WireNet.wires t n).
    rewrite wires_addWire. destruct (decide (n = newNet)) as [->|Hn].
    - unfold WireNet.wires, net_of, make_net. simpl. fold newNet.
      by rewrite lookup_total_insert_eq.
    - unfold WireNet.wires, net_of, make_net. simpl. fold newNet.
      by rewrite lookup_total_insert_ne. }
  assert (Hwire : ∀ x, wire_of s' x
                       = if decide (w = x) then setNet (Some newNet) (wire_of s w)
                         else wire_of s x).
  { intros x. unfold s'.
    change (wire_of (wire_manager.addWireNet (Some newNet) ?t) x)
      with (wire_of t x).
    by rewrite wire_of_addWire. }
  assert (Hobs : ∀ x, points_of s' x = points_of s x
                      ∧ connected_wires s' x = connected_wires s x).
  { intros x. unfold points_of, connected_wires. rewrite Hwire.
    destruct (decide (w = x)) as [->|]; done. }
  assert (Hall : (∀ n, n ∈ _nets s → n ∈ dom (net_store s)) →
                 wire_manager.wires s' = wire_manager.wires s ++ [w]).
  { intros Halloc. unfold wire_manager.wires. rewrite Hnets.
    rewrite fmap_app, concat_app. simpl. rewrite app_nil_r.
    rewrite (Hwires newNet), decide_True by done. f_equal. f_equal.
    apply list_fmap_ext. intros i n Hn. rewrite Hwires.
    rewrite decide_False; [done|]. intros ->.
    apply Hfresh, Halloc. by eapply list_elem_of_lookup_2. }
  split; [done|]. split; [done|].
  split; [by rewrite Hwires, decide_True|].
  split.
  { unfold WireNet.name, net_of, s'. simpl. fold newNet.
    unfold update_net, net_of. simpl. fold newNet.
    rewrite lookup_total_insert_eq. simpl.
    by rewrite lookup_total_insert_eq. }
  split; [by rewrite Hwire, decide_True|].
  split; [done|]. split; [done|].
  intros Hc Hw Hlink.
  assert (Hnew : newNet ∉ _nets s).
  { intros H. by apply Hfresh, Hc. }
  assert (Hreach : ∀ u v, reachable s' u v ↔ reachable s u v).
  { apply reachable_iff. intros x. apply Hobs. }
  assert (Hold : ∀ n x, n ∈ _nets s → x ∈ WireNet.wires s n → x ≠ w).
  { intros n x Hn Hx ->. apply Hw, elem_of_wires. by exists n. }
  split.
  - rewrite Hnets. apply NoDup_app. split; [apply Hc|].
    split; [|apply NoDup_singleton].
    intros n Hn Hn'. apply list_elem_of_singleton in Hn' as ->. done.
  - intros n. rewrite Hnets, elem_of_app, list_elem_of_singleton.
    unfold s'. simpl. fold newNet.
    rewrite !dom_insert, !elem_of_union, !elem_of_singleton.
    intros [Hn| ->]; [|tauto]. right. right. by apply Hc.
  - intros n. rewrite Hnets, elem_of_app, list_elem_of_singleton, Hwires.
    intros [Hn| ->].
    + rewrite decide_False by (intros ->; done). by apply Hc.
    + rewrite decide_True by done. apply NoDup_singleton.
  - intros n x. rewrite Hnets, elem_of_app, list_elem_of_singleton, Hwires.
    intros [Hn| ->].
    + rewrite decide_False by (intros ->; done). intros Hx.
      rewrite Hwire, decide_False by (intros ->; by eapply Hold).
      by apply Hc.
    + rewrite decide_True by done. intros ->%list_elem_of_singleton.
      by rewrite Hwire, decide_True.
  - intros n x y. rewrite Hnets, elem_of_app, list_elem_of_singleton.
    rewrite !Hwires, Hreach.
    intros [Hn| ->].
    + rewrite decide_False by (intros ->; done). by apply Hc.
    + rewrite decide_True by done. intros ->%list_elem_of_singleton.
      rewrite list_elem_of_singleton. split.
      * by apply reachable_unlinked.
      * intros ->. apply rtc_refl.
Qed.

(** ** Merging two nets *)

(** X19: [mergeNets] of a net with itself answers [false] and changes
    nothing. For two different nets it answers [true]: the wires of
    [otherNet] are put at the end of [net], in their order, and point back
    at [net]; [otherNet] is left without wires but stays in the list of nets
    (the caller removes it), and the name of [net] stays. With a null
    [otherNet] the call faults; with a null [net] it faults as soon as
    [otherNet] has a wire. *)
Theorem mergeNets_moves_the_wires s nA nB :
  (∀ n, wire_manager.mergeNets n n s = Some (false, s))
  ∧ wire_manager.mergeNets (Some nA) None s = None
  ∧ (wire_manager.mergeNets None (Some nB) s
     = if decide (WireNet.wires s nB = []) then Some (true, s) else None)
  ∧ (nA ≠ nB →
     ∃ s', wire_manager.mergeNets (Some nA) (Some nB) s = Some (true, s')
       ∧ WireNet.wires s' nA = WireNet.wires s nA ++ WireNet.wires s nB
       ∧ WireNet.wires s' nB = []
       ∧ (∀ n, n ≠ nA → n ≠ nB → WireNet.wires s' n = WireNet.wires s n)
       ∧ (∀ w, _net (wire_of s' w)
               = if decide (w ∈ WireNet.wires s nB) then Some nA
                 else _net (wire_of s w))
       ∧ (∀ n, WireNet.name s' n = WireNet.name s n)
       ∧ _nets s' = _nets s
       ∧ (∀ w, points_of s' w = points_of s w
               ∧ connected_wires s' w = connected_wires s w)).
Proof.
  split; [|split; [|split]].
  - intros n. unfold wire_manager.mergeNets. by rewrite decide_True.
  - unfold wire_manager.mergeNets. by rewrite decide_False.
  - unfold wire_manager.mergeNets. rewrite decide_False by done. simpl.
    by destruct (WireNet.wires s nB) as [|w l].
  - intros Hne. rewrite mergeNets_distinct by done.
    destruct (move_wires_spec nA nB (λ _, false) Hne (WireNet.wires s nB) s)
      as (s' & Hs' & Hnet & Hpts & Hconn & Hwires & Hname & Hnets & _).
    rewrite filter_all_false in Hnet, Hwires.
    exists s'. rewrite Hs'. simpl. split; [done|].
    split; [by rewrite Hwires, decide_True|].
    split.
    { rewrite Hwires, decide_False by done. rewrite decide_True by done.
      apply filter_notin_self. }
    split.
    { intros n H1 H2. rewrite Hwires. by rewrite !decide_False. }
    done.
Qed.

(** ** Connecting twice, and connecting and disconnecting again *)

(** In a consistent state two managed wires have the same net exactly when
    one is reachable from the other. *)
Lemma same_net_iff_reachable s x y :
  consistent s → x ∈ wire_manager.wires s → y ∈ wire_manager.wires s →
  (_net (wire_of s x) = _net (wire_of s y) ↔ reachable s x y).
Proof.
  intros Hc Hx Hy.
  destruct (managed_in_net s x Hc Hx) as (nx & Hnx & Hxn & Ex).
  destruct (managed_in_net s y Hc Hy) as (ny & Hny & Hyn & Ey).
  rewrite Ex, Ey. split.
  - intros [= ->]. by eapply in_same_net.
  - intros Hr. f_equal. eapply (nets_disjoint s nx ny y); try done.
    by eapply reach_in_net.
Qed.

(** X20: [connectWire] of two managed wires returns, and a second
    [connectWire] of the same wires changes nothing. Afterwards the first
    wire holds the second, and two managed wires are in one net exactly when
    they were connected before the call or are joined by the new
    connection. *)
Theorem connectWire_twice s a b :
  consistent s → a ∈ wire_manager.wires s → b ∈ wire_manager.wires s →
  ∃ s', wire_manager.connectWire a b s = Some s'
    ∧ wire_manager.connectWire a b s' = Some s'
    ∧ b ∈ connected_wires s' a
    ∧ (∀ x y, x ∈ wire_manager.wires s → y ∈ wire_manager.wires s →
         (_net (wire_of s' x) = _net (wire_of s' y)
          ↔ reachable s x y
            ∨ (reachable s x a ∧ reachable s b y)
            ∨ (reachable s x b ∧ reachable s a y))).
Proof.
  intros Hc Ha Hb.
  destruct (connectWire_spec s a b Hc Ha Hb)
    as (s' & Hs' & Hc' & Hpts & Hconn & Hw & Hnet & _).
  exists s'. split; [done|].
  assert (Hin : b ∈ connected_wires s' a).
  { rewrite Hconn. destruct (decide (a = a ∧ b ∉ connected_wires s a))
      as [_|Hn]; [set_solver|].
    destruct (decide (b ∈ connected_wires s a)); tauto. }
  split.
  { rewrite connectWire_unfold.
    by rewrite (proj2 (contains_true (connected_wires s' a) b) Hin). }
  split; [done|].
  intros x y Hx Hy.
  rewrite (same_net_iff_reachable s' x y Hc') by (by apply Hw).
  destruct (decide (b ∈ connected_wires s a)) as [Hold|Hnew].
  - assert (∀ u v, reachable s' u v ↔ reachable s u v) as ->.
    { apply reachable_iff. intros w. rewrite Hconn.
      rewrite decide_False; [done|tauto]. }
    split; [tauto|].
    assert (reachable s a b) as Hab by (apply rtc_once; by left).
    intros [?|[[H1 H2]|[H1 H2]]]; [done| |].
    + eapply reachable_trans; [done|]. by eapply reachable_trans.
    + eapply reachable_trans; [done|].
      eapply reachable_trans; [|done]. by apply reachable_sym.
  - assert (∀ u v, reachable s' u v ↔ reachable (link_added a b s) u v) as ->.
    { apply reachable_iff. intros w.
      rewrite Hconn, connected_wires_link_added.
      destruct (decide (w = a)) as [->|].
      - by rewrite decide_True.
      - rewrite decide_False; [done|tauto]. }
    apply reachable_link_added.
Qed.

Lemma connectWire_twice_witness :
  (consistent three_wire_scene
   ∧ 0%nat ∈ wire_manager.wires three_wire_scene
   ∧ 2%nat ∈ wire_manager.wires three_wire_scene)
  ∧ ∃ s', wire_manager.connectWire 0%nat 2%nat three_wire_scene = Some s'
          ∧ wire_manager.connectWire 0%nat 2%nat s' = Some s'
          ∧ 2%nat ∈ connected_wires s' 0%nat.
Proof.
  assert (H0 : 0%nat ∈ wire_manager.wires three_wire_scene)
    by (vm_compute; repeat constructor).
  assert (H2 : 2%nat ∈ wire_manager.wires three_wire_scene)
    by (vm_compute; repeat constructor).
  split; [split; [exact consistent_three_wire_scene|split; [exact H0|exact H2]]|].
  destruct (connectWire_twice three_wire_scene 0%nat 2%nat
              consistent_three_wire_scene H0 H2) as (s' & E1 & E2 & Hin & _).
  exists s'. split; [exact E1|]. split; [exact E2|exact Hin].
Defined.

(** X21: [connectWire] of two managed wires that the first does not hold
    yet, followed by [disconnectWire] of the same wires, gives back the
    connections: every wire holds the wires it held, the points are
    untouched, the same wires are managed, and two wires are in one net
    afterwards exactly when they were before. *)
Theorem disconnectWire_after_connectWire s a b :
  consistent s → a ∈ wire_manager.wires s → b ∈ wire_manager.wires s →
  b ∉ connected_wires s a →
  ∃ s1 s2, wire_manager.connectWire a b s = Some s1
    ∧ wire_manager.disconnectWire a b s1 = Some s2
    ∧ consistent s2
    ∧ (∀ w, connected_wires s2 w = connected_wires s w)
    ∧ (∀ w, points_of s2 w = points_of s w)
    ∧ (∀ w, w ∈ wire_manager.wires s2 ↔ w ∈ wire_manager.wires s)
    ∧ (∀ x y, x ∈ wire_manager.wires s → y ∈ wire_manager.wires s →
         (_net (wire_of s2 x) = _net (wire_of s2 y)
          ↔ _net (wire_of s x) = _net (wire_of s y)))
    ∧ _connections s2 = _connections s.
Proof.
  intros Hc Ha Hb Hnew.
  destruct (connectWire_spec s a b Hc Ha Hb)
    as (s1 & Hs1 & Hc1 & Hpts1 & Hconn1 & Hw1 & _ & Hk1 & _).
  destruct (disconnectWire_spec s1 a b Hc1) as
    (s2 & l & Hs2 & Hc2 & Hpts2 & Hconn2 & Hw2 & Hk2 & _);
    [by apply Hw1|by apply Hw1|].
  exists s1, s2. split; [done|]. split; [done|]. split; [done|].
  assert (Hconn : ∀ w, connected_wires s2 w = connected_wires s w).
  { intros w. rewrite Hconn2. destruct (decide (w = a)) as [->|Hne].
    - rewrite Hconn1, decide_True by done. by apply removeAll_app_self.
    - rewrite Hconn1. rewrite decide_False; [done|tauto]. }
  split; [done|].
  split; [intros w; by rewrite Hpts2, Hpts1|].
  split; [intros w; by rewrite Hw2, Hw1|].
  split; [|congruence].
  intros x y Hx Hy.
  rewrite (same_net_iff_reachable s2 x y Hc2)
    by (by apply Hw2, Hw1).
  rewrite (same_net_iff_reachable s x y Hc) by done.
  by apply reachable_iff.
Qed.

Lemma disconnectWire_after_connectWire_witness :
  (consistent three_wire_scene
   ∧ 0%nat ∈ wire_manager.wires three_wire_scene
   ∧ 2%nat ∈ wire_manager.wires three_wire_scene
   ∧ (2%nat ∉ connected_wires three_wire_scene 0%nat))
  ∧ ∃ s1 s2, wire_manager.connectWire 0%nat 2%nat three_wire_scene = Some s1
      ∧ wire_manager.disconnectWire 0%nat 2%nat s1 = Some s2
      ∧ ∀ w, connected_wires s2 w = connected_wires three_wire_scene w.
Proof.
  assert (H0 : 0%nat ∈ wire_manager.wires three_wire_scene)
    by (vm_compute; repeat constructor).
  assert (H2 : 2%nat ∈ wire_manager.wires three_wire_scene)
    by (vm_compute; repeat constructor).
  assert (Hn : 2%nat ∉ connected_wires three_wire_scene 0%nat)
    by (vm_compute; apply not_elem_of_nil).
  split; [split; [exact consistent_three_wire_scene
                 |split; [exact H0|split; [exact H2|exact Hn]]]|].
  destruct (disconnectWire_after_connectWire three_wire_scene 0%nat 2%nat
              consistent_three_wire_scene H0 H2 Hn)
    as (s1 & s2 & E1 & E2 & _ & Hconn & _).
  exists s1, s2. split; [exact E1|]. split; [exact E2|exact Hconn].
Defined.

(** ** Generating the junctions a second time *)

Section generateJunctions_twice.
Variable containsPoint : Line → QPointF → Z → bool.

(** X22: a second [generateJunctions] right after the first one finds
    nothing to do: no wire holds a wire it did not hold, no junction flag
    and no coordinate changes, and the wires are grouped in nets as
    before. *)
Theorem generateJunctions_twice s :
  consistent s →
  (∀ w, w ∈ wire_manager.wires s → coords_of s w ≠ []) →
  ∃ s1 s2, wire_manager.generateJunctions containsPoint s = Some s1
    ∧ wire_manager.generateJunctions containsPoint s1 = Some s2
    ∧ (∀ A B, B ∈ connected_wires s2 A ↔ B ∈ connected_wires s1 A)
    ∧ (∀ B i, junction_at s2 B i = junction_at s1 B i)
    ∧ (∀ w, coords_of s2 w = coords_of s1 w)
    ∧ (∀ w, w ∈ wire_manager.wires s2 ↔ w ∈ wire_manager.wires s1)
    ∧ (∀ x y, x ∈ wire_manager.wires s1 → y ∈ wire_manager.wires s1 →
         (_net (wire_of s2 x) = _net (wire_of s2 y)
          ↔ _net (wire_of s1 x) = _net (wire_of s1 y))).
Proof.
  intros Hc Hpts.
  destruct (generateJunctions_spec containsPoint s Hc Hpts)
    as (s1 & Hs1 & [Hc1 Hco1 Hw1 Hconn1 Hfl1]).
  destruct (generateJunctions_spec containsPoint s1 Hc1)
    as (s2 & Hs2 & [Hc2 Hco2 Hw2 Hconn2 Hfl2]).
  { intros w Hw. rewrite Hco1. by apply Hpts, Hw1. }
  exists s1, s2. split; [done|]. split; [done|].
  assert (Hf : ∀ A B, first_on containsPoint s1 A B
                      = first_on containsPoint s A B)
    by (intros; by apply first_on_coords).
  assert (Hl : ∀ A B, last_on containsPoint s1 A B
                      = last_on containsPoint s A B)
    by (intros; by apply last_on_coords).
  assert (Hconn : ∀ A B, B ∈ connected_wires s2 A ↔ B ∈ connected_wires s1 A).
  { intros A B. rewrite Hconn2. split; [|tauto].
    intros [H|((HA & HB) & Hne & Hon)]; [done|].
    rewrite Hf, Hl in Hon. apply Hconn1. right.
    split; [|done]. split; by apply Hw1. }
  split; [done|]. split.
  { intros B i. apply eq_true_iff_eq. rewrite Hfl2. split; [|tauto].
    intros [H|(A & (HA & HB) & Hne & Hon)]; [done|].
    rewrite Hf, Hl, Hco1 in Hon. apply Hfl1. right. exists A.
    split; [|done]. split; by apply Hw1. }
  split; [done|]. split; [done|].
  intros x y Hx Hy.
  rewrite (same_net_iff_reachable s2 x y Hc2) by (by apply Hw2).
  rewrite (same_net_iff_reachable s1 x y Hc1) by done.
  by apply reachable_same_members.
Qed.

End generateJunctions_twice.

Lemma generateJunctions_twice_witness :
  (consistent two_wire_scene
   ∧ ∀ w, w ∈ wire_manager.wires two_wire_scene →
          coords_of two_wire_scene w ≠ [])
  ∧ ∃ s1 s2,
      wire_manager.generateJunctions line.containsPoint two_wire_scene = Some s1
      ∧ wire_manager.generateJunctions line.containsPoint s1 = Some s2
      ∧ ∀ B i, junction_at s2 B i = junction_at s1 B i.
Proof.
  split; [split; [exact consistent_two_wire_scene
                 | exact two_wire_scene_points]|].
  destruct (generateJunctions_twice line.containsPoint two_wire_scene
              consistent_two_wire_scene two_wire_scene_points)
    as (s1 & s2 & E1 & E2 & _ & Hfl & _).
  exists s1, s2. split; [exact E1|]. split; [exact E2|exact Hfl].
Defined.


(** ** Removing a wire *)

Lemma same_but_flags_refl s : same_but_flags s s.
Proof. done. Qed.

Lemma same_but_flags_trans s1 s2 s3 :
  same_but_flags s1 s2 → same_but_flags s2 s3 → same_but_flags s1 s3.
Proof.
  intros (A1 & B1 & C1 & D1 & E1 & F1) (A2 & B2 & C2 & D2 & E2 & F2).
  repeat split; intros; congruence.
Qed.

Lemma same_but_flags_setPointIsJunction B i b s :
  same_but_flags s (update_wire B (Wire.setPointIsJunction i b) s).
Proof.
  repeat split.
  - intros w. apply coords_setPointIsJunction.
  - intros w. apply connected_wires_setPointIsJunction.
  - intros w. apply net_setPointIsJunction.
Qed.

Lemma same_but_flags_wires s s' n :
  same_but_flags s s' → WireNet.wires s' n = WireNet.wires s n.
Proof. intros (_ & _ & _ & E & _). unfold WireNet.wires, net_of. by rewrite E. Qed.

Lemma same_but_flags_managed s s' w :
  same_but_flags s s' →
  w ∈ wire_manager.wires s' ↔ w ∈ wire_manager.wires s.
Proof.
  intros H. rewrite !elem_of_wires.
  destruct H as (_ & _ & _ & E & En & _).
  unfold WireNet.wires, net_of. by rewrite E, En.
Qed.

Lemma same_but_flags_consistent s s' :
  same_but_flags s s' → consistent s → consistent s'.
Proof.
  intros H Hc. pose proof H as (A & B & C & D & E & F).
  apply (consistent_same_nets s); try done.
  - intros n. by apply same_but_flags_wires.
  - intros n. by rewrite D.
  - intros n w x _ _. by apply reachable_iff.
Qed.

Lemma junction_at_clear B i s w j :
  junction_at (update_wire B (Wire.setPointIsJunction i false) s) w j = true
  ↔ junction_at s w j = true ∧ ¬ (w = B ∧ j = i).
Proof.
  unfold junction_at, points_of. rewrite wire_of_update_wire.
  destruct (decide (B = w)) as [->|Hne]; [|naive_solver].
  unfold Wire.setPointIsJunction. case_bool_decide as Hr.
  - split; [|tauto]. intros H. split; [done|]. intros [_ ->].
    destruct (QVector.at_ (_points (wire_of s w)) i) eqn:E; [|done].
    apply at_Some in E. unfold Wire.points_count in Hr. lia.
  - simpl. rewrite at_alter.
    destruct (decide (j = Z.of_nat (Z.to_nat i))) as [Hj|Hj].
    + assert (j = i) as -> by lia.
      destruct (QVector.at_ (_points (wire_of s w)) i); simpl; naive_solver.
    + assert (j ≠ i) by lia. naive_solver.
Qed.

Section removeWire.
Variable containsPoint : Line → QPointF → Z → bool.

Lemma removeWire_junctions_unfold fuel index wire otherWire s :
  wire_manager.removeWire_junctions containsPoint fuel index wire otherWire s =
  if bool_decide
       (index < QVector.count (Wire.pointsAbsolute (wire_of s otherWire)))
  then
    match fuel with
    | O => None
    | S fuel =>
      p ← QVector.at_ (_points (wire_of s otherWire)) index;
      let s :=
        if negb (isJunction p) then s
        else if Wire.pointIsOnWire containsPoint (wire_of s wire)
                  (point.toPointF p)
             then update_wire otherWire
                    (Wire.setPointIsJunction index false) s
             else s in
      wire_manager.removeWire_junctions containsPoint fuel (index + 1)
        wire otherWire s
    end
  else Some s.
Proof. by destruct fuel. Qed.

Lemma point_on_same s s' A B j :
  (∀ w, coords_of s' w = coords_of s w) →
  point_on containsPoint s' A B j = point_on containsPoint s A B j.
Proof.
  intros H. unfold point_on. rewrite H.
  destruct (QVector.at_ (coords_of s B) j); [|done].
  by apply pointIsOnWire_coords.
Qed.

Lemma junction_at_in_range s w j :
  junction_at s w j = true → 0 ≤ j < QVector.count (coords_of s w).
Proof.
  unfold junction_at, points_of. rewrite count_coords.
  destruct (QVector.at_ (_points (wire_of s w)) j) eqn:E; [|done].
  intros _. by apply at_Some in E.
Qed.

Lemma removeWire_junctions_spec wire other fuel : ∀ index s,
  0 ≤ index →
  QVector.count (coords_of s other) - index ≤ Z.of_nat fuel →
  ∃ s', wire_manager.removeWire_junctions containsPoint fuel index wire other s
        = Some s'
    ∧ same_but_flags s s'
    ∧ ∀ w j, junction_at s' w j = true
             ↔ junction_at s w j = true
               ∧ ¬ (w = other ∧ index ≤ j
                    ∧ point_on containsPoint s wire other j = true).
Proof.
  induction fuel as [|fuel IH]; intros index s Hi Hfuel;
    rewrite removeWire_junctions_unfold; fold (coords_of s other);
    case_bool_decide as Hcond.
  - lia.
  - exists s. split; [done|]. split; [done|]. intros w j. split; [|tauto].
    intros H. split; [done|]. intros (-> & Hj & _).
    apply junction_at_in_range in H. lia.
  - destruct (at_is_Some (_points (wire_of s other)) index) as [p Hp].
    { rewrite count_coords in Hcond. unfold Wire.points_count in Hcond. lia. }
    rewrite Hp. simpl.
    match goal with
    | |- ∃ s', wire_manager.removeWire_junctions _ _ _ _ _ ?t = _ ∧ _ =>
      set (s1 := t)
    end.
    assert (Hs1 : same_but_flags s s1
                  ∧ ∀ w j, junction_at s1 w j = true
                           ↔ junction_at s w j = true
                             ∧ ¬ (w = other ∧ j = index
                                  ∧ point_on containsPoint s wire other j
                                    = true)).
    { assert (Hjp : junction_at s other index = isJunction p).
      { unfold junction_at, points_of. by rewrite Hp. }
      assert (Hon : point_on containsPoint s wire other index
                    = Wire.pointIsOnWire containsPoint (wire_of s wire)
                        (point.toPointF p)).
      { unfold point_on. by rewrite at_coords, Hp. }
      subst s1. destruct (isJunction p) eqn:Hj; simpl.
      - destruct (Wire.pointIsOnWire containsPoint (wire_of s wire)
                    (point.toPointF p)) eqn:Hw.
        + split; [apply same_but_flags_setPointIsJunction|].
          intros w j. rewrite junction_at_clear. split.
          * intros [H1 H2]. split; [done|]. intros (-> & -> & _). tauto.
          * intros [H1 H2]. split; [done|]. intros [-> ->].
            apply H2. by rewrite Hon.
        + split; [done|]. intros w j. split; [|tauto].
          intros H. split; [done|]. intros (-> & -> & H2). congruence.
      - split; [done|]. intros w j. split; [|tauto].
        intros H. split; [done|]. intros (-> & -> & _). congruence. }
    destruct Hs1 as [Hsame1 Hfl1].
    destruct (IH (index + 1) s1) as (s' & Hs' & Hsame' & Hfl'); [lia| |].
    { destruct Hsame1 as (Hco & _). rewrite Hco. lia. }
    exists s'. split; [done|].
    split; [by eapply same_but_flags_trans|].
    intros w j. rewrite Hfl', Hfl1.
    rewrite (point_on_same s s1) by apply Hsame1.
    split.
    + intros [[H1 H2] H3]. split; [done|]. intros (-> & Hj & Hon).
      destruct (decide (j = index)) as [->|]; [tauto|].
      apply H3. split; [done|]. split; [lia|done].
    + intros [H1 H2]. split; [split; [done|]|].
      * intros (-> & -> & Hon). apply H2. split; [done|]. split; [lia|done].
      * intros (-> & Hj & Hon). apply H2. split; [done|]. split; [lia|done].
  - exists s. split; [done|]. split; [done|]. intros w j. split; [|tauto].
    intros H. split; [done|]. intros (-> & Hj & _).
    apply junction_at_in_range in H. lia.
Qed.

Lemma coords_of_points s s' w :
  points_of s' w = points_of s w → coords_of s' w = coords_of s w.
Proof.
  unfold coords_of, Wire.pointsAbsolute. fold (points_of s' w).
  fold (points_of s w). by intros ->.
Qed.

Lemma junction_at_points s s' w j :
  points_of s' w = points_of s w → junction_at s' w j = junction_at s w j.
Proof. unfold junction_at. by intros ->. Qed.

(** The body of the first loop of [removeWire] for one wire [a]. *)
Lemma removeWire_round s wire a :
  consistent s → wire ∈ wire_manager.wires s → a ∈ wire_manager.wires s →
  ∃ s', (s2 ← wire_manager.disconnectWire a wire s;
         wire_manager.removeWire_junctions containsPoint
           (length (_points (wire_of s2 a))) 0 wire a s2) = Some s'
    ∧ consistent s'
    ∧ (∀ w, coords_of s' w = coords_of s w)
    ∧ (∀ w, w ∈ wire_manager.wires s' ↔ w ∈ wire_manager.wires s)
    ∧ (∀ x, connected_wires s' x
            = if decide (x = a)
              then QVector.removeAll wire (connected_wires s a)
              else connected_wires s x)
    ∧ (∀ w j, junction_at s' w j = true
              ↔ junction_at s w j = true
                ∧ ¬ (w = a ∧ point_on containsPoint s wire a j = true))
    ∧ _connections s' = _connections s.
Proof.
  intros Hc Hw Ha.
  destruct (disconnectWire_spec s a wire Hc Ha Hw)
    as (s2 & l & Hs2 & Hc2 & Hpts2 & Hconn2 & Hw2 & Hk2 & _).
  rewrite Hs2. simpl.
  assert (Hco2 : ∀ w, coords_of s2 w = coords_of s w)
    by (intros w; by apply coords_of_points).
  destruct (removeWire_junctions_spec wire a
              (length (_points (wire_of s2 a))) 0 s2)
    as (s' & Hs' & Hsame & Hfl); [done| |].
  { rewrite count_coords. unfold Wire.points_count, QVector.count. lia. }
  exists s'. split; [done|].
  split; [by eapply same_but_flags_consistent|].
  pose proof Hsame as (Hco & Hconn & _ & _ & _ & Hk).
  split; [intros w; by rewrite Hco|].
  split; [intros w; by rewrite (same_but_flags_managed s2 s')|].
  split; [intros x; by rewrite Hconn|].
  split; [|congruence].
  intros w j. rewrite Hfl, (junction_at_points s s2) by done.
  rewrite (point_on_same s s2) by done.
  split.
  - intros [H1 H2]. split; [done|]. intros [-> Hon]. apply H2.
    split; [done|]. split; [|done]. apply junction_at_in_range in H1. lia.
  - intros [H1 H2]. split; [done|]. intros (-> & _ & Hon). tauto.
Qed.

Lemma removeAll_idemp (l : list WireId) a :
  QVector.removeAll a (QVector.removeAll a l) = QVector.removeAll a l.
Proof.
  apply removeAll_notin. intros H. apply elem_of_removeAll in H. tauto.
Qed.

(** The first loop of [removeWire], over the wires [L]. *)
Lemma removeWire_disconnects s wire L :
  consistent s → wire ∈ wire_manager.wires s →
  (∀ a, a ∈ L → a ∈ wire_manager.wires s) →
  ∃ s', for_each L
          (λ otherWire s,
             if decide (otherWire ≠ wire) then
               s ← wire_manager.disconnectWire otherWire wire s;
               wire_manager.removeWire_junctions containsPoint
                 (length (_points (wire_of s otherWire))) 0
                 wire otherWire s
             else Some s)
          s = Some s'
    ∧ consistent s'
    ∧ (∀ w, coords_of s' w = coords_of s w)
    ∧ (∀ w, w ∈ wire_manager.wires s' ↔ w ∈ wire_manager.wires s)
    ∧ (∀ x, connected_wires s' x
            = if decide (x ∈ L ∧ x ≠ wire)
              then QVector.removeAll wire (connected_wires s x)
              else connected_wires s x)
    ∧ (∀ w j, junction_at s' w j = true
              ↔ junction_at s w j = true
                ∧ ¬ (w ∈ L ∧ w ≠ wire
                     ∧ point_on containsPoint s wire w j = true))
    ∧ _connections s' = _connections s.
Proof.
  intros Hc Hw HL.
  set (P := (λ (pre : list WireId) (s' : scene),
       consistent s'
       ∧ (∀ w, coords_of s' w = coords_of s w)
       ∧ (∀ w, w ∈ wire_manager.wires s' ↔ w ∈ wire_manager.wires s)
       ∧ (∀ x, connected_wires s' x
               = if decide (x ∈ pre ∧ x ≠ wire)
                 then QVector.removeAll wire (connected_wires s x)
                 else connected_wires s x)
       ∧ (∀ w j, junction_at s' w j = true
                 ↔ junction_at s w j = true
                   ∧ ¬ (w ∈ pre ∧ w ≠ wire
                        ∧ point_on containsPoint s wire w j = true))
       ∧ _connections s' = _connections s)).
  match goal with
  | |- ∃ s', for_each L ?body s = _ ∧ _ =>
    destruct (for_each_invariant P body L s) as (s' & Hs' & HP);
      [| |exists s'; split; [exact Hs'|exact HP]]
  end.
  - split; [done|]. split; [done|]. split; [done|].
    split.
    { intros x. rewrite decide_False; [done|]. intros [H _].
      by apply elem_of_nil in H. }
    split; [|done]. intros w j. split; [|tauto]. intros H. split; [done|].
    intros (H1 & _). by apply elem_of_nil in H1.
  - intros pre a s1 (Hc1 & Hco1 & Hw1 & Hconn1 & Hfl1 & Hk1) Ha.
    destruct (decide (a ≠ wire)) as [Hne|Heq].
    + destruct (removeWire_round s1 wire a Hc1)
        as (s' & Hs' & Hc' & Hco' & Hw' & Hconn' & Hfl' & Hk');
        [by apply Hw1|by apply Hw1, HL|].
      exists s'. split; [done|]. split; [done|].
      split; [intros w; by rewrite Hco'|].
      split; [intros w; by rewrite Hw'|].
      split; [|split; [|congruence]].
      * intros x. rewrite Hconn'. destruct (decide (x = a)) as [->|Hxa].
        -- rewrite (decide_True (P := a ∈ pre ++ [a] ∧ _))
             by (split; [set_solver|done]).
           rewrite Hconn1. destruct (decide _); [|done].
           apply removeAll_idemp.
        -- rewrite Hconn1. apply decide_ext. set_solver.
      * intros w j. rewrite Hfl', Hfl1, (point_on_same s s1) by done.
        rewrite elem_of_app, list_elem_of_singleton.
        split.
        -- intros [[H1 H2] H3]. split; [done|].
           intros ([Hin| ->] & Hwne & Hon); [apply H2|apply H3]; done.
        -- intros [H1 H2]. split; [split; [done|]|].
           ++ intros (Hin & Hwne & Hon). apply H2. tauto.
           ++ intros [-> Hon]. apply H2. tauto.
    + assert (a = wire) as -> by (destruct (decide (a = wire)); tauto).
      exists s1. split; [done|]. split; [done|]. split; [done|].
      split; [done|]. split; [|split; [|done]].
      * intros x. rewrite Hconn1. apply decide_ext. set_solver.
      * intros w j. rewrite Hfl1, elem_of_app, list_elem_of_singleton.
        split; intros [H1 H2]; (split; [done|]); intros H; apply H2; tauto.
Qed.

End removeWire.

(** The second loop of [removeWire]: the wire is taken out of every net,
    and the nets that are empty then are listed. *)
Lemma removeWire_nets wire (L : list NetId) : ∀ del s,
  let r := foldl
    (λ '(netsToDelete, s) net,
       let s := if WireNet.contains s net wire
                then WireNet.removeWire net wire s else s in
       if bool_decide (QVector.count (WireNet.wires s net) < 1)
       then (netsToDelete ++ [net], s) else (netsToDelete, s))
    (del, s) L in
  r.1 = del ++ filter (λ n, QVector.removeAll wire (WireNet.wires s n) = []) L
  ∧ (∀ n, WireNet.wires r.2 n
          = if decide (n ∈ L) then QVector.removeAll wire (WireNet.wires s n)
            else WireNet.wires s n)
  ∧ (∀ w, wire_of r.2 w = wire_of s w)
  ∧ _nets r.2 = _nets s
  ∧ _connections r.2 = _connections s
  ∧ (∀ n, n ∈ dom (net_store s) → n ∈ dom (net_store r.2)).
Proof.
  induction L as [|n L IH]; intros del s; cbn [foldl].
  - cbn [fst snd]. rewrite filter_nil, app_nil_r. repeat split; try done.
  - set (s1 := if WireNet.contains s n wire
               then WireNet.removeWire n wire s else s).
    assert (Hs1 : (∀ m, WireNet.wires s1 m
                        = if decide (m = n)
                          then QVector.removeAll wire (WireNet.wires s n)
                          else WireNet.wires s m)
                  ∧ (∀ w, wire_of s1 w = wire_of s w)
                  ∧ _nets s1 = _nets s
                  ∧ _connections s1 = _connections s
                  ∧ (∀ m, m ∈ dom (net_store s) → m ∈ dom (net_store s1))).
    { subst s1. unfold WireNet.contains. fold (WireNet.wires s n).
      destruct (QVector.contains (WireNet.wires s n) wire) eqn:E.
      - split; [intros m; apply wires_removeWire|].
        split; [intros w; apply wire_of_removeWire|].
        split; [done|]. split; [done|].
        intros m Hm. unfold WireNet.removeWire, update_net. simpl.
        rewrite dom_insert. set_solver.
      - apply contains_false in E. split; [|done].
        intros m. destruct (decide (m = n)) as [->|]; [|done].
        by rewrite removeAll_notin. }
    destruct Hs1 as (Hw1 & Hwire1 & Hn1 & Hk1 & Hd1).
    match goal with
    | |- context [foldl ?f ?init L] =>
      assert (init
              = (del ++ filter
                   (λ m, QVector.removeAll wire (WireNet.wires s m) = []) [n],
                 s1)) as ->
    end.
    { rewrite (Hw1 n), decide_True by done.
      destruct (decide (QVector.removeAll wire (WireNet.wires s n) = []))
        as [E|E].
      - rewrite bool_decide_eq_true_2
          by (rewrite E; unfold QVector.count; simpl; lia).
        by rewrite filter_cons_True.
      - rewrite bool_decide_eq_false_2.
        2:{ unfold QVector.count.
            destruct (QVector.removeAll wire (WireNet.wires s n));
              [done|simpl; lia]. }
        rewrite filter_cons_False by done. by rewrite filter_nil, app_nil_r. }
    specialize (IH (del ++ filter
                      (λ m, QVector.removeAll wire (WireNet.wires s m) = [])
                      [n]) s1).
    cbv zeta in IH. destruct IH as (Hdel & Hw & Hwire & Hn & Hk & Hd).
    split; [|split; [|split; [|split; [|split]]]].
    + rewrite Hdel. rewrite <- app_assoc. f_equal.
      change (n :: L) with ([n] ++ L). rewrite filter_app. f_equal.
      apply list_filter_iff. intros m. rewrite Hw1.
      destruct (decide (m = n)) as [->|]; [|done].
      by rewrite removeAll_idemp.
    + intros m. rewrite Hw, Hw1.
      destruct (decide (m = n)) as [->|Hmn].
      * rewrite (decide_True (P := n ∈ n :: L)) by (by left).
        destruct (decide (n ∈ L)); [apply removeAll_idemp|done].
      * apply decide_ext. set_solver.
    + intros w. by rewrite Hwire.
    + congruence.
    + congruence.
    + intros m Hm. by apply Hd, Hd1.
Qed.

(** The third loop of [removeWire]: the listed nets are taken out of the
    list of the manager. *)
Lemma removeWire_deletes (del : list NetId) : ∀ s,
  let s' := foldl (λ s net, wire_manager.removeWireNet (Some net) s) s del in
  _nets s' = filter (λ n, n ∉ del) (_nets s)
  ∧ wire_store s' = wire_store s
  ∧ net_store s' = net_store s
  ∧ _connections s' = _connections s.
Proof.
  induction del as [|n del IH]; intros s; cbn [foldl].
  - split; [|done]. symmetry. apply filter_all. intros n _.
    apply not_elem_of_nil.
  - specialize (IH (wire_manager.removeWireNet (Some n) s)).
    cbv zeta in IH. destruct IH as (Hn & Hw & Hs & Hk).
    split; [|done]. rewrite Hn. simpl. unfold QVector.removeAll.
    rewrite list_filter_filter. apply list_filter_iff. intros m.
    rewrite elem_of_cons. tauto.
Qed.

Section removeWire_spec.
Variable containsPoint : Line → QPointF → Z → bool.

(** X23: [removeWire] of a managed wire returns [true]. Afterwards the wire
    is in no net and is not managed any more, the other wires are managed
    as before, and no net of the manager is without wires (a net that was
    empty before is taken out as well). No other wire holds the removed
    wire, and each holds the other wires it held; the removed wire itself
    keeps its list, and the attachment table is not touched. A junction
    flag is cleared exactly on the points of the wires that were connected
    with the removed wire, directly or through other wires, that lie on it;
    no coordinate changes. When the removed wire held no other wire, the
    nets are the connected components again. *)
Theorem removeWire_takes_the_wire_out s wire :
  consistent s → wire ∈ wire_manager.wires s →
  ∃ s', wire_manager.removeWire containsPoint wire s = Some (true, s')
    ∧ (∀ x, x ∈ wire_manager.wires s' ↔ x ∈ wire_manager.wires s ∧ x ≠ wire)
    ∧ no_empty_net s'
    ∧ (∀ x, coords_of s' x = coords_of s x)
    ∧ (∀ x, connected_wires s' x
            = if decide (x = wire) then connected_wires s wire
              else QVector.removeAll wire (connected_wires s x))
    ∧ (∀ x j, junction_at s' x j = true
              ↔ junction_at s x j = true
                ∧ ¬ (x ≠ wire ∧ reachable s wire x
                     ∧ point_on containsPoint s wire x j = true))
    ∧ _connections s' = _connections s
    ∧ ((∀ y, y ∈ connected_wires s wire → y = wire) → consistent s').
Proof.
  intros Hc Hw.
  destruct (managed_in_net s wire Hc Hw) as (n & Hn & Hin & Enet).
  destruct (wiresConnectedTo_spec s wire n Enet) as (l & Hl & Hclos & _).
  assert (Hreach : ∀ x, x ∈ l ↔ reachable s wire x).
  { intros x. rewrite Hclos. split; [apply closure_within_reachable|].
    apply reachable_closure_within. intros y Hy. by eapply reach_in_net. }
  assert (Hman : ∀ x, x ∈ l → x ∈ wire_manager.wires s).
  { intros x Hx. apply elem_of_wires. exists n. split; [done|].
    eapply reach_in_net; [done..|]. by apply Hreach. }
  destruct (removeWire_disconnects containsPoint s wire l Hc Hw Hman)
    as (s1 & Hs1 & Hc1 & Hco1 & Hw1 & Hconn1 & Hfl1 & Hk1).
  unfold wire_manager.removeWire. rewrite Hl. cbn [mbind option_bind].
  rewrite Hs1. cbn [mbind option_bind].
  pose proof (removeWire_nets wire (_nets s1) [] s1) as Hnets.
  cbv zeta in Hnets.
  destruct (foldl _ ([], s1) (_nets s1)) as [del s2].
  cbn [fst snd] in Hnets.
  destruct Hnets as (Hdel & Hw2 & Hwire2 & Hn2 & Hk2 & Hd2).
  rewrite app_nil_l in Hdel.
  pose proof (removeWire_deletes del s2) as Hdeletes. cbv zeta in Hdeletes.
  set (s' := foldl _ s2 del) in *.
  destruct Hdeletes as (Hn' & Hwire' & Hnet' & Hk').
  exists s'. split; [done|].
  assert (Hwo : ∀ x, wire_of s' x = wire_of s1 x).
  { intros x. unfold wire_of at 1. rewrite Hwire'. apply Hwire2. }
  assert (Hws : ∀ m, m ∈ _nets s1 →
            WireNet.wires s' m = QVector.removeAll wire (WireNet.wires s1 m)).
  { intros m Hm. unfold WireNet.wires at 1, net_of. rewrite Hnet'.
    fold (net_of s2 m). fold (WireNet.wires s2 m).
    by rewrite Hw2, decide_True. }
  assert (Hns : ∀ m, m ∈ _nets s'
                     ↔ m ∈ _nets s1
                       ∧ QVector.removeAll wire (WireNet.wires s1 m) ≠ []).
  { intros m. rewrite Hn', Hn2, list_elem_of_filter, Hdel.
    rewrite list_elem_of_filter. split; [|tauto].
    intros [H1 H2]. split; [done|]. intros E. apply H1. done. }
  assert (Hcw : ∀ x, connected_wires s' x
            = if decide (x = wire) then connected_wires s wire
              else QVector.removeAll wire (connected_wires s x)).
  { intros x. unfold connected_wires at 1. rewrite Hwo.
    fold (connected_wires s1 x). rewrite Hconn1.
    destruct (decide (x = wire)) as [->|Hne].
    - rewrite decide_False; [done|tauto].
    - destruct (decide (x ∈ l ∧ x ≠ wire)) as [_|Hno]; [done|].
      symmetry. apply removeAll_notin. intros Hx. apply Hno.
      split; [|done]. apply Hreach, rtc_once. by right. }
  split.
  { intros x. rewrite elem_of_wires. rewrite <- Hw1, elem_of_wires. split.
    - intros (m & Hm & Hx). apply Hns in Hm as [Hm _].
      rewrite (Hws m Hm) in Hx. apply elem_of_removeAll in Hx as [Hx Hne].
      split; [by exists m|done].
    - intros [(m & Hm & Hx) Hne].
      assert (x ∈ QVector.removeAll wire (WireNet.wires s1 m)) as Hx'
        by (by apply elem_of_removeAll).
      exists m. split; [|by rewrite Hws].
      apply Hns. split; [done|]. intros E. rewrite E in Hx'.
      by apply elem_of_nil in Hx'. }
  split.
  { intros m Hm. apply Hns in Hm as [Hm Hne]. by rewrite Hws. }
  split.
  { intros x. unfold coords_of at 1. rewrite Hwo. apply Hco1. }
  split; [done|].
  split.
  { intros x j. unfold junction_at at 1, points_of. rewrite Hwo.
    fold (points_of s1 x). fold (junction_at s1 x j). rewrite Hfl1.
    rewrite Hreach. tauto. }
  split; [congruence|].
  intros Hself.
  assert (Hconn' : ∀ x, connected_wires s' x = connected_wires s1 x).
  { intros x. unfold connected_wires. by rewrite Hwo. }
  assert (Hr' : ∀ u v, reachable s' u v ↔ reachable s1 u v)
    by (by apply reachable_iff).
  assert (Halone : ∀ x, reachable s1 wire x → x = wire).
  { intros x. apply reachable_unlinked. intros y [Hy|Hy].
    - fold (connected_wires s1 wire) in Hy. rewrite <- Hconn', Hcw in Hy.
      rewrite decide_True in Hy by done. by apply Hself.
    - fold (connected_wires s1 y) in Hy. rewrite <- Hconn', Hcw in Hy.
      destruct (decide (y = wire)); [done|].
      apply elem_of_removeAll in Hy. tauto. }
  assert (Hnot : ∀ m x, m ∈ _nets s1 → x ∈ WireNet.wires s1 m → x ≠ wire →
                 wire ∉ WireNet.wires s1 m).
  { intros m x Hm Hx Hne Hwm. apply Hne. apply Halone.
    by eapply in_same_net. }
  split.
  - rewrite Hn', Hn2. apply NoDup_filter, Hc1.
  - intros m Hm. apply Hns in Hm as [Hm _]. rewrite Hnet'.
    by apply Hd2, Hc1.
  - intros m Hm. apply Hns in Hm as [Hm _]. rewrite Hws by done.
    by apply NoDup_removeAll, Hc1.
  - intros m x Hm. apply Hns in Hm as [Hm _]. rewrite Hws by done.
    intros [Hx Hne]%elem_of_removeAll. rewrite Hwo. by apply Hc1.
  - intros m x y Hm. apply Hns in Hm as [Hm _]. rewrite !Hws by done.
    intros [Hx Hne]%elem_of_removeAll. rewrite Hr'.
    rewrite (nets_components s1 Hc1 m x y Hm Hx).
    rewrite elem_of_removeAll. split; [|tauto].
    intros Hy. split; [done|]. intros ->. apply (Hnot m x Hm Hx Hne Hy).
Qed.

End removeWire_spec.

Lemma removeWire_takes_the_wire_out_witness :
  (consistent junction_scene ∧ 1%nat ∈ wire_manager.wires junction_scene)
  ∧ ∃ s', wire_manager.removeWire line.containsPoint 1%nat junction_scene
          = Some (true, s')
          ∧ (1%nat ∉ wire_manager.wires s')
          ∧ 0%nat ∈ wire_manager.wires s'
          ∧ consistent s'.
Proof.
  assert (H1 : 1%nat ∈ wire_manager.wires junction_scene)
    by (vm_compute; repeat constructor).
  split; [split; [exact consistent_junction_scene|exact H1]|].
  destruct (removeWire_takes_the_wire_out line.containsPoint junction_scene
              1%nat consistent_junction_scene H1)
    as (s' & Hs' & Hw & _ & _ & _ & _ & _ & Hcons).
  exists s'. split; [exact Hs'|].
  split; [intros H; apply Hw in H; tauto|].
  split.
  - apply Hw. split; [vm_compute; repeat constructor|done].
  - apply Hcons. intros y Hy. vm_compute in Hy.
    apply elem_of_nil in Hy. destruct Hy.
Defined.


(** * Saving and loading a wire *)

(** ** Sorting *)

Lemma sort_insert_perm {A} (less : A → A → bool) a l :
  sort_insert less a l ≡ₚ a :: l.
Proof.
  induction l as [|b l IH]; simpl; [done|].
  destruct (less b a); [|done]. rewrite IH. apply perm_swap.
Qed.

Lemma std_sort_perm {A} (less : A → A → bool) l : std_sort less l ≡ₚ l.
Proof.
  induction l as [|a l IH]; simpl; [done|].
  rewrite sort_insert_perm. by rewrite IH.
Qed.

Lemma sort_insert_ext {A} (less less' : A → A → bool) a l :
  (∀ b, b ∈ l → less b a = less' b a) →
  sort_insert less a l = sort_insert less' a l.
Proof.
  induction l as [|b l IH]; intros H; simpl; [done|].
  rewrite (H b) by (by left). rewrite IH; [done|].
  intros c Hc. apply H. by right.
Qed.

Lemma std_sort_ext {A} (less less' : A → A → bool) l :
  (∀ a b, a ∈ l → b ∈ l → less a b = less' a b) →
  std_sort less l = std_sort less' l.
Proof.
  induction l as [|a l IH]; intros H; simpl; [done|].
  rewrite IH by (intros; apply H; by right).
  apply sort_insert_ext. intros b Hb. apply H; [|by left].
  right. by rewrite <- (std_sort_perm less' l).
Qed.

Section sorting_by_key.
Context {A : Type} (key : A → Z).

Lemma sort_insert_sorted a l :
  StronglySorted (λ a b, key a < key b) l →
  (∀ b, b ∈ l → key b ≠ key a) →
  StronglySorted (λ a b, key a < key b) (sort_insert (by_key key) a l).
Proof.
  induction 1 as [|b l Hs IH Hb]; intros Hne; simpl.
  - repeat constructor.
  - unfold by_key at 1. case_bool_decide as Hlt.
    + constructor.
      * apply IH. intros c Hc. apply Hne. by right.
      * rewrite sort_insert_perm. constructor; [done|done].
    + assert (key a < key b) by (assert (key b ≠ key a) by (apply Hne; by left); lia).
      constructor; [by constructor|].
      constructor; [done|].
      eapply Forall_impl; [done|]. simpl. intros c Hc. lia.
Qed.

Lemma std_sort_sorted l :
  NoDup (key <$> l) →
  StronglySorted (λ a b, key a < key b) (std_sort (by_key key) l).
Proof.
  induction l as [|a l IH]; simpl; [constructor|].
  intros [Ha Hnd]%NoDup_cons. apply sort_insert_sorted; [by apply IH|].
  intros b Hb E. apply Ha. rewrite <- E. apply list_elem_of_fmap.
  exists b. split; [done|]. by rewrite <- (std_sort_perm (by_key key) l).
Qed.

Lemma sorted_unique l1 : ∀ l2,
  StronglySorted (λ a b, key a < key b) l1 →
  StronglySorted (λ a b, key a < key b) l2 →
  l1 ≡ₚ l2 → l1 = l2.
Proof.
  induction l1 as [|a l1 IH]; intros l2 H1 H2 Hp.
  - by apply Permutation_nil_l in Hp.
  - destruct l2 as [|b l2]; [by apply Permutation_nil_r in Hp|].
    apply StronglySorted_inv in H1 as [H1 Ha].
    apply StronglySorted_inv in H2 as [H2 Hb].
    assert (a = b) as ->.
    { assert (a ∈ b :: l2) as Ha' by (rewrite <- Hp; by left).
      assert (b ∈ a :: l1) as Hb' by (rewrite Hp; by left).
      apply elem_of_cons in Ha' as [->|Ha']; [done|].
      apply elem_of_cons in Hb' as [->|Hb']; [done|].
      rewrite Forall_forall in Ha, Hb.
      specialize (Ha b Hb'). specialize (Hb a Ha'). lia. }
    f_equal. apply IH; [done|done|]. by apply Permutation_cons_inv in Hp.
Qed.

Lemma sorted_NoDup_keys l :
  StronglySorted (λ a b, key a < key b) l → NoDup (key <$> l).
Proof.
  induction 1 as [|a l Hs IH Ha]; simpl; [constructor|].
  apply NoDup_cons. split; [|done].
  intros (b & E & Hb)%list_elem_of_fmap.
  rewrite Forall_forall in Ha. specialize (Ha b Hb). lia.
Qed.

Lemma std_sort_sorted_id l :
  StronglySorted (λ a b, key a < key b) l → std_sort (by_key key) l = l.
Proof.
  intros Hs. apply sorted_unique; [|done|apply std_sort_perm].
  by apply std_sort_sorted, sorted_NoDup_keys.
Qed.

Lemma std_sort_permutation l l' :
  NoDup (key <$> l) → l ≡ₚ l' → std_sort (by_key key) l = std_sort (by_key key) l'.
Proof.
  intros Hnd Hp. apply sorted_unique.
  - by apply std_sort_sorted.
  - apply std_sort_sorted. by rewrite <- Hp.
  - by rewrite !std_sort_perm.
Qed.

End sorting_by_key.

(** ** The container of a wire *)

(** On containers that carry an index, [index_less] orders by the index. *)
Lemma index_less_by_key (l : list Wire.point_container) :
  Forall (λ c, is_Some (Wire.index_attribute c)) l →
  std_sort Wire.index_less l
  = std_sort (by_key (λ c, default 0 (Wire.index_attribute c))) l.
Proof.
  intros Hl. apply std_sort_ext. intros a b Ha Hb.
  rewrite Forall_forall in Hl.
  destruct (Hl a Ha) as [i Hi], (Hl b Hb) as [j Hj].
  unfold Wire.index_less, by_key. by rewrite Hi, Hj.
Qed.

Lemma points_container_sorted (l : list WirePoint) : ∀ k : nat,
  StronglySorted
    (λ a b, default 0 (Wire.index_attribute a)
            < default 0 (Wire.index_attribute b))
    (imap (λ i p, Wire.mkPointContainer (Some (Z.of_nat (k + i)))
                    (Some (x p)) (Some (y p))) l).
Proof.
  induction l as [|p l IH]; intros k; simpl; [constructor|].
  constructor.
  - specialize (IH (S k)). erewrite imap_ext; [apply IH|].
    intros i q _. simpl. do 3 f_equal. lia.
  - apply Forall_forall. intros c Hc.
    apply elem_of_lookup_imap in Hc as (i & q & -> & _). simpl. lia.
Qed.

Lemma points_container_indexed (l : list WirePoint) :
  Forall (λ c, is_Some (Wire.index_attribute c))
    (imap (λ i p, Wire.mkPointContainer (Some (Z.of_nat i))
                    (Some (x p)) (Some (y p))) l).
Proof.
  apply Forall_forall. intros c Hc.
  apply elem_of_lookup_imap in Hc as (i & q & -> & _). by eexists.
Qed.

Section container.
Variable ItemContainer : Type.
Variable Item_to_container : wire → ItemContainer.
Variable Item_from_container : ItemContainer → wire → wire.

(** X24: [from_container] of what [to_container] has written returns, and
    appends the points of the written wire, in their order and without
    their junction flags, to the points the reading wire has (none, for a
    new wire). The order in which the point containers come does not
    matter, they are sorted by their index. A container without the value
    "item" is a fault; without the value "points" no point is read. *)
Theorem from_container_of_to_container w w0 :
  let written := Wire.to_container ItemContainer Item_to_container w in
  let read := Item_from_container (Item_to_container w) w0 in
  (∃ w', Wire.from_container ItemContainer Item_from_container written w0
         = Some w'
     ∧ _points w' = _points read ++ (point.setIsJunction false <$> _points w)
     ∧ (_points read = [] →
        Wire.pointsAbsolute w' = Wire.pointsAbsolute w
        ∧ Wire.points_count w' = Wire.points_count w
        ∧ Wire.junctions w' = [])
     ∧ (∀ points,
          points ≡ₚ default [] (Wire.points_value ItemContainer written) →
          Wire.from_container ItemContainer Item_from_container
            (Wire.mkWireContainer ItemContainer
               (Some (Item_to_container w)) (Some points)) w0
          = Some w'))
  ∧ (∀ points,
       Wire.from_container ItemContainer Item_from_container
         (Wire.mkWireContainer ItemContainer None points) w0 = None)
  ∧ (∀ item,
       Wire.from_container ItemContainer Item_from_container
         (Wire.mkWireContainer ItemContainer (Some item) None) w0
       = Some (Item_from_container item w0)).
Proof.
  cbv zeta. split; [|done].
  unfold Wire.from_container, Wire.to_container. cbn [Wire.item_value
    Wire.points_value mbind option_bind default].
  set (pts := imap _ (_points w)).
  set (read := Item_from_container (Item_to_container w) w0).
  assert (Hsort : std_sort Wire.index_less pts = pts).
  { rewrite index_less_by_key by apply points_container_indexed.
    apply std_sort_sorted_id. apply (points_container_sorted (_points w) 0). }
  assert (Hmap : (λ c, mkWirePoint (default 0 (Wire.x_value c))
                         (default 0 (Wire.y_value c)) false) <$> pts
                 = point.setIsJunction false <$> _points w).
  { apply list_eq. intros i. unfold pts.
    rewrite !list_lookup_fmap, list_lookup_imap.
    by destruct (_points w !! i). }
  exists (set_points
            (_points read ++ (point.setIsJunction false <$> _points w)) read).
  split; [by rewrite Hsort, Hmap|].
  split; [done|]. split.
  - intros E. cbn [_points set_points]. rewrite E, app_nil_l.
    assert (Wire.pointsAbsolute
              (set_points (point.setIsJunction false <$> _points w) read)
            = Wire.pointsAbsolute w) as Hco.
    { unfold Wire.pointsAbsolute. cbn [_points set_points].
      rewrite <- list_fmap_compose. by apply list_fmap_ext. }
    split; [done|]. split.
    + unfold Wire.points_count, QVector.count. cbn [_points set_points].
      by rewrite length_fmap.
    + unfold Wire.junctions. apply filter_none. intros i _.
      cbn [_points set_points]. unfold QVector.at_.
      destruct (decide (0 ≤ i)); [|done].
      rewrite list_lookup_fmap.
      by destruct (_points w !! Z.to_nat i).
  - intros points Hp. rewrite <- Hmap. f_equal. f_equal. f_equal. f_equal.
    rewrite <- Hsort.
    assert (Forall (λ c, is_Some (Wire.index_attribute c)) points) as Hidx.
    { rewrite Hp. apply points_container_indexed. }
    rewrite index_less_by_key by done.
    rewrite index_less_by_key by apply points_container_indexed.
    symmetry. apply std_sort_permutation; [|done].
    apply sorted_NoDup_keys, (points_container_sorted (_points w) 0).
Qed.

End container.


(** * The move of a point by the user *)

Lemma elem_of_junctions s w j :
  j ∈ Wire.junctions (wire_of s w) ↔ junction_at s w j = true.
Proof.
  unfold Wire.junctions, junction_at, points_of.
  rewrite list_elem_of_filter, elem_of_seqZ. split.
  - intros [H _]. by destruct (QVector.at_ (_points (wire_of s w)) j) as [p|];
      simplify_eq/=.
  - destruct (QVector.at_ (_points (wire_of s w)) j) as [p|] eqn:E; [|done].
    intros H. split; [simpl; by rewrite H|]. apply at_Some in E.
    unfold Wire.points_count. lia.
Qed.

Section user_moves.
Variable containsPoint : Line → QPointF → Z → bool.

Lemma other_junction_on_existsb s W raw index (js : list Z) :
  (∀ j, j ∈ js → is_Some (QVector.at_ (_points (wire_of s raw)) j)) →
  wire_manager.other_junction_on containsPoint (wire_of s W) (wire_of s raw)
    index js
  = Some (existsb (λ j, bool_decide (j ≠ index)
                        && point_on containsPoint s W raw j) js).
Proof.
  induction js as [|j js IH]; intros Hin; [done|].
  cbn [wire_manager.other_junction_on existsb].
  destruct (Hin j) as [p Hp]; [by left|]. rewrite Hp.
  cbn [mbind option_bind].
  assert (point_on containsPoint s W raw j
          = Wire.pointIsOnWire containsPoint (wire_of s W) (point.toPointF p))
    as Hon.
  { unfold point_on. by rewrite at_coords, Hp. }
  destruct (decide (j = index)) as [->|Hne].
  - rewrite bool_decide_eq_false_2 by (intros H; by apply H).
    cbn [andb orb]. apply IH. intros j' Hj'. apply Hin. by right.
  - rewrite bool_decide_eq_true_2 by done. cbn [andb].
    rewrite Hon.
    destruct (Wire.pointIsOnWire containsPoint (wire_of s W)
                (point.toPointF p)); [done|].
    cbn [orb]. apply IH. intros j' Hj'. apply Hin. by right.
Qed.

Lemma other_junction_touches_true s W raw index :
  other_junction_touches containsPoint s W raw index = true
  ↔ ∃ j, j ≠ index ∧ junction_at s raw j = true
         ∧ point_on containsPoint s W raw j = true.
Proof.
  unfold other_junction_touches. rewrite existsb_exists. split.
  - intros (j & Hj & Hb). apply list_elem_of_In, elem_of_junctions in Hj.
    apply andb_true_iff in Hb as [H1 H2]. apply bool_decide_eq_true in H1.
    by exists j.
  - intros (j & Hne & Hj & Hon). exists j. split.
    + by apply list_elem_of_In, elem_of_junctions.
    + by rewrite bool_decide_eq_true_2, Hon.
Qed.

(** The search gives the same answer in a state that differs in the
    connections and in the flag of the moved point only. *)
Lemma other_junction_on_spec s s1 W raw index :
  (∀ w, coords_of s1 w = coords_of s w) →
  (∀ j, j ≠ index → junction_at s1 raw j = junction_at s raw j) →
  wire_manager.other_junction_on containsPoint (wire_of s1 W) (wire_of s1 raw)
    index (Wire.junctions (wire_of s1 raw))
  = Some (other_junction_touches containsPoint s W raw index).
Proof.
  intros Hco Hfl. rewrite other_junction_on_existsb.
  2:{ intros j Hj. apply elem_of_junctions in Hj.
      unfold junction_at, points_of in Hj.
      destruct (QVector.at_ (_points (wire_of s1 raw)) j); [by eexists|done]. }
  f_equal. fold (other_junction_touches containsPoint s1 W raw index).
  apply eq_true_iff_eq. rewrite !other_junction_touches_true.
  split; intros (j & Hne & Hj & Hon); exists j; (split; [done|]).
  - rewrite <- Hfl, <- (point_on_same containsPoint s s1) by done. done.
  - rewrite Hfl, (point_on_same containsPoint s s1) by done. done.
Qed.

(** The first loop of [wirePointMovedByUser], over the wires [L]. *)
Lemma detach_moved_point_loop s raw index L :
  consistent s → raw ∈ wire_manager.wires s →
  (∀ W, W ∈ L → W ∈ wire_manager.wires s) →
  ∃ s1, for_each L (wire_manager.detach_moved_point containsPoint raw index) s
        = Some s1
    ∧ consistent s1
    ∧ (∀ w, coords_of s1 w = coords_of s w)
    ∧ (∀ w, w ∈ wire_manager.wires s1 ↔ w ∈ wire_manager.wires s)
    ∧ (∀ X Y, Y ∈ connected_wires s1 X
              ↔ Y ∈ connected_wires s X
                ∧ ¬ (X ∈ L ∧ X ≠ raw ∧ Y = raw
                     ∧ other_junction_touches containsPoint s X raw index
                       = false))
    ∧ (∀ w j, junction_at s1 w j = true
              ↔ junction_at s w j = true
                ∧ ¬ (w = raw ∧ j = index
                     ∧ ∃ X, X ∈ L ∧ X ≠ raw ∧ raw ∈ connected_wires s X))
    ∧ _connections s1 = _connections s.
Proof.
  intros Hc Hraw HL.
  set (P := (λ (pre : list WireId) (s1 : scene),
    consistent s1
    ∧ (∀ w, coords_of s1 w = coords_of s w)
    ∧ (∀ w, w ∈ wire_manager.wires s1 ↔ w ∈ wire_manager.wires s)
    ∧ (∀ X Y, Y ∈ connected_wires s1 X
              ↔ Y ∈ connected_wires s X
                ∧ ¬ (X ∈ pre ∧ X ≠ raw ∧ Y = raw
                     ∧ other_junction_touches containsPoint s X raw index
                       = false))
    ∧ (∀ w j, junction_at s1 w j = true
              ↔ junction_at s w j = true
                ∧ ¬ (w = raw ∧ j = index
                     ∧ ∃ X, X ∈ pre ∧ X ≠ raw ∧ raw ∈ connected_wires s X))
    ∧ _connections s1 = _connections s)).
  destruct (for_each_invariant P
              (wire_manager.detach_moved_point containsPoint raw index) L s)
    as (s1 & Hs1 & HP); [| |exists s1; split; [exact Hs1|exact HP]].
  - split; [done|]. split; [done|]. split; [done|].
    split; [|split; [|done]].
    + intros X Y. split; [|tauto]. intros H. split; [done|].
      intros (H1 & _). by apply elem_of_nil in H1.
    + intros w j. split; [|tauto]. intros H. split; [done|].
      intros (_ & _ & X & H1 & _). by apply elem_of_nil in H1.
  - intros pre W s1 (Hc1 & Hco1 & Hw1 & Hconn1 & Hfl1 & Hk1) HW.
    unfold wire_manager.detach_moved_point.
    destruct (decide (W = raw)) as [->|Hne].
    { exists s1. split; [done|]. split; [done|]. split; [done|].
      split; [done|]. split; [|split; [|done]].
      - intros X Y. rewrite Hconn1, elem_of_app, list_elem_of_singleton.
        clear. split; intros [H1 H2]; (split; [done|]); intros H; apply H2;
          naive_solver.
      - intros w j. rewrite Hfl1. clear.
        split; intros [H1 H2]; (split; [done|]);
          intros (Hw & Hj & X & HX & Hne & Hin); apply H2;
          (split; [done|]); (split; [done|]); exists X.
        + split; [|done]. apply elem_of_app in HX as [HX|HX]; [done|].
          apply list_elem_of_singleton in HX. done.
        + split; [|done]. apply elem_of_app. by left. }
    fold (connected_wires s1 W).
    destruct (QVector.contains (connected_wires s1 W) raw) eqn:Hcont.
    + apply contains_true in Hcont.
      pose proof (proj1 (Hconn1 W raw) Hcont) as [Hin Hnot].
      rewrite (other_junction_on_spec s s1 W raw index Hco1).
      2:{ intros j Hj. apply eq_true_iff_eq. rewrite Hfl1.
          clear -Hj. naive_solver. }
      cbn [mbind option_bind].
      set (t := other_junction_touches containsPoint s W raw index) in *.
      assert (Hs2 : ∃ s2,
        (if negb t then wire_manager.disconnectWire W raw s1 else Some s1)
        = Some s2
        ∧ consistent s2
        ∧ (∀ w, points_of s2 w = points_of s1 w)
        ∧ (∀ w, w ∈ wire_manager.wires s2 ↔ w ∈ wire_manager.wires s1)
        ∧ (∀ X Y, Y ∈ connected_wires s2 X
                  ↔ Y ∈ connected_wires s1 X
                    ∧ ¬ (X = W ∧ Y = raw ∧ t = false))
        ∧ _connections s2 = _connections s1).
      { destruct t; cbn [negb].
        - exists s1. split; [done|]. split; [done|]. split; [done|].
          split; [done|]. split; [|done]. intros X Y. clear. naive_solver.
        - destruct (disconnectWire_spec s1 W raw Hc1)
            as (s2 & l & Hs2 & Hc2 & Hpts2 & Hconn2 & Hw2 & Hk2 & _);
            [by apply Hw1, HL|by apply Hw1|].
          exists s2. split; [done|]. split; [done|]. split; [done|].
          split; [done|]. split; [|done]. intros X Y. rewrite Hconn2.
          destruct (decide (X = W)) as [->|HXW].
          + rewrite elem_of_removeAll. clear. naive_solver.
          + clear -HXW. naive_solver. }
      destruct Hs2 as (s2 & Hs2 & Hc2 & Hpts2 & Hw2 & Hconn2 & Hk2).
      rewrite Hs2. cbn [mbind option_bind]. eexists. split; [done|].
      split; [by apply consistent_setPointIsJunction|].
      split.
      { intros w. rewrite coords_setPointIsJunction.
        rewrite <- Hco1. by apply coords_of_points. }
      split.
      { intros w.
        rewrite (same_but_flags_managed s2)
          by apply same_but_flags_setPointIsJunction.
        by rewrite Hw2. }
      split; [|split; [|by rewrite <- Hk1, <- Hk2]].
      * intros X Y. rewrite connected_wires_setPointIsJunction.
        rewrite Hconn2, Hconn1, elem_of_app, list_elem_of_singleton.
        clear -Hne. intros. split.
        -- intros [[H1 H2] H3]. split; [done|].
           intros ([HX| ->] & HXr & -> & Ht); [apply H2|apply H3]; done.
        -- intros [H1 H2]. split; [split; [done|]|].
           ++ intros (HX & HXr & -> & Ht). apply H2. tauto.
           ++ intros (-> & -> & Ht). apply H2. tauto.
      * intros w j. rewrite junction_at_clear.
        rewrite (junction_at_points s1 s2) by done.
        rewrite Hfl1. split.
        -- intros [[H1 H2] H3]. split; [done|]. intros (-> & -> & _).
           by apply H3.
        -- intros [H1 H2]. split; [split; [done|]|].
           ++ intros (-> & -> & X & HX & HXr & HXin). apply H2.
              split; [done|]. split; [done|]. exists X.
              split; [apply elem_of_app; by left|done].
           ++ intros [-> ->]. apply H2. split; [done|]. split; [done|].
              exists W. split; [apply elem_of_app; right; by left|done].
    + apply contains_false in Hcont.
      assert (Hno : ¬ (raw ∈ connected_wires s W
                       ∧ ¬ (W ∈ pre
                            ∧ other_junction_touches containsPoint s W raw
                                index = false))).
      { intros [H1 H2]. apply Hcont, Hconn1. split; [done|]. tauto. }
      exists s1. split; [done|]. split; [done|]. split; [done|].
      split; [done|]. split; [|split; [|done]].
      * intros X Y. rewrite Hconn1, elem_of_app, list_elem_of_singleton.
        split.
        -- intros [H1 H2]. split; [done|].
           intros ([HX| ->] & HXr & -> & Ht); [apply H2; tauto|].
           apply Hno. split; [done|]. intros [HW' Ht']. apply H2. tauto.
        -- intros [H1 H2]. split; [done|]. intros H. apply H2. tauto.
      * intros w j. rewrite Hfl1. split.
        -- intros [H1 H2]. split; [done|].
           intros (-> & -> & X & [HX| ->%list_elem_of_singleton]%elem_of_app
                   & HXr & HXin).
           ++ apply H2. split; [done|]. split; [done|]. by exists X.
           ++ destruct (decide (W ∈ pre)) as [HWp|HWp].
              ** apply H2. split; [done|]. split; [done|]. by exists W.
              ** apply Hno. split; [done|]. tauto.
        -- intros [H1 H2]. split; [done|].
           intros (-> & -> & X & HX & HXr & HXin). apply H2.
           split; [done|]. split; [done|]. exists X.
           split; [apply elem_of_app; by left|done].
Qed.

(** The second loop of [wirePointMovedByUser], over the wires [L]. *)
Lemma attach_moved_point_loop s raw index L :
  consistent s → raw ∈ wire_manager.wires s →
  0 ≤ index < QVector.count (coords_of s raw) →
  (∀ W, W ∈ L → W ∈ wire_manager.wires s) →
  ∃ s', for_each L (wire_manager.attach_moved_point containsPoint raw index) s
        = Some s'
    ∧ consistent s'
    ∧ (∀ w, coords_of s' w = coords_of s w)
    ∧ (∀ w, w ∈ wire_manager.wires s' ↔ w ∈ wire_manager.wires s)
    ∧ (∀ X Y, Y ∈ connected_wires s' X
              ↔ Y ∈ connected_wires s X
                ∨ (X ∈ L ∧ X ≠ raw ∧ Y = raw
                   ∧ point_on containsPoint s X raw index = true
                   ∧ (X ∉ connected_wires s raw)))
    ∧ (∀ w j, junction_at s' w j = true
              ↔ junction_at s w j = true
                ∨ (w = raw ∧ j = index
                   ∧ ∃ X, X ∈ L ∧ X ≠ raw
                          ∧ point_on containsPoint s X raw index = true
                          ∧ (X ∉ connected_wires s raw)))
    ∧ _connections s' = _connections s.
Proof.
  intros Hc Hraw Hidx HL.
  set (P := (λ (pre : list WireId) (s' : scene),
    consistent s'
    ∧ (∀ w, coords_of s' w = coords_of s w)
    ∧ (∀ w, w ∈ wire_manager.wires s' ↔ w ∈ wire_manager.wires s)
    ∧ (∀ X Y, Y ∈ connected_wires s' X
              ↔ Y ∈ connected_wires s X
                ∨ (X ∈ pre ∧ X ≠ raw ∧ Y = raw
                   ∧ point_on containsPoint s X raw index = true
                   ∧ (X ∉ connected_wires s raw)))
    ∧ (∀ w j, junction_at s' w j = true
              ↔ junction_at s w j = true
                ∨ (w = raw ∧ j = index
                   ∧ ∃ X, X ∈ pre ∧ X ≠ raw
                          ∧ point_on containsPoint s X raw index = true
                          ∧ (X ∉ connected_wires s raw)))
    ∧ _connections s' = _connections s)).
  destruct (for_each_invariant P
              (wire_manager.attach_moved_point containsPoint raw index) L s)
    as (s' & Hs' & HP); [| |exists s'; split; [exact Hs'|exact HP]].
  - split; [done|]. split; [done|]. split; [done|].
    split; [|split; [|done]].
    + intros X Y. split; [tauto|]. intros [H|(H & _)]; [done|].
      by apply elem_of_nil in H.
    + intros w j. split; [tauto|]. intros [H|(_ & _ & X & H & _)]; [done|].
      by apply elem_of_nil in H.
  - intros pre W s1 (Hc1 & Hco1 & Hw1 & Hconn1 & Hfl1 & Hk1) HW.
    unfold wire_manager.attach_moved_point.
    destruct (decide (W = raw)) as [->|Hne].
    { exists s1. split; [done|]. split; [done|]. split; [done|].
      split; [done|]. split; [|split; [|done]].
      - intros X Y. rewrite Hconn1, elem_of_app, list_elem_of_singleton.
        clear. naive_solver.
      - intros w j. rewrite Hfl1. clear.
        split; (intros [H|(Hw & Hj & X & HX & Hne & Hon)]; [by left|]);
          right; (split; [done|]); (split; [done|]); exists X.
        + split; [|done]. apply elem_of_app. by left.
        + split; [|done]. apply elem_of_app in HX as [HX|HX]; [done|].
          apply list_elem_of_singleton in HX. done. }
    destruct (at_is_Some (_points (wire_of s1 raw)) index) as [q Hq].
    { pose proof (count_coords s1 raw) as Hcc. rewrite Hco1 in Hcc.
      unfold Wire.points_count in Hcc. lia. }
    rewrite Hq. cbn [mbind option_bind].
    assert (Hon : Wire.pointIsOnWire containsPoint (wire_of s1 W)
                    (point.toPointF q)
                  = point_on containsPoint s W raw index).
    { rewrite <- (point_on_same containsPoint s s1) by done.
      unfold point_on. by rewrite at_coords, Hq. }
    rewrite Hon.
    assert (Hrawconn : ∀ Y, Y ∈ connected_wires s1 raw
                            ↔ Y ∈ connected_wires s raw).
    { intros Y. rewrite Hconn1. clear. naive_solver. }
    fold (connected_wires s1 raw).
    destruct (point_on containsPoint s W raw index) eqn:Hpo.
    + destruct (QVector.contains (connected_wires s1 raw) W) eqn:Hcont;
        cbn [negb].
      * apply contains_true, Hrawconn in Hcont.
        exists s1. split; [done|]. split; [done|]. split; [done|].
        split; [done|]. split; [|split; [|done]].
        -- intros X Y. rewrite Hconn1, elem_of_app, list_elem_of_singleton.
           clear -Hcont. naive_solver.
        -- intros w j. rewrite Hfl1.
           split; (intros [H|(Hw & Hj & X & HX & HXr & HXon & HXn)];
                   [by left|]); right; (split; [done|]); (split; [done|]).
           ++ exists X. split; [apply elem_of_app; by left|done].
           ++ apply elem_of_app in HX as [HX|HX%list_elem_of_singleton].
              ** by exists X.
              ** subst X. done.
      * apply contains_false in Hcont.
        assert (W ∉ connected_wires s raw) as Hcont'
          by (intros H; by apply Hcont, Hrawconn).
        set (s2 := update_wire raw (Wire.setPointIsJunction index true) s1).
        assert (Hsame : same_but_flags s1 s2)
          by apply same_but_flags_setPointIsJunction.
        assert (Hc2 : consistent s2)
          by (by apply consistent_setPointIsJunction).
        destruct (connectWire_spec s2 W raw Hc2)
          as (s3 & Hs3 & Hc3 & Hpts3 & Hconn3 & Hw3 & _ & Hk3 & _).
        { apply (same_but_flags_managed s1 s2 W Hsame). by apply Hw1, HL. }
        { apply (same_but_flags_managed s1 s2 raw Hsame). by apply Hw1. }
        exists s3. split; [done|]. split; [done|].
        split.
        { intros w. rewrite (coords_of_points s2 s3) by done.
          unfold s2. by rewrite coords_setPointIsJunction. }
        split.
        { intros w. by rewrite Hw3, (same_but_flags_managed s1 s2 w Hsame). }
        split; [|split].
        -- intros X Y. rewrite Hconn3.
           assert (∀ Z0, connected_wires s2 Z0 = connected_wires s1 Z0) as Hcs
             by (intros; apply connected_wires_setPointIsJunction).
           rewrite !Hcs, elem_of_app, list_elem_of_singleton.
           destruct (decide (X = W ∧ raw ∉ connected_wires s1 W))
             as [[-> Hnc]|Hno].
           ++ rewrite elem_of_app, list_elem_of_singleton, Hconn1.
              clear -Hne Hpo Hcont'. naive_solver.
           ++ rewrite Hconn1. split.
              ** clear. naive_solver.
              ** intros [H|([HX| ->] & HXr & -> & HXon & HXn)];
                   [by left|right; by split| ].
                 destruct (decide (raw ∈ connected_wires s1 W)) as [Hy|Hn];
                   [|exfalso; by apply Hno].
                 apply Hconn1 in Hy. done.
        -- intros w j. rewrite (junction_at_points s2 s3) by done.
           unfold s2. rewrite junction_at_setPointIsJunction, Hfl1.
           rewrite Hco1.
           split.
           ++ intros [[H|(Hw & Hj & X & HX & HXr)]|(-> & -> & _)].
              ** by left.
              ** right. split; [done|]. split; [done|]. exists X.
                 split; [apply elem_of_app; by left|done].
              ** right. split; [done|]. split; [done|]. exists W.
                 split; [apply elem_of_app; right; by left|done].
           ++ intros [H|(-> & -> & X & [HX|HX%list_elem_of_singleton]%elem_of_app
                        & HXr)].
              ** left. by left.
              ** left. right. split; [done|]. split; [done|]. by exists X.
              ** right. split; [done|]. split; [done|]. exact Hidx.
        -- by rewrite Hk3.
    + exists s1. split; [done|]. split; [done|]. split; [done|].
      split; [done|]. split; [|split; [|done]].
      * intros X Y. rewrite Hconn1, elem_of_app, list_elem_of_singleton.
        split.
        -- intros [H|(HX & HXr & -> & HXon & HXn)]; [by left|right].
           split; [by left|done].
        -- intros [H|([HX| ->] & HXr & -> & HXon & HXn)];
             [by left|right; done|congruence].
      * intros w j. rewrite Hfl1.
        split; (intros [H|(Hw & Hj & X & HX & HXr & HXon & HXn)];
                [by left|]); right; (split; [done|]); (split; [done|]).
        -- exists X. split; [apply elem_of_app; by left|done].
        -- apply elem_of_app in HX as [HX|HX%list_elem_of_singleton].
           ++ by exists X.
           ++ subst X. congruence.
Qed.

(** X25: [wirePointMovedByUser] on a point of a managed wire returns; the
    coordinates, the managed wires and the attachment table are untouched
    and the nets are the connected components afterwards. For a point that
    is not an end of the wire nothing changes. For an end: a managed wire
    [X] holds the moved wire afterwards exactly when it held it before and
    was not detached (the moved point was a junction and no other junction
    of the moved wire lies on [X]), or when it is attached (the moved point
    lies on [X] and the moved wire does not hold [X]); no other connection
    changes. The junction flag of the moved point is set when a wire is
    attached; otherwise it is cleared when some other managed wire held the
    moved wire; the other flags stay. *)
Theorem wirePointMovedByUser_detaches_and_attaches s raw index :
  consistent s → raw ∈ wire_manager.wires s →
  0 ≤ index < QVector.count (coords_of s raw) →
  ∃ s', wire_manager.wirePointMovedByUser containsPoint raw index s = Some s'
    ∧ consistent s'
    ∧ (∀ w, coords_of s' w = coords_of s w)
    ∧ (∀ w, w ∈ wire_manager.wires s' ↔ w ∈ wire_manager.wires s)
    ∧ _connections s' = _connections s
    ∧ (0 < index < QVector.count (coords_of s raw) - 1 → s' = s)
    ∧ (index = 0 ∨ index = QVector.count (coords_of s raw) - 1 →
       (∀ X Y, Y ∈ connected_wires s' X
               ↔ (Y ∈ connected_wires s X
                  ∧ ¬ (Y = raw
                       ∧ moved_point_detaches containsPoint s raw index X))
                 ∨ (Y = raw
                    ∧ moved_point_attaches containsPoint s raw index X))
       ∧ (∀ w j, junction_at s' w j = true
                 ↔ (junction_at s w j = true
                    ∧ ¬ (w = raw ∧ j = index
                         ∧ ∃ X, X ∈ wire_manager.wires s ∧ X ≠ raw
                                ∧ raw ∈ connected_wires s X))
                   ∨ (w = raw ∧ j = index
                      ∧ ∃ X, moved_point_attaches containsPoint s raw index
                               X))).
Proof.
  intros Hc Hraw Hidx.
  unfold wire_manager.wirePointMovedByUser.
  rewrite at_wirePointsRelative.
  destruct (at_is_Some (_points (wire_of s raw)) index) as [p0 Hp0].
  { pose proof (count_coords s raw) as Hcc.
    unfold Wire.points_count in Hcc. lia. }
  rewrite Hp0. cbn [fmap option_fmap option_map mbind option_bind].
  assert (Hj0 : isJunction (relative_of (wire_of s raw) p0)
                = junction_at s raw index).
  { unfold junction_at, points_of. by rewrite Hp0. }
  rewrite Hj0. fold (coords_of s raw).
  destruct (decide (index = 0 ∨ index = QVector.count (coords_of s raw) - 1))
    as [Hend|Hmid].
  2:{ rewrite (bool_decide_eq_false_2 _ Hmid). cbn [andb mbind option_bind].
      rewrite <- (count_coords s raw).
      rewrite (bool_decide_eq_false_2 _ Hmid).
      exists s. split; [done|]. split; [done|]. split; [done|].
      split; [done|]. split; [done|]. split; [done|]. tauto. }
  rewrite (bool_decide_eq_true_2 _ Hend). cbn [andb].
  (* the first loop *)
  assert (Hphase1 : ∃ s1,
    (if junction_at s raw index
     then for_each (wire_manager.wires s)
            (wire_manager.detach_moved_point containsPoint raw index) s
     else Some s) = Some s1
    ∧ consistent s1
    ∧ (∀ w, coords_of s1 w = coords_of s w)
    ∧ (∀ w, w ∈ wire_manager.wires s1 ↔ w ∈ wire_manager.wires s)
    ∧ (∀ X Y, Y ∈ connected_wires s1 X
              ↔ Y ∈ connected_wires s X
                ∧ ¬ (Y = raw
                     ∧ moved_point_detaches containsPoint s raw index X))
    ∧ (∀ w j, junction_at s1 w j = true
              ↔ junction_at s w j = true
                ∧ ¬ (w = raw ∧ j = index
                     ∧ ∃ X, X ∈ wire_manager.wires s ∧ X ≠ raw
                            ∧ raw ∈ connected_wires s X))
    ∧ _connections s1 = _connections s).
  { destruct (junction_at s raw index) eqn:Hj.
    - destruct (detach_moved_point_loop s raw index (wire_manager.wires s)
                  Hc Hraw ltac:(done))
        as (s1 & Hs1 & Hc1 & Hco1 & Hw1 & Hconn1 & Hfl1 & Hk1).
      exists s1. split; [done|]. split; [done|]. split; [done|].
      split; [done|]. split; [|done].
      intros X Y. rewrite Hconn1. unfold moved_point_detaches. rewrite Hj.
      clear. tauto.
    - exists s. split; [done|]. split; [done|]. split; [done|].
      split; [done|]. split; [|split; [|done]].
      + intros X Y. unfold moved_point_detaches. rewrite Hj. clear.
        split; [|tauto]. intros H. split; [done|]. intros (_ & _ & _ & ? & _).
        done.
      + intros w j. split; [|tauto]. intros H. split; [done|].
        intros (-> & -> & _). congruence. }
  destruct Hphase1 as (s1 & Hs1 & Hc1 & Hco1 & Hw1 & Hconn1 & Hfl1 & Hk1).
  rewrite Hs1. cbn [mbind option_bind].
  rewrite <- (count_coords s1 raw), Hco1.
  rewrite (bool_decide_eq_true_2 _ Hend).
  (* the second loop *)
  destruct (attach_moved_point_loop s1 raw index (wire_manager.wires s1) Hc1)
    as (s' & Hs' & Hc' & Hco' & Hw' & Hconn' & Hfl' & Hk');
    [by apply Hw1|by rewrite Hco1|done|].
  exists s'. split; [done|]. split; [done|].
  split; [intros w; by rewrite Hco'|].
  split; [intros w; by rewrite Hw'|].
  split; [congruence|]. split; [lia|]. intros _.
  assert (Hrawconn : ∀ Y, Y ∈ connected_wires s1 raw
                          ↔ Y ∈ connected_wires s raw).
  { intros Y. rewrite Hconn1. unfold moved_point_detaches. clear. tauto. }
  assert (Hatt : ∀ X,
    (X ∈ wire_manager.wires s1 ∧ X ≠ raw
     ∧ point_on containsPoint s1 X raw index = true
     ∧ (X ∉ connected_wires s1 raw))
    ↔ moved_point_attaches containsPoint s raw index X).
  { intros X. unfold moved_point_attaches.
    rewrite Hw1, (point_on_same containsPoint s s1), Hrawconn by done.
    done. }
  split.
  - intros X Y. rewrite Hconn', Hconn1.
    rewrite <- (Hatt X). clear. tauto.
  - intros w j. rewrite Hfl', Hfl1. split.
    + intros [H|(-> & -> & X & HX)]; [by left|right].
      split; [done|]. split; [done|]. exists X. apply Hatt. tauto.
    + intros [H|(-> & -> & X & HX)]; [by left|right].
      split; [done|]. split; [done|]. exists X. apply Hatt in HX. tauto.
Qed.

End user_moves.

Lemma wirePointMovedByUser_detaches_and_attaches_witness :
  (consistent two_wire_scene
   ∧ 1%nat ∈ wire_manager.wires two_wire_scene
   ∧ 0 ≤ 0 < QVector.count (coords_of two_wire_scene 1%nat))
  ∧ ∃ s', wire_manager.wirePointMovedByUser line.containsPoint 1%nat 0
            two_wire_scene = Some s'
          ∧ 1%nat ∈ connected_wires s' 0%nat
          ∧ junction_at s' 1%nat 0 = true
          ∧ consistent s'.
Proof.
  assert (H1 : 1%nat ∈ wire_manager.wires two_wire_scene)
    by (vm_compute; repeat constructor).
  assert (Hr : 0 ≤ 0 < QVector.count (coords_of two_wire_scene 1%nat))
    by (vm_compute; split; [discriminate|reflexivity]).
  split; [split; [exact consistent_two_wire_scene|split; [exact H1|exact Hr]]|].
  destruct (wirePointMovedByUser_detaches_and_attaches line.containsPoint
              two_wire_scene 1%nat 0 consistent_two_wire_scene H1 Hr)
    as (s' & Hs' & Hc' & _ & _ & _ & _ & Hend).
  destruct (Hend (or_introl eq_refl)) as [Hconn Hfl].
  assert (Ha : moved_point_attaches line.containsPoint two_wire_scene
                 1%nat 0 0%nat).
  { split; [vm_compute; repeat constructor|].
    split; [done|]. split; [vm_compute; reflexivity|].
    vm_compute. apply not_elem_of_nil. }
  exists s'. split; [exact Hs'|].
  split; [apply Hconn; right; split; [reflexivity|exact Ha]|].
  split; [|exact Hc'].
  apply Hfl. right. split; [reflexivity|]. split; [reflexivity|].
  exists 0%nat. exact Ha.
Defined.


(** * The list of connected wires, and the signals of attached wires *)

(** ** The list [wiresConnectedTo] returns *)

Lemma wiresConnectedTo_loop_prefix s cands : ∀ fuel cw l,
  wire_manager.wiresConnectedTo_loop s fuel cands cw = Some l →
  ∃ rest, l = cw ++ rest ∧ ∀ x, x ∈ rest → x ∈ cands.
Proof.
  induction fuel as [|fuel IH]; intros cw l; [done|].
  cbn [wire_manager.wiresConnectedTo_loop].
  set (newList := wire_manager.wiresConnectedTo_round s cands cw).
  assert (Hnew : ∀ x, x ∈ newList → x ∈ cands).
  { intros x Hx. apply elem_of_round in Hx. tauto. }
  case_bool_decide as Hne.
  - intros Hl. apply IH in Hl as (rest & -> & Hrest).
    exists (newList ++ rest). split; [by rewrite <- app_assoc|].
    intros x [Hx|Hx]%elem_of_app; [by apply Hnew|by apply Hrest].
  - intros [= <-]. by exists newList.
Qed.

(** X26: [wiresConnectedTo] faults on a wire without net. Otherwise it
    returns a list that begins with the wire itself, followed by wires of
    the net of the wire only, and no wire is in the list twice when the net
    holds no wire twice. *)
Theorem wiresConnectedTo_begins_with_the_wire s w :
  (_net (wire_of s w) = None → wire_manager.wiresConnectedTo w s = None)
  ∧ (∀ n, _net (wire_of s w) = Some n →
       ∃ rest, wire_manager.wiresConnectedTo w s = Some (w :: rest)
         ∧ (∀ x, x ∈ rest → x ∈ WireNet.wires s n)
         ∧ (NoDup (WireNet.wires s n) → NoDup (w :: rest))).
Proof.
  split.
  - intros E. unfold wire_manager.wiresConnectedTo. by rewrite E.
  - intros n E.
    destruct (wiresConnectedTo_spec s w n E) as (l & Hl & _ & Hnd).
    pose proof Hl as Hl'. unfold wire_manager.wiresConnectedTo in Hl'.
    rewrite E in Hl'. cbn [mbind option_bind] in Hl'.
    apply wiresConnectedTo_loop_prefix in Hl' as (rest & -> & Hrest).
    exists rest. split; [done|]. split; [done|]. done.
Qed.

(** ** The signals of the wires that connectors are attached to *)

Lemma connectorsAttachedToWire_not_nil s w :
  wire_manager.connectorsAttachedToWire w s ≠ []
  ↔ ∃ c, fst <$> _connections s !! c = Some w.
Proof.
  split.
  - intros H.
    destruct (wire_manager.connectorsAttachedToWire w s) as [|c l] eqn:E;
      [done|].
    exists c. apply elem_of_connectorsAttachedToWire. rewrite E. by left.
  - intros (c & Hc) E. rewrite connectorsAttachedToWire_nil in E.
    by apply (E c).
Qed.

Lemma slots_match_same_wires s s' :
  _wire_slots s' = _wire_slots s →
  (∀ c, fst <$> _connections s' !! c = fst <$> _connections s !! c) →
  slots_match s → slots_match s'.
Proof.
  intros Hsl Hc [Hnd Hiff]. split; [by rewrite Hsl|].
  intros w. rewrite Hsl, Hiff, !connectorsAttachedToWire_not_nil.
  split; intros (c & H); exists c; by rewrite ?Hc in *.
Qed.

Lemma slots_match_attachWireToConnector s w index c :
  slots_match s →
  slots_match
    (wire_manager.attachWireToConnector (Some w) index (Some c) s).
Proof.
  intros [Hnd Hiff]. unfold wire_manager.attachWireToConnector.
  case_bool_decide; [done|].
  case_bool_decide as Hc; [done|].
  assert (_connections s !! c = None) as Hnone.
  { destruct (_connections s !! c) eqn:E; [|done].
    exfalso. apply Hc. by eexists. }
  assert (Hlook : ∀ w' : WireId,
    (∃ c', fst <$> <[c:=(w, index)]> (_connections s) !! c' = Some w')
    ↔ w' = w ∨ ∃ c', fst <$> _connections s !! c' = Some w').
  { intros w'. split.
    - intros (c' & H'). destruct (decide (c' = c)) as [->|Hne].
      + rewrite lookup_insert_eq in H'. simpl in H'. left. congruence.
      + rewrite lookup_insert_ne in H' by done. right. by exists c'.
    - intros [->|(c' & H')].
      + exists c. by rewrite lookup_insert_eq.
      + exists c'. rewrite lookup_insert_ne; [done|].
        intros ->. by rewrite Hnone in H'. }
  split.
  - cbn [_wire_slots]. case_bool_decide as He; [|done].
    apply NoDup_app. split; [done|]. split; [|apply NoDup_singleton].
    intros x Hx ->%list_elem_of_singleton.
    apply Hiff in Hx. done.
  - intros w'. rewrite connectorsAttachedToWire_not_nil.
    cbn [_wire_slots _connections]. rewrite Hlook.
    rewrite <- connectorsAttachedToWire_not_nil, <- Hiff.
    case_bool_decide as He.
    + rewrite elem_of_app, list_elem_of_singleton. tauto.
    + split; [tauto|]. intros [->|H']; [|done]. by apply Hiff.
Qed.

Lemma slots_match_detachWire s c :
  slots_match s → slots_match (wire_manager.detachWire c s).
Proof.
  intros [Hnd Hiff]. unfold wire_manager.detachWire.
  destruct (_connections s !! c) as [[w i]|] eqn:Ec;
    cbn [fmap option_fmap option_map fst].
  2:{ apply (slots_match_same_wires s); [done| |done].
      intros c'. cbn [_connections set_connections].
      by rewrite delete_id. }
  set (sd := set_connections (delete c (_connections s)) s).
  assert (Hother : ∀ w', w' ≠ w →
    (wire_manager.connectorsAttachedToWire w' sd ≠ []
     ↔ wire_manager.connectorsAttachedToWire w' s ≠ [])).
  { intros w' Hne. rewrite !connectorsAttachedToWire_not_nil.
    unfold sd. cbn [_connections set_connections].
    split; intros (c' & H'); exists c'.
    - destruct (decide (c' = c)) as [->|Hcc].
      + by rewrite lookup_delete_eq in H'.
      + by rewrite lookup_delete_ne in H'.
    - rewrite lookup_delete_ne; [done|]. intros ->.
      rewrite Ec in H'. simpl in H'. congruence. }
  assert (Hin : w ∈ _wire_slots s).
  { apply Hiff, connectorsAttachedToWire_not_nil. exists c. by rewrite Ec. }
  case_bool_decide as He.
  - split.
    + cbn [_wire_slots set_wire_slots]. by apply NoDup_removeAll.
    + intros w'. cbn [_wire_slots set_wire_slots].
      rewrite elem_of_removeAll.
      change (wire_manager.connectorsAttachedToWire w'
                (set_wire_slots (QVector.removeAll w (_wire_slots sd)) sd))
        with (wire_manager.connectorsAttachedToWire w' sd).
      destruct (decide (w' = w)) as [->|Hne].
      * split; [tauto|]. intros H. by rewrite He in H.
      * rewrite (Hother w' Hne), <- Hiff. unfold sd. simpl. tauto.
  - split; [done|]. intros w'.
    destruct (decide (w' = w)) as [->|Hne].
    + split; [done|]. intros _. done.
    + rewrite (Hother w' Hne). apply Hiff.
Qed.

Lemma slots_match_detachWireFromAll s w :
  slots_match s → slots_match (wire_manager.detachWireFromAll w s).
Proof.
  intros [Hnd Hiff].
  destruct (detachWireFromAll_fold w (wire_manager.keys s) s (NoDup_keys s))
    as (Hconn & Hslots & _).
  fold (wire_manager.detachWireFromAll w s) in Hconn, Hslots.
  set (s' := wire_manager.detachWireFromAll w s) in *.
  assert (Hconn' : ∀ c, _connections s' !! c
               = if decide (fst <$> _connections s !! c = Some w)
                 then None else _connections s !! c).
  { intros c. rewrite Hconn.
    destruct (decide (fst <$> _connections s !! c = Some w)) as [H|H].
    - rewrite decide_True; [done|]. split; [|done].
      apply elem_of_keys. destruct (_connections s !! c); [by eexists|done].
    - rewrite decide_False; [done|]. tauto. }
  assert (Hatt : ∀ w', wire_manager.connectorsAttachedToWire w' s' ≠ []
                       ↔ w' ≠ w
                         ∧ wire_manager.connectorsAttachedToWire w' s ≠ []).
  { intros w'. rewrite !connectorsAttachedToWire_not_nil. split.
    - intros (c & Hc). rewrite Hconn' in Hc.
      destruct (decide (fst <$> _connections s !! c = Some w)) as [H|H];
        [done|].
      split; [intros ->; done|by exists c].
    - intros [Hne (c & Hc)]. exists c. rewrite Hconn'.
      rewrite decide_False; [done|]. rewrite Hc. congruence. }
  assert (Hsl : _wire_slots s' = QVector.removeAll w (_wire_slots s)).
  { rewrite Hslots. destruct (decide _) as [|Hno]; [done|].
    symmetry. apply removeAll_notin. intros Hin. apply Hiff in Hin.
    apply connectorsAttachedToWire_not_nil in Hin as (c & Hc).
    apply Hno, Exists_exists. exists c. split; [|done].
    apply elem_of_keys. destruct (_connections s !! c); [by eexists|done]. }
  split.
  - rewrite Hsl. by apply NoDup_removeAll.
  - intros w'. rewrite Hsl, elem_of_removeAll, Hatt, Hiff. tauto.
Qed.

(** X27: the manager connects the signals of a wire when the first
    connector is attached to it and disconnects them when the last one is
    detached: after any sequence of [attachWireToConnector], [detachWire],
    [detachWireFromAll], [point_inserted] and [pointRemoved], started from
    a manager without attachments, the signals of a wire are connected
    exactly when a connector is attached to the wire, and never twice. *)
Theorem signals_connected_while_attached cs :
  slots_match empty_scene
  ∧ ∀ s, slots_match s → slots_match (run_attachment_calls cs s).
Proof.
  split.
  - split; [constructor|]. intros w. split; [by intros ?%elem_of_nil|].
    intros H. exfalso. apply H. done.
  - induction cs as [|c cs IH]; intros s Hs; [done|].
    apply IH. destruct c as [w i c|c|w|w i|w i]; cbn [run_attachment_call].
    + by apply slots_match_attachWireToConnector.
    + by apply slots_match_detachWire.
    + by apply slots_match_detachWireFromAll.
    + rewrite point_inserted_fmap.
      apply (slots_match_same_wires s); [done| |done].
      intros c'. cbn [_connections set_connections]. rewrite lookup_fmap.
      destruct (_connections s !! c') as [[w' a]|]; [|done]. simpl. f_equal.
      unfold shift_inserted. by repeat case_bool_decide.
    + rewrite pointRemoved_fmap.
      apply (slots_match_same_wires s); [done| |done].
      intros c'. cbn [_connections set_connections]. rewrite lookup_fmap.
      destruct (_connections s !! c') as [[w' a]|]; [|done]. simpl. f_equal.
      unfold shift_removed. by repeat case_bool_decide.
Qed.

(** ** Generating junctions while a wire has no points *)

Lemma mergeNets_keeps_points n o s m s' :
  wire_manager.mergeNets n o s = Some (m, s') →
  ∀ w, points_of s' w = points_of s w.
Proof.
  unfold wire_manager.mergeNets.
  destruct (decide (n = o)) as [->|Hne]; [by intros [= <- <-]|].
  destruct o as [o|]; [|done]. cbn [mbind option_bind].
  destruct n as [n|].
  - assert (n ≠ o) as Hno by congruence.
    destruct (move_wires_spec n o (λ _, false) Hno (WireNet.wires s o) s)
      as (s1 & Hs1 & _ & Hpts & _).
    unfold move_wire in Hs1. cbn [mbind option_bind]. rewrite Hs1.
    cbn [mbind option_bind]. by intros [= <- <-].
  - destruct (WireNet.wires s o) as [|x l]; [|done].
    cbn [for_each mbind option_bind]. by intros [= <- <-].
Qed.

Lemma connectWire_keeps_points a b s s' :
  wire_manager.connectWire a b s = Some s' →
  ∀ w, points_of s' w = points_of s w.
Proof.
  rewrite connectWire_unfold.
  destruct (QVector.contains (connected_wires s a) b); [by intros [= <-]|].
  destruct (wire_manager.mergeNets _ _ (link_added a b s))
    as [[m s2]|] eqn:E; [|done].
  cbn [mbind option_bind]. intros H w.
  rewrite <- (points_link_added a b s w).
  rewrite <- (mergeNets_keeps_points _ _ _ _ _ E w).
  destruct m; injection H as <-; [|done].
  by destruct (_net (wire_of (link_added a b s) b)).
Qed.

Lemma length_points_setPointIsJunction B i b s w :
  length (points_of (update_wire B (Wire.setPointIsJunction i b) s) w)
  = length (points_of s w).
Proof.
  pose proof (coords_setPointIsJunction B i b s w) as H.
  unfold coords_of, Wire.pointsAbsolute in H.
  apply (f_equal length) in H. rewrite !length_fmap in H. done.
Qed.

Section unfinished_wire.
Variable containsPoint : Line → QPointF → Z → bool.

Lemma generateJunctions_pair_keeps_lengths A X s s' :
  wire_manager.generateJunctions_pair containsPoint A X s = Some s' →
  ∀ w, length (points_of s' w) = length (points_of s w).
Proof.
  unfold wire_manager.generateJunctions_pair.
  destruct (decide (A = X)); [by intros [= <-]|].
  destruct (QVector.first (_points (wire_of s X))) as [f|]; [|done].
  cbn [mbind option_bind].
  match goal with
  | |- (?first_step ≫= _) = _ → _ =>
    assert (∀ s1, first_step = Some s1 →
              ∀ w, length (points_of s1 w) = length (points_of s w)) as H1
  end.
  { intros s1. destruct (Wire.pointIsOnWire _ _ _); [|by intros [= <-]].
    destruct (wire_manager.connectWire A X s) as [s0|] eqn:E; [|done].
    cbn [mbind option_bind]. intros [= <-] w.
    rewrite length_points_setPointIsJunction.
    by rewrite (connectWire_keeps_points _ _ _ _ E). }
  match goal with
  | |- (?first_step ≫= _) = _ → _ => destruct first_step as [s1|]; [|done]
  end.
  specialize (H1 s1 eq_refl). cbn [mbind option_bind].
  destruct (QVector.last (_points (wire_of s1 X))) as [l|]; [|done].
  cbn [mbind option_bind].
  destruct (Wire.pointIsOnWire _ _ _).
  - destruct (wire_manager.connectWire A X s1) as [s2|] eqn:E; [|done].
    cbn [mbind option_bind]. intros [= <-] w.
    rewrite <- H1, <- (connectWire_keeps_points _ _ _ _ E w).
    unfold points_of. rewrite wire_of_update_wire.
    destruct (decide (X = w)) as [->|]; [|done].
    pose proof (points_count_setPointIsJunction
                  (Wire.points_count (wire_of s2 w) - 1) true (wire_of s2 w))
      as Hc.
    unfold Wire.points_count, QVector.count in *. lia.
  - by intros [= <-].
Qed.

Lemma pointIsOnWire_short w p :
  (length (_points w) < 2)%nat →
  Wire.pointIsOnWire containsPoint w p = false.
Proof.
  intros H. unfold Wire.pointIsOnWire, Wire.line_segments, Wire.pointsAbsolute.
  destruct (_points w) as [|a [|b l]]; [done|done|simpl in H; lia].
Qed.

(** With a wire [B] without points as the first wire of a pair, nothing is
    found. *)
Lemma generateJunctions_pair_of_unfinished B X s s' :
  points_of s B = [] →
  wire_manager.generateJunctions_pair containsPoint B X s = Some s' → s' = s.
Proof.
  intros HB. unfold wire_manager.generateJunctions_pair.
  destruct (decide (B = X)); [by intros [= <-]|].
  destruct (QVector.first (_points (wire_of s X))) as [f|]; [|done].
  cbn [mbind option_bind].
  rewrite pointIsOnWire_short
    by (fold (points_of s B); rewrite HB; simpl; lia).
  cbn [mbind option_bind].
  destruct (QVector.last (_points (wire_of s X))) as [l|]; [|done].
  cbn [mbind option_bind].
  rewrite pointIsOnWire_short
    by (fold (points_of s B); rewrite HB; simpl; lia).
  by intros [= <-].
Qed.

Lemma generateJunctions_inner_faults A B (L : list WireId) : ∀ s,
  A ≠ B → B ∈ L → points_of s B = [] →
  for_each L
    (λ otherWire s,
       wire_manager.generateJunctions_pair containsPoint A otherWire s) s
  = None.
Proof.
  induction L as [|X L IH]; intros s Hne HB Hemp; [by apply elem_of_nil in HB|].
  rewrite for_each_cons.
  destruct (wire_manager.generateJunctions_pair containsPoint A X s)
    as [s1|] eqn:E; [|done].
  cbn [mbind option_bind].
  assert (points_of s1 B = []) as Hemp1.
  { apply nil_length_inv.
    rewrite (generateJunctions_pair_keeps_lengths _ _ _ _ E B).
    by rewrite Hemp. }
  apply elem_of_cons in HB as [<-|HB]; [|by apply IH].
  exfalso. unfold wire_manager.generateJunctions_pair in E.
  rewrite decide_False in E by done.
  fold (points_of s B) in E. rewrite Hemp in E. done.
Qed.

Lemma generateJunctions_outer_faults B (L : list WireId) : ∀ s,
  (∃ A, A ∈ L ∧ A ≠ B) → B ∈ wire_manager.wires s → points_of s B = [] →
  for_each L
    (λ wire s,
       for_each (wire_manager.wires s)
         (λ otherWire s,
            wire_manager.generateJunctions_pair containsPoint wire otherWire s)
         s) s
  = None.
Proof.
  induction L as [|W L IH]; intros s (A & HA & Hne) HB Hemp;
    [by apply elem_of_nil in HA|].
  rewrite for_each_cons.
  destruct (decide (W = B)) as [->|HW].
  - assert (∀ (K : list WireId) s1,
              for_each K
                (λ otherWire s,
                   wire_manager.generateJunctions_pair containsPoint B
                     otherWire s) s
              = Some s1 → s1 = s) as Hsame.
    { clear -Hemp. induction K as [|X K IHK]; intros s1; [by intros [= <-]|].
      rewrite for_each_cons.
      destruct (wire_manager.generateJunctions_pair containsPoint B X s)
        as [s2|] eqn:E; [|done].
      apply generateJunctions_pair_of_unfinished in E as ->; [|done].
      cbn [mbind option_bind]. apply IHK. }
    destruct (for_each (wire_manager.wires s) _ s) as [s1|] eqn:E; [|done].
    apply Hsame in E as ->. cbn [mbind option_bind].
    apply IH; [|done|done].
    exists A. split; [|done].
    apply elem_of_cons in HA as [->|HA]; [done|done].
  - by rewrite (generateJunctions_inner_faults W B _ s HW HB Hemp).
Qed.

(** X28: [generateJunctions] faults when a managed wire has no points and
    another wire is managed: the first point of the wire without points is
    read. *)
Theorem generateJunctions_faults_on_a_wire_without_points s A B :
  A ∈ wire_manager.wires s → B ∈ wire_manager.wires s → A ≠ B →
  points_of s B = [] →
  wire_manager.generateJunctions containsPoint s = None.
Proof.
  intros HA HB Hne Hemp. unfold wire_manager.generateJunctions.
  apply (generateJunctions_outer_faults B); [by exists A|done|done].
Qed.

End unfinished_wire.

Lemma generateJunctions_faults_on_a_wire_without_points_witness :
  (0%nat ∈ wire_manager.wires unfinished_wire_scene
   ∧ 1%nat ∈ wire_manager.wires unfinished_wire_scene
   ∧ 0%nat ≠ 1%nat
   ∧ points_of unfinished_wire_scene 1%nat = [])
  ∧ wire_manager.generateJunctions line.containsPoint unfinished_wire_scene
    = None.
Proof.
  assert (H0 : 0%nat ∈ wire_manager.wires unfinished_wire_scene)
    by (vm_compute; repeat constructor).
  assert (H1 : 1%nat ∈ wire_manager.wires unfinished_wire_scene)
    by (vm_compute; repeat constructor).
  assert (Hne : 0%nat ≠ 1%nat) by discriminate.
  assert (Hp : points_of unfinished_wire_scene 1%nat = [])
    by (vm_compute; reflexivity).
  split; [split; [exact H0|split; [exact H1|split; [exact Hne|exact Hp]]]|].
  exact (generateJunctions_faults_on_a_wire_without_points line.containsPoint
           unfinished_wire_scene 0%nat 1%nat H0 H1 Hne Hp).
Defined.
